(** * Name normalisation, cross-source matching and slide grid layout

    A shallow embedding of the two reusable algorithms of the lipidation-site
    scripts:

    - the construct-name normalisers ([_normalize_name_for_match] of
      MALDI/plot_maldi_constructs.py, [_norm_name] of HPLC/make_hplc_pptx.py,
      [_clean_construct_name] of HPLC/plot_hplc.py) and the page-priority
      ordering of HPLC/make_hplc_pptx.py ([add_page_constructs]);
    - the slide grid layout of THT/add_images_to_ppt.py,
      HPLC/make_hplc_pptx.py ([build_pptx]) and MALDI/make_maldi_ppt.py
      ([grid_positions]).

    Python [str] values are lists of Unicode code points, Python [int] is [Z],
    Python [float] is an instance of the class [PyFloat]: IEEE binary64
    (Rocq's primitive floats, what CPython computes) or exact rationals. *)

From stdpp Require Import base list gmap.
From Stdlib Require Import ZArith QArith Floats Lia Lqa.
From Stdlib Require Ascii String.
Import String.StringSyntax.

Local Open Scope Z_scope.

(* ===================================================================== *)
(** * Part I: strings *)
(* ===================================================================== *)

Module Str.

(** A Python [str]: a sequence of code points. *)
Abbreviation codepoint := N (only parsing).
Abbreviation str := (list N) (only parsing).

(** An ASCII literal as a [str]. *)
Definition lit (s : String.string) : str :=
  map Ascii.N_of_ascii (String.list_ascii_of_string s).
Arguments lit s%_string_scope.

Definition cp_space : N := 32.
Definition cp_lparen : N := 40.
Definition cp_rparen : N := 41.
Definition cp_minus : N := 45.
Definition cp_slash : N := 47.
Definition cp_colon : N := 58.
Definition cp_underscore : N := 95.

(** [str.isspace] on one code point: the characters [str.strip()] removes and
    the regular-expression class [\s] matches. *)
Definition isspace (c : N) : bool :=
  ((9 <=? c) && (c <=? 13) || (28 <=? c) && (c <=? 32) || (c =? 133)
   || (c =? 160) || (c =? 5760) || (8192 <=? c) && (c <=? 8202)
   || (c =? 8232) || (c =? 8233) || (c =? 8239) || (c =? 8287)
   || (c =? 12288))%N.

(** The class of zero-width and byte-order-mark characters, U+200B, U+200C,
    U+200D and U+FEFF. *)
Definition is_zero_width (c : N) : bool :=
  ((c =? 8203) || (c =? 8204) || (c =? 8205) || (c =? 65279))%N.

(** The Unicode tables CPython consults beyond ASCII; they are not part of the
    repository. *)
Class Unicode := {
  unicode_lower : N -> N;
  unicode_isalnum : N -> bool
}.

Definition is_ascii_upper (c : N) : bool := ((65 <=? c) && (c <=? 90))%N.
Definition is_ascii_lower (c : N) : bool := ((97 <=? c) && (c <=? 122))%N.
Definition is_ascii_digit (c : N) : bool := ((48 <=? c) && (c <=? 57))%N.

Definition lower_cp `{Unicode} (c : N) : N :=
  if is_ascii_upper c then (c + 32)%N
  else if (c <? 128)%N then c
  else unicode_lower c.

(** [s.lower()], code point by code point. *)
Definition lower `{Unicode} (s : str) : str := map lower_cp s.

(** The regular-expression class [\w]. *)
Definition is_word `{Unicode} (c : N) : bool :=
  if (c <? 128)%N
  then is_ascii_upper c || is_ascii_lower c || is_ascii_digit c
       || (c =? cp_underscore)%N
  else unicode_isalnum c.

(** ASCII-only tables: every code point beyond ASCII is left alone and is not
    a word character. *)
Definition ascii_tables : Unicode :=
  {| unicode_lower := fun c => c; unicode_isalnum := fun _ => false |}.

Fixpoint drop_while (p : N -> bool) (s : str) : str :=
  match s with
  | [] => []
  | c :: r => if p c then drop_while p r else s
  end.

Definition lstrip_by (p : N -> bool) (s : str) : str := drop_while p s.
Definition rstrip_by (p : N -> bool) (s : str) : str :=
  reverse (drop_while p (reverse s)).

(** [s.strip(chars)] for the set of characters [p]. *)
Definition strip_by (p : N -> bool) (s : str) : str :=
  rstrip_by p (lstrip_by p s).

(** [s.strip()]. *)
Definition strip (s : str) : str := strip_by isspace s.

Definition in_chars (chars : str) (c : N) : bool :=
  existsb (fun d => (c =? d)%N) chars.

Fixpoint startswith (p s : str) : bool :=
  match p, s with
  | [], _ => true
  | a :: p', b :: s' => (a =? b)%N && startswith p' s'
  | _ :: _, [] => false
  end.

Definition endswith (s p : str) : bool := startswith (reverse p) (reverse s).

(** [sub in s]. *)
Fixpoint contains (sub s : str) : bool :=
  startswith sub s ||
  match s with
  | [] => false
  | _ :: r => contains sub r
  end.

(** [s.replace(old, new)] for a non-empty [old]: the occurrences of [old] are
    found left to right and do not overlap.  [skip] counts the characters of
    the current occurrence still to be passed over. *)
Fixpoint replace_from (old new : str) (skip : nat) (s : str) : str :=
  match s with
  | [] => []
  | c :: r =>
      match skip with
      | S k => replace_from old new k r
      | O =>
          if startswith old s
          then new ++ replace_from old new (length old - 1) r
          else c :: replace_from old new 0 r
      end
  end.

Definition replace (old new s : str) : str := replace_from old new 0 s.

(** [re.sub] with a pattern [cls+]: every maximal run of characters of the class
    [p] becomes one [rep]. *)
Fixpoint sub_runs (p : N -> bool) (rep : str) (in_run : bool) (s : str) : str :=
  match s with
  | [] => []
  | c :: r =>
      if p c
      then (if in_run then sub_runs p rep true r
            else rep ++ sub_runs p rep true r)
      else c :: sub_runs p rep false r
  end.

(** Splits [s] at its first code point equal to [d]: what [[^d]*d] matches,
    and the rest. *)
Fixpoint break_at (d : N) (s : str) : option (str * str) :=
  match s with
  | [] => None
  | c :: r =>
      if (c =? d)%N then Some ([], r)
      else match break_at d r with
           | Some (inner, rest) => Some (c :: inner, rest)
           | None => None
           end
  end.

(** [re.sub] with the pattern of [_normalize_name_for_match]: an opening
    parenthesis, group 1 made of any run of characters other than a closing
    parenthesis, and a closing parenthesis; leftmost matches, not overlapping;
    [repl] receives group 1.  The recursion continues after the match, on a
    shorter string; [fuel] bounds it by the length of the input. *)
Fixpoint re_sub_paren (fuel : nat) (repl : str -> str) (s : str) : str :=
  match fuel with
  | O => s
  | S fuel' =>
      match s with
      | [] => []
      | c :: r =>
          if (c =? cp_lparen)%N
          then match break_at cp_rparen r with
               | Some (inner, rest) => repl inner ++ re_sub_paren fuel' repl rest
               | None => c :: re_sub_paren fuel' repl r
               end
          else c :: re_sub_paren fuel' repl r
      end
  end.

(** ** MALDI/plot_maldi_constructs.py *)

(** The callback [_paren_fix] of [_normalize_name_for_match]. *)
Definition _paren_fix (inner : str) : str :=
  lit "(" ++ replace (lit "_") (lit "/") inner ++ lit ")".

Definition _normalize_name_for_match `{Unicode} (s : str) : str :=
  let s2 := s in
  let s2 := filter (fun c => is_zero_width c = false) s2 in
  let s2 := replace (lit " ") [] (strip s2) in
  let s2 := re_sub_paren (length s2) _paren_fix s2 in
  lower s2.

(** ** HPLC/make_hplc_pptx.py *)

Definition _norm_name `{Unicode} (s : str) : str :=
  let s := strip s in
  let s := replace (lit " ") (lit "_") s in
  let s := sub_runs (fun c => negb (is_word c || (c =? cp_minus)%N)) (lit "_") false s in
  let s := sub_runs (fun c => (c =? cp_underscore)%N) (lit "_") false s in
  let s := strip_by (in_chars (lit "_")) s in
  s.

(** ** HPLC/plot_hplc.py *)

(** The tag of line 270 and of [add_page_constructs]'s [distinct_suffix]. *)
Definition p3distinct : str := lit "_p3distinct".

(** Line 270: the f-string [{c}_p3distinct]. *)
Definition apply_p3distinct (c : str) : str := c ++ p3distinct.

(** Line 321: [s.replace] of the tag by the empty string. *)
Definition remove_p3distinct (s : str) : str := replace p3distinct [] s.

(** A pattern letter under [(?i)]: both ASCII cases, and U+017F for [s]. *)
Definition ci_match (letter c : N) : bool :=
  ((c =? letter) || (c =? letter - 32)
   || ((letter =? 115) && (c =? 383)))%N.

Fixpoint ci_prefix (word s : str) : option str :=
  match word, s with
  | [], _ => Some s
  | a :: word', c :: s' => if ci_match a c then ci_prefix word' s' else None
  | _ :: _, [] => None
  end.

(** [re.sub] of [(?i)^\s*HPLC\s*chromatogram[s]?\s*[-:]*\s*] by nothing: each
    starred class is disjoint from what may follow it, so the greedy match is
    the only one. *)
Definition strip_hplc_prefix (s : str) : str :=
  match ci_prefix (lit "hplc") (drop_while isspace s) with
  | None => s
  | Some s1 =>
      match ci_prefix (lit "chromatogram") (drop_while isspace s1) with
      | None => s
      | Some s2 =>
          let s3 := match s2 with
                    | c :: r => if ci_match 115 c then r else s2
                    | [] => s2
                    end in
          let s4 := drop_while isspace s3 in
          let s5 := drop_while (in_chars (lit "-:")) s4 in
          drop_while isspace s5
      end
  end.

Definition _clean_construct_name (name : str) : str :=
  let s := name in
  let s := remove_p3distinct s in
  let s := strip_hplc_prefix s in
  let s := strip_by (in_chars (lit "-:")) (strip s) in
  strip s.

End Str.

(* ===================================================================== *)
(** * Part II: page-priority ordering (HPLC/make_hplc_pptx.py, [main]) *)
(* ===================================================================== *)

Module Matcher.
Import Str.

(** A [pathlib.Path] of an image, as far as [main] looks at it. *)
Record Path := { stem : str; suffix : str }.

(** [base_name]: [re.sub] of [_chrom$] by nothing; [$] also matches just
    before a final newline. *)
Definition base_name (p : Path) : str :=
  let st := stem p in
  if endswith st (lit "_chrom") then take (length st - 6) st
  else if endswith st (lit "_chrom" ++ [10%N]) then take (length st - 7) st ++ [10%N]
  else st.

Section WithTables.
Context `{Unicode}.

Definition key_of (p : Path) : str := _norm_name (base_name p).

(** Lines 146-151: the allowed construct set built from the page headers. *)
Definition build_allowed (pages : list (list str)) : gset str :=
  foldl (fun allowed pg =>
           foldl (fun allowed c =>
                    {[ _norm_name (c ++ lit "_p3distinct") ]} ∪ ({[ _norm_name c ]} ∪ allowed))
                 allowed pg)
        ∅ pages.

(** Lines 158-159. *)
Definition filter_allowed (allowed : gset str) (imgs : list Path) : list Path :=
  if decide (allowed = ∅) then imgs
  else filter (fun p => key_of p ∈ allowed) imgs.

(** Line 164: the dict comprehension; a later image overwrites an earlier one
    with the same key. *)
Definition build_img_map (imgs : list Path) : gmap str Path :=
  foldl (fun m p => <[ key_of p := p ]> m) ∅ imgs.

(** The closure state of [add_page_constructs]: [ordered_imgs] and
    [seen_keys]. *)
Record order_state := { ordered_imgs : list Path; seen_keys : gset str }.

(** Lines 181-185. *)
Definition add_plain (img_map : gmap str Path) (st : order_state) (c : str)
  : order_state :=
  let norm := _norm_name c in
  match img_map !! norm with
  | Some p =>
      if decide (norm ∈ seen_keys st) then st
      else {| ordered_imgs := ordered_imgs st ++ [p];
              seen_keys := {[ norm ]} ∪ seen_keys st |}
  | None => st
  end.

(** The body of the loop of [add_page_constructs], lines 172-185.  An absent
    or empty [distinct_suffix] is false. *)
Definition add_construct (img_map : gmap str Path) (distinct_suffix : option str)
  (st : order_state) (c : str) : order_state :=
  match distinct_suffix with
  | Some ((_ :: _) as sfx) =>
      let dist_norm := _norm_name (c ++ sfx) in
      match img_map !! dist_norm with
      | Some p =>
          if decide (dist_norm ∈ seen_keys st) then add_plain img_map st c
          else {| ordered_imgs := ordered_imgs st ++ [p];
                  seen_keys := {[ dist_norm ]} ∪ seen_keys st |}
      | None => add_plain img_map st c
      end
  | _ => add_plain img_map st c
  end.

(** [add_page_constructs(page_csv, distinct_suffix)], on the constructs read
    from the page (none when the page is absent). *)
Definition add_page_constructs (img_map : gmap str Path) (st : order_state)
  (constructs : list str) (distinct_suffix : option str) : order_state :=
  foldl (add_construct img_map distinct_suffix) st constructs.

(** Sources in priority order, each with its optional suffix. *)
Definition add_pages (img_map : gmap str Path) (st : order_state)
  (sources : list (list str * option str)) : order_state :=
  foldl (fun st src => add_page_constructs img_map st (fst src) (snd src)) st sources.

(** Lines 196-201: the fallback pass over the images. *)
Definition add_remaining (st : order_state) (imgs : list Path) : order_state :=
  foldl (fun st p =>
           let norm := key_of p in
           if decide (norm ∈ seen_keys st) then st
           else {| ordered_imgs := ordered_imgs st ++ [p];
                   seen_keys := {[ norm ]} ∪ seen_keys st |})
        st imgs.

Definition empty_state : order_state := {| ordered_imgs := []; seen_keys := ∅ |}.

(** Lines 164-205 for any list of sources. *)
Definition order_images (imgs : list Path) (sources : list (list str * option str))
  : list Path :=
  let img_map := build_img_map imgs in
  let st := add_pages img_map empty_state sources in
  ordered_imgs (add_remaining st imgs).

(** Lines 145-205 of [main]: the four pages, page 3 with its suffix. *)
Definition main_order (imgs : list Path) (page1 page2 page3 page4 : list str)
  : list Path :=
  let allowed := build_allowed [page1; page2; page3; page4] in
  let imgs := filter_allowed allowed imgs in
  order_images imgs
    [(page1, None); (page2, None); (page3, Some (lit "_p3distinct")); (page4, None)].

End WithTables.
End Matcher.

(* ===================================================================== *)
(** * Part III: Python numbers *)
(* ===================================================================== *)

Module Py.

(** The exceptions the modelled code can raise. *)
Inductive error := ZeroDivisionError | ValueError | OverflowError.

Inductive result (A : Type) : Type :=
| Ok (a : A)
| Raise (e : error).
Arguments Ok {A} a.
Arguments Raise {A} e.

Definition bind {A B} (m : result A) (k : A -> result B) : result B :=
  match m with
  | Ok a => k a
  | Raise e => Raise e
  end.

Notation "'do' x <- m ; k" := (bind m (fun x => k))
  (at level 10, x name, m at level 100, k at level 200).

(** [enumerate(l, start)] with a body that may raise. *)
Fixpoint for_enumerate {A B} (f : Z -> A -> result B) (start : Z) (l : list A)
  : result (list B) :=
  match l with
  | [] => Ok []
  | a :: l' =>
      do b <- f start a;
      do bs <- for_enumerate f (start + 1) l';
      Ok (b :: bs)
  end.

(** A [for] loop threading a state. *)
Fixpoint for_each {A S} (f : S -> A -> result S) (st : S) (l : list A) : result S :=
  match l with
  | [] => Ok st
  | a :: l' => do st' <- f st a; for_each f st' l'
  end.

(** Python's [float] as the layout code uses it. *)
Class PyFloat (F : Type) := {
  of_int : Z -> F;             (* an [int] operand of a float operation *)
  of_dec : Q -> F;             (* a decimal literal *)
  fadd : F -> F -> F;
  fsub : F -> F -> F;
  fmul : F -> F -> F;
  fdiv : F -> F -> F;          (* the divisor is known not to be zero *)
  flt : F -> F -> bool;        (* [a < b] *)
  to_int : F -> result Z       (* [int(x)]: truncation towards zero *)
}.

Section Generic.
Context {F : Type} {FL : PyFloat F}.

(** [min(a, b)] and [max(a, b)] keep the first argument unless the second is
    strictly smaller (larger). *)
Definition py_min (a b : F) : F := if flt b a then b else a.
Definition py_max (a b : F) : F := if flt a b then b else a.

(** [a / b] for two ints. *)
Definition int_truediv (a b : Z) : result F :=
  if b =? 0 then Raise ZeroDivisionError else Ok (fdiv (of_int a) (of_int b)).

(** [x / b] for a float and an int. *)
Definition float_div_int (x : F) (b : Z) : result F :=
  if b =? 0 then Raise ZeroDivisionError else Ok (fdiv x (of_int b)).

(** python-pptx's [Inches(x)]: [int(x * 914400)]. *)
Definition Inches (x : F) : result Z := to_int (fmul x (of_int 914400)).

End Generic.

(** [a // b] and [a % b] on ints (floor division, as [Z.div] and [Z.modulo]). *)
Definition floordiv (a b : Z) : result Z :=
  if b =? 0 then Raise ZeroDivisionError else Ok (a / b).
Definition pymod (a b : Z) : result Z :=
  if b =? 0 then Raise ZeroDivisionError else Ok (a mod b).

(** [range(start, stop, step)]. *)
Fixpoint range_up (fuel : nat) (i stop step : Z) : list Z :=
  match fuel with
  | O => []
  | S fuel' => if i <? stop then i :: range_up fuel' (i + step) stop step else []
  end.

Fixpoint range_down (fuel : nat) (i stop step : Z) : list Z :=
  match fuel with
  | O => []
  | S fuel' => if stop <? i then i :: range_down fuel' (i + step) stop step else []
  end.

Definition range (start stop step : Z) : result (list Z) :=
  if step =? 0 then Raise ValueError
  else if 0 <? step then Ok (range_up (Z.to_nat (stop - start)) start stop step)
  else Ok (range_down (Z.to_nat (start - stop)) start stop step).

(** A slice bound brought into [0, len]. *)
Definition slice_index (len i : Z) : Z :=
  if i <? 0 then Z.max 0 (len + i) else Z.min i len.

(** [l[a:b]]. *)
Definition slice {A} (a b : Z) (l : list A) : list A :=
  let len := Z.of_nat (length l) in
  let a' := slice_index len a in
  let b' := slice_index len b in
  take (Z.to_nat (b' - a')) (drop (Z.to_nat a') l).

(** [l[:b]]. *)
Definition slice_to {A} (b : Z) (l : list A) : list A := slice 0 b l.

(** ** IEEE binary64: CPython's float *)

(** The float nearest to an integer; exact up to 2^53 in magnitude. *)
Definition Z2F (z : Z) : float := SF2Prim (binary_normalize prec emax z 0 false).

Definition F2Z (x : float) : result Z :=
  match Prim2SF x with
  | S754_zero _ => Ok 0
  | S754_finite s m e =>
      let v := if 0 <=? e then Z.pos m * 2 ^ e else Z.pos m / 2 ^ (- e) in
      Ok (if s then - v else v)
  | S754_infinity _ => Raise OverflowError
  | S754_nan => Raise ValueError
  end.

(** A decimal literal is the float nearest to its value: the correctly
    rounded quotient of its numerator and its power of ten. *)
Definition Q2F (q : Q) : float := PrimFloat.div (Z2F (Qnum q)) (Z2F (Z.pos (Qden q))).

#[export] Instance binary64 : PyFloat float := {|
  of_int := Z2F;
  of_dec := Q2F;
  fadd := PrimFloat.add;
  fsub := PrimFloat.sub;
  fmul := PrimFloat.mul;
  fdiv := PrimFloat.div;
  flt := PrimFloat.ltb;
  to_int := F2Z
|}.

(** ** Exact arithmetic: the rationals *)

Definition Qtrunc (q : Q) : Z := Z.quot (Qnum q) (Z.pos (Qden q)).

Definition exact : PyFloat Q := {|
  of_int := inject_Z;
  of_dec := fun q => q;
  fadd := Qplus;
  fsub := Qminus;
  fmul := Qmult;
  fdiv := Qdiv;
  flt := fun a b => negb (Qle_bool b a);
  to_int := fun q => Ok (Qtrunc q)
|}.

End Py.

(* ===================================================================== *)
(** * Part IV: slide grids *)
(* ===================================================================== *)

Module Deck.
Import Str Py.

(** What python-pptx keeps of a picture or a text box (lengths in EMU). *)
Inductive shape :=
| Picture (image : str) (left top width height : Z)
| TextBox (left top width height : Z) (text : str) (font_size : Z).

Definition slide := list shape.

Record Presentation := {
  slide_width : Z;
  slide_height : Z;
  slides : list slide
}.

(** [prs.slides.add_slide(...)] followed by the shapes put on the new slide. *)
Definition add_slide (prs : Presentation) (shapes : slide) : Presentation :=
  {| slide_width := slide_width prs;
     slide_height := slide_height prs;
     slides := slides prs ++ [shapes] |}.

(** An entry [(title, path)] of [items], with the native size python-pptx
    reads from the image file when [add_picture] is given no size. *)
Record item := {
  title : str;
  path : str;
  native_width : Z;
  native_height : Z
}.

Definition is_picture (s : shape) : bool :=
  match s with Picture _ _ _ _ _ => true | TextBox _ _ _ _ _ _ => false end.

Definition pictures (sl : slide) : list str :=
  flat_map (fun s => match s with
                     | Picture image _ _ _ _ => [image]
                     | TextBox _ _ _ _ _ _ => []
                     end) sl.

Section WithFloat.
Context {F : Type} {FL : PyFloat F}.

(** ** THT/add_images_to_ppt.py *)

(** Lines 216-220: the contain fit of a picture of native size [pw] x [ph]
    into a cell. *)
Definition fit_contain (cell_w cell_h pw ph : Z) : result (Z * Z) :=
  do scale_w <- int_truediv cell_w pw;
  do scale_h <- int_truediv cell_h ph;
  let scale := py_min scale_w scale_h in
  do new_w <- to_int (fmul (of_int pw) scale);
  do new_h <- to_int (fmul (of_int ph) scale);
  Ok (new_w, new_h).

(** Lines 104-109 (and 153-157): the cover fit. *)
Definition fit_cover (cell_w cell_h pw ph : Z) : result (Z * Z) :=
  do scale_w <- int_truediv cell_w pw;
  do scale_h <- int_truediv cell_h ph;
  let scale := py_max scale_w scale_h in
  do new_w <- to_int (fmul (of_int pw) scale);
  do new_h <- to_int (fmul (of_int ph) scale);
  Ok (new_w, new_h).

(** [int(left + (cell_w - new_w) / 2)]. *)
Definition centered (left cell_w new_w : Z) : result Z :=
  to_int (fadd (of_int left) (fdiv (of_int (cell_w - new_w)) (of_int 2))).

(** [int((slide_w - grid_w) / 2)]. *)
Definition grid_origin (slide_w grid_w : Z) : result Z :=
  to_int (fdiv (of_int (slide_w - grid_w)) (of_int 2)).

(** Lines 43-115. *)
Definition add_grid_slides (prs : Presentation) (items : list item)
  (cols rows start_idx : Z) : result Presentation :=
  let slide_w := slide_width prs in
  let slide_h := slide_height prs in
  let vspace_in : F := of_dec 0.05 in
  let hspace := 0 in                 (* [Inches(0)], an int product *)
  do vspace <- Inches vspace_in;
  let target_cell_w_in : F := of_dec 1.92 in
  let target_cell_h_in : F := of_dec 1.6 in
  do target_cell_w <- Inches target_cell_w_in;
  do target_cell_h <- Inches target_cell_h_in;
  let per_slide := cols * rows in
  do starts <- range start_idx (Z.of_nat (length items)) per_slide;
  let chunks := map (fun i => slice i (i + per_slide) items) starts in
  for_each (fun prs chunk =>
    let total_spacing_w := hspace * (cols - 1) in
    let total_spacing_h := vspace * (rows - 1) in
    let grid_w := target_cell_w * cols + total_spacing_w in
    let grid_h := target_cell_h * rows + total_spacing_h in
    do half <- Inches (of_dec 0.5);
    let max_grid_w := slide_w - half * 2 in
    let max_grid_h := slide_h - half * 2 in
    do ratio_w <- int_truediv max_grid_w grid_w;
    do ratio_h <- int_truediv max_grid_h grid_h;
    let scale_grid := py_min (py_min (of_dec 1.0) ratio_w) ratio_h in
    do cell_w <- to_int (fmul (of_int target_cell_w) scale_grid);
    do cell_h <- to_int (fmul (of_int target_cell_h) scale_grid);
    let grid_w := cell_w * cols + total_spacing_w in
    let grid_h := cell_h * rows + total_spacing_h in
    do origin_left <- grid_origin slide_w grid_w;
    do origin_top <- grid_origin slide_h grid_h;
    do shapes <- for_enumerate (fun i it =>
      do r <- floordiv i cols;
      do c <- pymod i cols;
      let left := origin_left + c * (cell_w + hspace) in
      let top := origin_top + r * (cell_h + vspace) in
      do new <- fit_cover cell_w cell_h (native_width it) (native_height it);
      do pic_left <- centered left cell_w (fst new);
      do pic_top <- centered top cell_h (snd new);
      Ok (Picture (path it) pic_left pic_top (fst new) (snd new))) 0 chunk;
    Ok (add_slide prs shapes)) prs chunks.

(** Lines 132-136: the space left for the cells and the truncated share of
    one cell. *)
Definition cell_geometry (prs : Presentation) (cols rows margin hspace vspace : Z)
  : result (Z * Z) :=
  let avail_w := slide_width prs - 2 * margin - hspace * (cols - 1) in
  let avail_h := slide_height prs - 2 * margin - vspace * (rows - 1) in
  do qw <- int_truediv avail_w cols;
  do cell_w <- to_int qw;
  do qh <- int_truediv avail_h rows;
  do cell_h <- to_int qh;
  Ok (cell_w, cell_h).

(** Lines 118-168. *)
Definition add_captioned_grid_slide (prs : Presentation) (items : list item)
  (cols rows : Z) (rename_prefix : option str)
  (margin_in hspace_in vspace_in : F) (caption_pt : Z) : result Presentation :=
  let slide_w := slide_width prs in
  let slide_h := slide_height prs in
  do margin <- Inches margin_in;
  do hspace <- Inches hspace_in;
  do vspace <- Inches vspace_in;
  do caption_h <- Inches (of_dec 0.18);
  do cell <- cell_geometry prs cols rows margin hspace vspace;
  let cell_w := fst cell in
  let cell_h := snd cell in
  let img_h := Z.max 1 (cell_h - caption_h) in
  let grid_w := cell_w * cols + hspace * (cols - 1) in
  let grid_h := cell_h * rows + vspace * (rows - 1) in
  do origin_left <- grid_origin slide_w grid_w;
  do origin_top <- grid_origin slide_h grid_h;
  do shapes <- for_enumerate (fun i it =>
    do r <- floordiv i cols;
    do c <- pymod i cols;
    let left := origin_left + c * (cell_w + hspace) in
    let top := origin_top + r * (cell_h + vspace) in
    do new <- fit_cover cell_w img_h (native_width it) (native_height it);
    do pic_left <- centered left cell_w (fst new);
    do pic_top <- centered top img_h (snd new);
    let disp_title := match rename_prefix with
                      | Some ((_ :: _) as pre) => pre ++ title it
                      | _ => title it
                      end in
    Ok [Picture (path it) pic_left pic_top (fst new) (snd new);
        TextBox left (top + img_h) cell_w caption_h disp_title (caption_pt * 12700)])
    0 (slice_to (cols * rows) items);
  Ok (add_slide prs (concat shapes)).

(** Lines 171-224. *)
Definition add_fill_grid_slide_no_captions (prs : Presentation) (items : list item)
  (cols rows : Z) (margin_in hspace_in vspace_in : F) (fill_order : str)
  : result Presentation :=
  let slide_w := slide_width prs in
  let slide_h := slide_height prs in
  do margin <- Inches margin_in;
  do hspace <- Inches hspace_in;
  do vspace <- Inches vspace_in;
  let avail_w := slide_w - 2 * margin - hspace * (cols - 1) in
  let avail_h := slide_h - 2 * margin - vspace * (rows - 1) in
  do qw <- int_truediv avail_w cols;
  do cell_w <- to_int qw;
  let aspect_ratio := fdiv (of_dec 6.5) (of_dec 5.0) in
  do cell_h_tight <- to_int (fdiv (of_int cell_w) aspect_ratio);
  do qh <- int_truediv avail_h rows;
  do cell_h_max <- to_int qh;
  let cell_h := Z.min cell_h_tight cell_h_max in
  let grid_w := cell_w * cols + hspace * (cols - 1) in
  let grid_h := cell_h * rows + vspace * (rows - 1) in
  do origin_left <- grid_origin slide_w grid_w;
  do origin_top <- grid_origin slide_h grid_h;
  do shapes <- for_enumerate (fun i it =>
    do rc <- (if bool_decide (fill_order = lit "column")
              then (do c <- floordiv i rows; do r <- pymod i rows; Ok (r, c))
              else (do r <- floordiv i cols; do c <- pymod i cols; Ok (r, c)));
    let r := fst rc in
    let c := snd rc in
    let left := origin_left + c * (cell_w + hspace) in
    let top := origin_top + r * (cell_h + vspace) in
    do new <- fit_contain cell_w cell_h (native_width it) (native_height it);
    do pic_left <- centered left cell_w (fst new);
    do pic_top <- centered top cell_h (snd new);
    Ok (Picture (path it) pic_left pic_top (fst new) (snd new)))
    0 (slice_to (cols * rows) items);
  Ok (add_slide prs shapes).

(** Lines 227-248. *)
Definition add_fill_grid_slides_no_captions_paginated (prs : Presentation)
  (items : list item) (cols rows : Z) (margin_in hspace_in vspace_in : F)
  (fill_order : str) : result Presentation :=
  let per_slide := cols * rows in
  do starts <- range 0 (Z.of_nat (length items)) per_slide;
  for_each (fun prs i =>
              add_fill_grid_slide_no_captions prs (slice i (i + per_slide) items)
                cols rows margin_in hspace_in vspace_in fill_order)
           prs starts.

(** ** MALDI/make_maldi_ppt.py *)

(** [range(n)] for the nested loops. *)
Definition indices (n : Z) : list Z := map Z.of_nat (seq 0 (Z.to_nat n)).

(** Lines 45-64; positions in inches. *)
Definition grid_positions (rows cols : Z)
  (img_w_in img_h_in hspace_in vspace_in page_w_in page_h_in margin_in : F)
  : list (F * F) :=
  let grid_w := fadd (fmul (of_int cols) img_w_in) (fmul (of_int (cols - 1)) hspace_in) in
  let grid_h := fadd (fmul (of_int rows) img_h_in) (fmul (of_int (rows - 1)) vspace_in) in
  let left := fadd (fdiv (fsub (fsub page_w_in (fmul (of_int 2) margin_in)) grid_w)
                         (of_int 2)) margin_in in
  let top := fadd (fdiv (fsub (fsub page_h_in (fmul (of_int 2) margin_in)) grid_h)
                        (of_int 2)) margin_in in
  flat_map (fun r =>
    map (fun c =>
           (fadd left (fmul (of_int c) (fadd img_w_in hspace_in)),
            fadd top (fmul (of_int r) (fadd img_h_in vspace_in))))
        (indices cols))
    (indices rows).

(** ** HPLC/make_hplc_pptx.py *)

(** The sizes [build_pptx] computes before its loop (lines 71-97), in inches. *)
Record grid := {
  hspace_in : F;
  vspace_in : F;
  fit_w : F;
  fit_h : F;
  margin_h : F;
  margin_v : F
}.

Definition build_grid (per_row per_col : Z) (hspace_fixed vspace_fixed : option F)
  (slide_w_in slide_h_in : F) : result grid :=
  let target_ratio := fdiv (of_dec 1.8) (of_dec 1.5) in
  let base_margin_h : F := of_dec 0.25 in
  let base_margin_v : F := of_dec 0.25 in
  let hspace_in := match hspace_fixed with
                   | Some h => if 1 <? per_row then py_max (of_dec 0.0) h else of_dec 0.0
                   | None => of_dec 0.0
                   end in
  let vspace_in := match vspace_fixed with
                   | Some v => if 1 <? per_col then py_max (of_dec 0.0) v else of_dec 0.05
                   | None => of_dec 0.05
                   end in
  let total_hspace := if 1 <? per_row then fmul (of_int (per_row - 1)) hspace_in
                      else of_dec 0.0 in
  let total_vspace := if 1 <? per_col then fmul (of_int (per_col - 1)) vspace_in
                      else of_dec 0.0 in
  let avail_w := fsub (fsub slide_w_in (fmul (of_int 2) base_margin_h)) total_hspace in
  let avail_h := fsub (fsub slide_h_in (fmul (of_int 2) base_margin_v)) total_vspace in
  do slot_w <- float_div_int avail_w per_row;
  do slot_h <- float_div_int avail_h per_col;
  let fit_w := py_min slot_w (fmul slot_h target_ratio) in
  let fit_h := fdiv fit_w target_ratio in
  let grid_w := fadd (fmul (of_int per_row) fit_w) total_hspace in
  let grid_h := fadd (fmul (of_int per_col) fit_h) total_vspace in
  let margin_h := py_max (of_dec 0.0) (fdiv (fsub slide_w_in grid_w) (of_int 2)) in
  let margin_v := py_max (of_dec 0.0) (fdiv (fsub slide_h_in grid_h) (of_int 2)) in
  Ok {| hspace_in := hspace_in; vspace_in := vspace_in;
        fit_w := fit_w; fit_h := fit_h;
        margin_h := margin_h; margin_v := margin_v |}.

(** The loop state of [build_pptx]: the slides already left behind, the
    current [slide], and the cursor [r], [c]. *)
Record cursor := {
  finished : list slide;
  current : slide;
  r : Z;
  c : Z
}.

(** One iteration of the loop, lines 105-120. *)
Definition place_image (g : grid) (per_row per_col n_imgs : Z) (st : cursor)
  (idx : Z) (img : str) : result cursor :=
  let col_idx := c st in
  let row_idx := r st in
  let img_left := fadd (margin_h g) (fmul (of_int col_idx) (fadd (fit_w g) (hspace_in g))) in
  let img_top := fadd (margin_v g) (fmul (of_int row_idx) (fadd (fit_h g) (vspace_in g))) in
  do left <- Inches img_left;
  do top <- Inches img_top;
  do width <- Inches (fit_w g);
  do height <- Inches (fit_h g);
  let sl := current st ++ [Picture img left top width height] in
  let c1 := c st + 1 in
  if per_row <=? c1 then
    let r1 := r st + 1 in
    if (per_col <=? r1) && (idx <? n_imgs - 1)
    then Ok {| finished := finished st ++ [sl]; current := []; r := 0; c := 0 |}
    else Ok {| finished := finished st; current := sl; r := r1; c := 0 |}
  else Ok {| finished := finished st; current := sl; r := r st; c := c1 |}.

Fixpoint place_images (g : grid) (per_row per_col n_imgs : Z) (st : cursor)
  (idx : Z) (imgs : list str) : result cursor :=
  match imgs with
  | [] => Ok st
  | img :: rest =>
      do st' <- place_image g per_row per_col n_imgs st idx img;
      place_images g per_row per_col n_imgs st' (idx + 1) rest
  end.

(** Lines 63-122: the slides of the deck that is saved. *)
Definition build_pptx (imgs : list str) (per_row per_col : Z)
  (hspace_fixed vspace_fixed : option F) (slide_w_in slide_h_in : F)
  : result (list slide) :=
  do g <- build_grid per_row per_col hspace_fixed vspace_fixed slide_w_in slide_h_in;
  let st := {| finished := []; current := []; r := 0; c := 0 |} in
  do st' <- place_images g per_row per_col (Z.of_nat (length imgs)) st 0 imgs;
  Ok (finished st' ++ [current st']).

End WithFloat.
End Deck.

(* ===================================================================== *)
(** * Part V: notions used in the statements *)
(* ===================================================================== *)

Module Notions.
Import Str Matcher Py Deck.

(** What Python's lowercase mapping does to the code points beyond ASCII, as
    far as the normaliser can tell: a lowercased code point is stable, and no
    code point becomes a blank, a zero-width character, a space, a
    parenthesis or an underscore. *)
Class LowerLaws (U : Unicode) : Prop := {
  lower_stable : forall c, (128 <= c)%N -> lower_cp (unicode_lower c) = unicode_lower c;
  lower_space : forall c, (128 <= c)%N -> isspace c = false ->
                isspace (unicode_lower c) = false;
  lower_zero_width : forall c, (128 <= c)%N -> is_zero_width c = false ->
                     is_zero_width (unicode_lower c) = false;
  lower_delim : forall c, (128 <= c)%N ->
                unicode_lower c <> cp_space /\ unicode_lower c <> cp_lparen
                /\ unicode_lower c <> cp_rparen /\ unicode_lower c <> cp_underscore
}.

(** The scan of [re_sub_paren] with [_paren_fix] as one pass: [inside] tells
    whether the current position lies in a match. *)
Definition fix_sep (c : N) : N := if (c =? cp_underscore)%N then cp_slash else c.

Fixpoint paren_scan (inside : bool) (s : str) : str :=
  match s with
  | [] => []
  | c :: r =>
      if inside then
        if (c =? cp_rparen)%N then c :: paren_scan false r
        else fix_sep c :: paren_scan true r
      else if (c =? cp_lparen)%N && existsb (fun d => (d =? cp_rparen)%N) r
           then c :: paren_scan true r
           else c :: paren_scan false r
  end.

(** [y] is [x] with one space (U+0020) taken out. *)
Inductive space_step : str -> str -> Prop :=
| space_step_intro (a b : str) :
    space_step (a ++ cp_space :: b) (a ++ b).

(** [y] is [x] with one underscore turned into a slash, between an opening
    parenthesis and the next closing one. *)
Inductive sep_step : str -> str -> Prop :=
| sep_step_intro (a m1 m2 b : str) :
    cp_rparen ∉ m1 -> cp_rparen ∉ m2 ->
    sep_step (a ++ cp_lparen :: m1 ++ cp_underscore :: m2 ++ cp_rparen :: b)
             (a ++ cp_lparen :: m1 ++ cp_slash :: m2 ++ cp_rparen :: b).

(** Two raw strings differ only in spaces, or only in such separators. *)
Definition differ_in_spaces : str -> str -> Prop := rtsc space_step.
Definition differ_in_separators : str -> str -> Prop := rtsc sep_step.

(** A name the display cleaning of [_clean_construct_name] leaves alone. *)
Definition is_clean (x : str) : Prop :=
  strip_hplc_prefix x = x /\ strip x = x /\ strip_by (in_chars (lit "-:")) x = x.

(** The ends of a string that a strip leaves alone. *)
Definition head_ok (p : N -> bool) (s : str) : Prop :=
  match s with [] => True | c :: _ => p c = false end.

Definition ends_ok (p : N -> bool) (s : str) : Prop :=
  head_ok p s /\ head_ok p (reverse s).

(** What the scan of the groups may do to one code point. *)
Definition sep_rel (a b : N) : Prop := b = a \/ b = fix_sep a.

Definition not_zero_width (c : N) : Prop := is_zero_width c = false.
Definition not_space (c : N) : Prop := c <> cp_space.

(** The normaliser before lowercasing, as filters and one scan. *)
Definition core (x : str) : str :=
  paren_scan false (filter not_space (strip (filter not_zero_width x))).

Section WithTables.
Context {U : Unicode}.

(** Every image of the map sits under its own key. *)
Definition keyed (m : gmap (list N) Path) : Prop :=
  forall k p, m !! k = Some p -> key_of p = k.

(** The invariant of the ordering: no image twice, every emitted image has
    its key in [seen_keys], and every seen key of the map has its image
    emitted. *)
Record inv (m : gmap (list N) Path) (st : order_state) : Prop := {
  inv_nodup : NoDup (ordered_imgs st);
  inv_seen : forall p, p ∈ ordered_imgs st -> key_of p ∈ seen_keys st;
  inv_emitted : forall k p, k ∈ seen_keys st -> m !! k = Some p ->
                p ∈ ordered_imgs st
}.

(** The ordering only ever appends. *)
Definition grows (st st' : order_state) : Prop :=
  ordered_imgs st `prefix_of` ordered_imgs st' /\ seen_keys st ⊆ seen_keys st'.

End WithTables.

(** The ceiling of [n / d] on integers, as [math.ceil(n / d)] has it. *)
Definition ceil_div (n d : Z) : Z := (n + d - 1) / d.

(** The state of the loop of [build_pptx] after the images [done], out of
    [n]. *)
Record placed (per_row per_col n : Z) (done : list str) (st : cursor) : Prop := {
  placed_pictures :
    concat (map pictures (finished st)) ++ pictures (current st) = done;
  placed_full :
    Forall (fun sl => Z.of_nat (length (pictures sl)) = per_row * per_col)
           (finished st);
  placed_current :
    Z.of_nat (length (pictures (current st))) = r st * per_row + c st;
  placed_c : 0 <= c st < per_row;
  placed_r : 0 <= r st <= per_col;
  placed_room : r st = per_col -> c st = 0 /\ Z.of_nat (length done) = n;
  placed_fresh : pictures (current st) = [] ->
                 done = [] \/ Z.of_nat (length done) < n
}.

(** Sample data: an empty deck of a given size in EMU, an image file of a
    given native size in EMU, and [n] images of 1950 by 1500 pixels at
    300 dpi named A, B, C and so on. *)
Definition deck (w h : Z) : Presentation :=
  {| slide_width := w; slide_height := h; slides := [] |}.

Definition image (name : str) (w h : Z) : item :=
  {| title := name; path := name ++ lit ".png";
     native_width := w; native_height := h |}.

Definition images (n : nat) : list item :=
  map (fun i => image [N.of_nat (65 + i)] 5943600 4572000) (seq 0 n).

Definition png (name : str) : Path := {| stem := name; suffix := lit ".png" |}.

(** How many pictures each slide holds. *)
Definition picture_counts (sls : list slide) : list nat :=
  map (fun sl => length (pictures sl)) sls.

End Notions.

(* ===================================================================== *)
(** * Part V, continued: further functions of the scripts *)
(* ===================================================================== *)

Module Names.
Import Str Matcher.

(** ** HPLC/plot_hplc.py: the file a chromatogram is saved to *)

(** The characters the pattern of line 456 leaves alone: ASCII letters
    and digits, the dot, the underscore and the hyphen. *)
Definition is_safe_char (c : N) : bool :=
  is_ascii_upper c || is_ascii_lower c || is_ascii_digit c
  || (c =? 46)%N || (c =? cp_underscore)%N || (c =? cp_minus)%N.

(** Line 456: [re.sub] of every other character by an underscore, one by
    one. *)
Definition safe_name (s : str) : str :=
  map (fun c => if is_safe_char c then c else cp_underscore) s.

(** Lines 412 and 452-457: the path of the picture of the column [col], as
    [collect_images] of make_hplc_pptx.py reads it back from the folder:
    the stem is the file name up to its last dot. *)
Definition chrom_png (col : str) : Path :=
  let raw_name_clean := _clean_construct_name col in
  let filename_base :=
    if endswith col p3distinct then raw_name_clean ++ p3distinct
    else raw_name_clean in
  {| stem := safe_name filename_base ++ lit "_chrom"; suffix := lit ".png" |}.

(** ** The shape of a key *)

(** The characters [_norm_name] keeps as they are: word characters other
    than the underscore, and the hyphen. *)
Definition is_token `{Unicode} (c : N) : bool :=
  (is_word c && negb (c =? cp_underscore)%N) || (c =? cp_minus)%N.

(** One pass over a name: the maximal runs of token characters, joined by
    single underscores.  The state tells whether a token has been seen, and
    whether other characters have been passed since. *)
Inductive jstate := Start | Inside | Pending.

Definition after_sep (st : jstate) : jstate :=
  match st with Start => Start | _ => Pending end.

Fixpoint join_tokens `{Unicode} (st : jstate) (s : str) : str :=
  match s with
  | [] => []
  | c :: r =>
      if is_token c
      then match st with
           | Pending => cp_underscore :: c :: join_tokens Inside r
           | _ => c :: join_tokens Inside r
           end
      else join_tokens (after_sep st) r
  end.

(** [a] immediately followed by [b] somewhere in [s]. *)
Definition adjacent (a b : N) (s : str) : Prop :=
  exists l r, s = l ++ a :: b :: r.

(** Every alphanumeric character of the name is an ASCII one. *)
Definition ascii_words `{Unicode} (x : str) : Prop :=
  Forall (fun c => (c < 128)%N \/ unicode_isalnum c = false) x.

(** No alphanumeric character beyond ASCII is whitespace. *)
Class WordLaws (U : Unicode) : Prop := {
  alnum_not_space : forall c, (128 <= c)%N -> unicode_isalnum c = true ->
                    isspace c = false
}.

(** Letter case does not touch whitespace or the zero-width characters. *)
Class CaseLaws (U : Unicode) : Prop := {
  lower_of_space : forall c, (128 <= c)%N -> isspace c = true -> unicode_lower c = c;
  lower_of_zero_width : forall c, (128 <= c)%N -> is_zero_width c = true ->
                        unicode_lower c = c
}.

(** ** The order of the images *)

(** What the ordering of [main] keeps: every emitted image is one of the
    folder, no two emitted images share a key, and [seen_keys] holds the
    keys of the emitted images and no other. *)
Record tidy `{Unicode} (imgs : list Path) (st : order_state) : Prop := {
  tidy_from : forall p, p ∈ ordered_imgs st -> p ∈ imgs;
  tidy_keys : NoDup (key_of <$> ordered_imgs st);
  tidy_seen : forall k, k ∈ seen_keys st <-> k ∈ key_of <$> ordered_imgs st
}.

End Names.

Module Peaks.

(** ** HPLC/plot_hplc.py, [_peak_metrics]: the peaks of a trace *)

(** Lines 208-210: the inner loop, which moves [j] to the end of the run of
    true entries that holds it.  [None] is an index out of range (or the
    fuel used up). *)
Fixpoint extend (fuel : nat) (mask : list bool) (n j : nat) : option nat :=
  match fuel with
  | O => None
  | S fuel' =>
      if (j + 1 <? n)%nat
      then match mask !! (j + 1)%nat with
           | None => None
           | Some true => extend fuel' mask n (j + 1)
           | Some false => Some j
           end
      else Some j
  end.

(** Lines 206-214: the outer loop from the index [i] on. *)
Fixpoint segments_from (fuel : nat) (mask : list bool) (n i : nat)
  : option (list (nat * nat)) :=
  match fuel with
  | O => None
  | S fuel' =>
      if (i <? n)%nat
      then match mask !! i with
           | None => None
           | Some true =>
               match extend n mask n i with
               | None => None
               | Some j =>
                   match segments_from fuel' mask n (j + 1) with
                   | None => None
                   | Some segs => Some ((i, j) :: segs)
                   end
               end
           | Some false => segments_from fuel' mask n (i + 1)
           end
      else Some []
  end.

(** Lines 203-214, with [n = len(y)], the length of the mask. *)
Definition segments (mask : list bool) : option (list (nat * nat)) :=
  segments_from (S (length mask)) mask (length mask) 0.

(** Segments in increasing order, each from [lo] on, with at least one
    index between two of them. *)
Fixpoint separated (lo : nat) (segs : list (nat * nat)) : Prop :=
  match segs with
  | [] => True
  | (a, b) :: rest => (lo <= a)%nat /\ (a <= b)%nat /\ separated (b + 2) rest
  end.

(** The segment from [a] to [b] is a maximal run of true entries. *)
Definition is_run (mask : list bool) (seg : nat * nat) : Prop :=
  let '(a, b) := seg in
  (a <= b < length mask)%nat
  /\ (forall k, (a <= k <= b)%nat -> mask !! k = Some true)
  /\ (a = 0%nat \/ mask !! (a - 1)%nat = Some false)
  /\ mask !! (b + 1)%nat <> Some true.

End Peaks.

Module Stems.
Import Str Names.

(** ** MALDI/plot_maldi_constructs.py, [safe_stem] *)

(** The two functions of [unicodedata] that [safe_stem] calls; they are not
    part of the repository. *)
Class Unicodedata := {
  nfkd : str -> str;
  combining : N -> Z
}.

(** Lines 52-65. *)
Definition safe_stem `{Unicodedata} (name : str) : str :=
  let norm := nfkd name in
  let norm := filter (fun ch => combining ch = 0) norm in
  let cleaned := sub_runs (fun c => negb (is_safe_char c)) (lit "_") false norm in
  let cleaned := strip_by (in_chars (lit "._ "))
                   (sub_runs (fun c => (c =? cp_underscore)%N) (lit "_") false cleaned) in
  if decide (cleaned = []) then lit "plot" else cleaned.

(** Neither function touches a name of safe characters. *)
Class StemLaws (D : Unicodedata) : Prop := {
  nfkd_safe : forall s, Forall (fun c => is_safe_char c = true) s -> nfkd s = s;
  combining_safe : forall c, is_safe_char c = true -> combining c = 0
}.

(** Tables for names in ASCII: nothing decomposes and nothing combines. *)
Definition ascii_data : Unicodedata :=
  {| nfkd := fun s => s; combining := fun _ => 0 |}.

End Stems.

Module Tht.
Import Str Py Deck.

(** ** THT/add_images_to_ppt.py *)

Section WithFloat.
Context {F : Type} {FL : PyFloat F}.

(** Lines 17-40: one picture on a slide of its own, scaled down when it is
    larger than 9 by 5.5 inches. *)
Definition add_image_slide (prs : Presentation) (it : item) : result Presentation :=
  do left_margin <- Inches (of_dec 0.5);
  do top_margin <- Inches (of_dec 0.5);
  do max_width <- Inches (of_int 9);
  do max_height <- Inches (of_dec 5.5);
  let pic_width := native_width it in
  let pic_height := native_height it in
  do size <- (if (max_width <? pic_width) || (max_height <? pic_height)
              then
                do scale_w <- int_truediv max_width pic_width;
                do scale_h <- int_truediv max_height pic_height;
                let scale := py_min scale_w scale_h in
                do new_w <- to_int (fmul (of_int pic_width) scale);
                do new_h <- to_int (fmul (of_int pic_height) scale);
                Ok (new_w, new_h)
              else Ok (pic_width, pic_height));
  do left <- to_int (fdiv (of_int (slide_width prs - fst size)) (of_int 2));
  Ok (add_slide prs [Picture (path it) left top_margin (fst size) (snd size)]).

(** ** [main], lines 278-325, from the collected list [others] on *)

Definition last_titles : list str :=
  [lit "Unlipidated ASL"; lit "Unlipidated LGA"; lit "V30"; lit "m-V30"; lit "PBS"].

(** [re.fullmatch] of three ASCII letters. *)
Definition three_letters (t : str) : bool :=
  match t with
  | [a; b; c] =>
      forallb (fun x => is_ascii_upper x || is_ascii_lower x) [a; b; c]
  | _ => false
  end.

(** Equality of the tuples [(title, path)]. *)
Definition same_entry (a b : item) : bool :=
  bool_decide (title a = title b) && bool_decide (path a = path b).

(** [a <= b] on strings: code point by code point. *)
Fixpoint str_le (a b : str) : bool :=
  match a, b with
  | [], _ => true
  | _ :: _, [] => false
  | x :: a', y :: b' => (x <? y)%N || ((x =? y)%N && str_le a' b')
  end.

(** [list.sort(key=lambda x: x[0])]: the stable sort by title, as an
    insertion sort that puts an entry before the first one whose title is
    not smaller. *)
Fixpoint insert_by_title (x : item) (l : list item) : list item :=
  match l with
  | [] => [x]
  | y :: r => if str_le (title x) (title y) then x :: l
              else y :: insert_by_title x r
  end.

Definition sort_by_title (l : list item) : list item :=
  foldr insert_by_title [] l.

(** Titles in non-decreasing order. *)
Fixpoint titles_sorted (l : list item) : Prop :=
  match l with
  | [] => True
  | x :: r => Forall (fun y => str_le (title x) (title y) = true) r /\ titles_sorted r
  end.

(** The call of lines 286-299, repeated at lines 302-312 and 315-325;
    [hspace_in] is the int 0. *)
Definition add_batch (prs : Presentation) (items : list item) : result Presentation :=
  match items with
  | [] => Ok prs
  | _ :: _ =>
      add_fill_grid_slides_no_captions_paginated prs items 8 18
        (of_dec 0.05) (of_int 0) (of_dec 0.05) (lit "row")
  end.

Definition main_groups (others : list item) : list item * list item * list item :=
  let last_items := filter (fun it => title it ∈ last_titles) others in
  let main_items := filter (fun it => title it ∉ last_titles) others in
  let three_letter := filter (fun it => three_letters (title it) = true) main_items in
  let remaining :=
    filter (fun it => existsb (same_entry it) three_letter = false) main_items in
  (three_letter, remaining, last_items).

Definition main_slides (prs : Presentation) (others : list item) : result Presentation :=
  let '(three_letter, remaining, last_items) := main_groups others in
  do prs <- add_batch prs (sort_by_title three_letter);
  do prs <- add_batch prs remaining;
  add_batch prs last_items.

End WithFloat.

(** A picture of non-negative size that keeps the distance [margin] from
    the four edges of the slide. *)
Definition within (prs : Presentation) (margin : Z) (s : shape) : Prop :=
  match s with
  | Picture _ x y width height =>
      0 <= width /\ 0 <= height
      /\ margin <= x /\ x + width <= slide_width prs - margin
      /\ margin <= y /\ y + height <= slide_height prs - margin
  | TextBox _ _ _ _ _ _ => True
  end.

End Tht.

Module Cells.
Import Str Py Deck.

(** ** HPLC/make_hplc_pptx.py, [build_pptx]: the picture of a cell *)

Section WithFloat.
Context {F : Type} {FL : PyFloat F}.

(** Lines 109-113 for the cell in row [row_idx] and column [col_idx]. *)
Definition picture_at (g : grid) (row_idx col_idx : Z) (img : str) : result shape :=
  let img_left := fadd (margin_h g) (fmul (of_int col_idx) (fadd (fit_w g) (hspace_in g))) in
  let img_top := fadd (margin_v g) (fmul (of_int row_idx) (fadd (fit_h g) (vspace_in g))) in
  do left <- Inches img_left;
  do top <- Inches img_top;
  do width <- Inches (fit_w g);
  do height <- Inches (fit_h g);
  Ok (Picture img left top width height).

(** A slide filled row by row: its shapes are pictures, the one at index
    [j] in the cell of row [j // per_row] and column [j % per_row], and no
    row lies beyond [per_col]. *)
Definition row_major (g : grid) (per_row per_col : Z) (sl : slide) : Prop :=
  Z.of_nat (length sl) <= per_row * per_col
  /\ forall (j : nat) (s : shape),
       sl !! j = Some s ->
       exists img,
         picture_at g (Z.of_nat j / per_row) (Z.of_nat j mod per_row) img = Ok s.

(** What the loop of [build_pptx] keeps: slides filled row by row, and the
    cursor at the cell after the last picture. *)
Definition filled (g : grid) (per_row per_col : Z) (st : cursor) : Prop :=
  Forall (row_major g per_row per_col) (finished st)
  /\ row_major g per_row per_col (current st)
  /\ Z.of_nat (length (current st)) = r st * per_row + c st.

End WithFloat.
End Cells.

Module Maldi.
Import Str Py Deck Tht.

(** ** MALDI/make_maldi_ppt.py, [main] *)

(** *** [os.path], as on POSIX *)

Definition cp_dot : N := 46.

(** The parts of [s] before and after the last [c], when [c] occurs. *)
Fixpoint rsplit_at (c : N) (s : str) : option (str * str) :=
  match s with
  | [] => None
  | x :: s' =>
      match rsplit_at c s' with
      | Some (a, b) => Some (x :: a, b)
      | None => if (x =? c)%N then Some ([], s') else None
      end
  end.

(** [os.path.basename(p)]: what follows the last slash. *)
Definition basename (p : str) : str :=
  match rsplit_at cp_slash p with
  | Some (_, b) => b
  | None => p
  end.

(** [os.path.splitext(p)]: the extension starts at the last dot of the last
    component, unless only dots come before it in that component. *)
Definition splitext (p : str) : str * str :=
  let '(head, tail) := match rsplit_at cp_slash p with
                       | Some (a, b) => (a ++ [cp_slash], b)
                       | None => ([], p)
                       end in
  match rsplit_at cp_dot tail with
  | Some (root, ext) =>
      if forallb (fun ch => (ch =? cp_dot)%N) root then (p, [])
      else (head ++ root, cp_dot :: ext)
  | None => (p, [])
  end.

(** [os.path.join(a, b)]. *)
Definition join (a b : str) : str :=
  if startswith [cp_slash] b then b
  else if decide (a = []) then b
  else if endswith a [cp_slash] then a ++ b
  else a ++ cp_slash :: b.

(** *** Constants, lines 7-31 *)

Definition IMAGES_DIR : str := lit "plots-MALDI".
Definition COLS : Z := 4.
Definition ROWS : Z := 4.

(** The third name holds U+2206. *)
Definition NEW_CONSTRUCTS : list str :=
  [lit "N15_V30"; lit "N15_linker_V30"; lit "N15_" ++ 8710%N :: lit "SAA";
   lit "N15_SAA"; lit "N15_SAL"].

Definition FORCE_LAST : list str := [lit "N15_dnmt_SAA"].

(** *** What [main] raises *)

Inductive raised :=
| SystemExit (msg : str)
| IndexError
| Arithmetic (e : error).

Inductive outcome (A : Type) : Type :=
| Returns (a : A)
| Raises (e : raised).
Arguments Returns {A} a.
Arguments Raises {A} e.

Definition and_then {A B} (m : outcome A) (k : A -> outcome B) : outcome B :=
  match m with
  | Returns a => k a
  | Raises e => Raises e
  end.

Definition lift {A} (m : result A) : outcome A :=
  match m with
  | Ok a => Returns a
  | Raise e => Raises (Arithmetic e)
  end.

Notation "'let*' x ':=' m 'in' k" := (and_then m (fun x => k))
  (at level 10, x name, m at level 100, k at level 200, only parsing).

(** [sorted(...)] on strings: by code points, as an insertion sort. *)
Fixpoint insert_name (x : str) (l : list str) : list str :=
  match l with
  | [] => [x]
  | y :: r => if str_le x y then x :: l else y :: insert_name x r
  end.

Definition sorted (l : list str) : list str := foldr insert_name [] l.

(** The arguments of one [add_picture] call of lines 112, 122 and 131; no
    height is given. *)
Record picture := {
  image_file : str;
  pic_left : Z;
  pic_top : Z;
  pic_width : Z
}.

(** The three lists of lines 87-89. *)
Record groups := {
  images_new : list str;
  images_main : list str;
  images_force_last : list str
}.

(** Lines 91-98, one file name. *)
Definition classify (st : groups) (fname : str) : groups :=
  let new_set : gset str := list_to_set NEW_CONSTRUCTS in
  let force_last_set : gset str := list_to_set FORCE_LAST in
  let '(stem, ext) := splitext fname in
  let path := join IMAGES_DIR fname in
  if decide (stem ∈ force_last_set) then
    {| images_new := images_new st; images_main := images_main st;
       images_force_last := images_force_last st ++ [path] |}
  else if decide (stem ∈ new_set) then
    {| images_new := images_new st ++ [path]; images_main := images_main st;
       images_force_last := images_force_last st |}
  else
    {| images_new := images_new st; images_main := images_main st ++ [path];
       images_force_last := images_force_last st |}.

(** Lines 116-117 and 125-126: the dict from stem to path, a later path
    replacing an earlier one, and the paths of the declared names it has. *)
Definition stem_to_path (paths : list str) : gmap str str :=
  foldl (fun m p => <[(splitext (basename p)).1 := p]> m) ∅ paths.

Definition ordered (declared : list str) (paths : list str) : list str :=
  omap (fun s => stem_to_path paths !! s) declared.

Section WithFloat.
Context {F : Type} {FL : PyFloat F} {U : Unicode}.

Definition IMG_W_IN : F := of_dec 1.96.
Definition HSPACE_IN : F := of_dec 0.05.
Definition VSPACE_IN : F := of_dec 0.2.

(** Line 83. *)
Definition is_image (f : str) : bool :=
  endswith (lower f) (lit ".png") || endswith (lower f) (lit ".jpg")
  || endswith (lower f) (lit ".jpeg").

(** Lines 110-112, from index [j] on. *)
Fixpoint add_pictures (positions : list (F * F)) (j : nat) (imgs : list str)
  : outcome (list picture) :=
  match imgs with
  | [] => Returns []
  | img_path :: rest =>
      match positions !! j with
      | None => Raises IndexError
      | Some (x_in, y_in) =>
          let* x := lift (Inches x_in) in
          let* y := lift (Inches y_in) in
          let* w := lift (Inches IMG_W_IN) in
          let* ps := add_pictures positions (S j) rest in
          Returns ({| image_file := img_path; pic_left := x; pic_top := y;
                      pic_width := w |} :: ps)
      end
  end.

(** Lines 108-112: one slide for each start index. *)
Fixpoint add_slides_at (positions : list (F * F)) (n_per_slide : Z)
  (images : list str) (slides : list (list picture)) (starts : list Z)
  : outcome (list (list picture)) :=
  match starts with
  | [] => Returns slides
  | i :: rest =>
      let* ps := add_pictures positions 0 (slice i (i + n_per_slide) images) in
      add_slides_at positions n_per_slide images (slides ++ [ps]) rest
  end.

Definition add_slides (positions : list (F * F)) (n_per_slide : Z)
  (slides : list (list picture)) (images : list str)
  : outcome (list (list picture)) :=
  let* starts := lift (range 0 (Z.of_nat (length images)) n_per_slide) in
  add_slides_at positions n_per_slide images slides starts.

Definition not_found : str :=
  lit "Images directory '" ++ IMAGES_DIR ++ lit "' not found".
Definition no_images : str :=
  lit "No images found in '" ++ IMAGES_DIR ++ lit "'".

(** Lines 75-77: the positions of the cells. *)
Definition main_positions (page_w_in page_h_in : F) : list (F * F) :=
  let img_h_in := fmul IMG_W_IN (fdiv (of_dec 5.0) (of_dec 6.0)) in
  grid_positions ROWS COLS IMG_W_IN img_h_in HSPACE_IN VSPACE_IN page_w_in page_h_in
    (of_dec 0.5).

(** Lines 67-131: the slides of the deck that is saved. [listing] is
    [os.listdir(IMAGES_DIR)], or [None] when the directory does not exist;
    [page_w_in] and [page_h_in] are the size of a new presentation. *)
Definition main (page_w_in page_h_in : F) (listing : option (list str))
  : outcome (list (list picture)) :=
  let positions := main_positions page_w_in page_h_in in
  match listing with
  | None => Raises (SystemExit not_found)
  | Some names =>
      let all_files := filter (fun f => is_image f = true) names in
      let st := foldl classify
                  {| images_new := []; images_main := []; images_force_last := [] |}
                  (sorted all_files) in
      if decide (images_main st = [] /\ images_new st = []) then
        Raises (SystemExit no_images)
      else
        let n_per_slide := ROWS * COLS in
        let* slides := add_slides positions n_per_slide [] (images_main st) in
        let ordered_new := ordered NEW_CONSTRUCTS (images_new st) in
        let* slides := add_slides positions n_per_slide slides ordered_new in
        let ordered_last := ordered FORCE_LAST (images_force_last st) in
        add_slides positions n_per_slide slides ordered_last
  end.

(** The stem of a file name, and the image files that are neither a new
    construct nor forced to the end. *)
Definition stem_of (f : str) : str := (splitext f).1.

Definition is_main (f : str) : Prop :=
  is_image f = true /\ (stem_of f ∉ FORCE_LAST) /\ (stem_of f ∉ NEW_CONSTRUCTS).

(** A slide whose pictures sit, in order, at the first positions of the
    grid, with the width of line 13. *)
Definition at_positions (positions : list (F * F)) (sl : list picture) : Prop :=
  forall (k : nat) (p : picture),
    sl !! k = Some p ->
    exists x_in y_in,
      positions !! k = Some (x_in, y_in)
      /\ Inches x_in = Ok (pic_left p)
      /\ Inches y_in = Ok (pic_top p)
      /\ Inches IMG_W_IN = Ok (pic_width p).

End WithFloat.

(** The image files of a deck, slide by slide. *)
Definition files (sls : list (list picture)) : list str :=
  concat (map (map image_file) sls).

(** For each declared name with a file of that stem, the last such file. *)
Definition chosen (declared : list str) (fs : list str) : list str :=
  omap (fun s => last (filter (fun f => stem_of f = s) fs)) declared.

(** A file name as [os.listdir] gives it: without a slash. *)
Definition plain (f : str) : Prop := cp_slash ∉ f.

(** Names in non-decreasing order. *)
Fixpoint names_sorted (l : list str) : Prop :=
  match l with
  | [] => True
  | x :: r => Forall (fun y => str_le x y = true) r /\ names_sorted r
  end.

End Maldi.

(* ===================================================================== *)
(** * Part VI: facts about the definitions *)
(* ===================================================================== *)

Module StrFacts.
Import Str Notions.

Lemma replace_char_map (c d : N) (s : str) :
  replace [c] [d] s = map (fun x => if (c =? x)%N then d else x) s.
Proof.
  unfold replace. induction s as [|x r IH]; [done|].
  cbn [replace_from startswith map length].
  destruct (c =? x)%N; cbn; by rewrite IH.
Qed.

Lemma replace_char_del (c : N) (s : str) :
  replace [c] [] s = filter (fun x => x <> c) s.
Proof.
  unfold replace. induction s as [|x r IH]; [done|].
  cbn [replace_from startswith length].
  rewrite filter_cons, <- IH.
  destruct (N.eqb_spec c x) as [->|Hne]; destruct (decide _) as [Hd|Hd];
    cbn; try done; congruence.
Qed.

Lemma break_at_Some d r inner rest :
  break_at d r = Some (inner, rest) -> r = inner ++ d :: rest /\ d ∉ inner.
Proof.
  revert inner rest. induction r as [|c r IH]; intros inner rest; cbn; [done|].
  destruct (N.eqb_spec c d) as [->|Hne].
  - intros [= <- <-]. split; [done|]. apply not_elem_of_nil.
  - destruct (break_at d r) as [[i' r']|]; [|done].
    intros [= <- <-]. destruct (IH _ _ eq_refl) as [-> Hni].
    split; [done|]. rewrite not_elem_of_cons. split; [congruence|done].
Qed.

Lemma break_at_None d r :
  break_at d r = None -> existsb (fun x => (x =? d)%N) r = false.
Proof.
  induction r as [|c r IH]; cbn; [done|].
  destruct (c =? d)%N; [done|].
  destruct (break_at d r) as [[i' r']|]; [done|]. intros _. by apply IH.
Qed.

Lemma existsb_app_mid d (inner rest : str) :
  existsb (fun x => (x =? d)%N) (inner ++ d :: rest) = true.
Proof.
  rewrite existsb_app. cbn. rewrite N.eqb_refl. by rewrite orb_true_r.
Qed.

Lemma paren_scan_inside (m r : str) :
  cp_rparen ∉ m ->
  paren_scan true (m ++ r) = map fix_sep m ++ paren_scan true r.
Proof.
  induction m as [|c m IH]; intros Hni; [done|].
  apply not_elem_of_cons in Hni as [Hc Hm].
  cbn. destruct (N.eqb_spec c cp_rparen); [congruence|].
  by rewrite IH.
Qed.

Lemma fix_sep_map (s : str) :
  replace (lit "_") (lit "/") s = map fix_sep s.
Proof.
  change (lit "_") with [cp_underscore]. change (lit "/") with [cp_slash].
  rewrite replace_char_map. apply map_ext. intros x. unfold fix_sep.
  by rewrite N.eqb_sym.
Qed.

Lemma re_sub_paren_scan (fuel : nat) (s : str) :
  (length s <= fuel)%nat ->
  re_sub_paren fuel _paren_fix s = paren_scan false s.
Proof.
  revert s. induction fuel as [|fuel IH]; intros s Hlen.
  - destruct s; [done|cbn in Hlen; lia].
  - destruct s as [|c r]; [done|]. cbn in Hlen.
    cbn [re_sub_paren paren_scan].
    destruct (c =? cp_lparen)%N eqn:Hc; cbn [andb].
    + destruct (break_at cp_rparen r) as [[inner rest]|] eqn:Hb.
      * apply break_at_Some in Hb as [-> Hni].
        rewrite existsb_app_mid.
        rewrite paren_scan_inside by done. cbn [paren_scan].
        rewrite N.eqb_refl.
        rewrite IH by (rewrite length_app in Hlen; cbn in Hlen; lia).
        unfold _paren_fix. rewrite fix_sep_map.
        apply N.eqb_eq in Hc. subst c. cbn. by rewrite <- app_assoc.
      * rewrite (break_at_None _ _ Hb). rewrite IH by lia. done.
    + rewrite IH by lia. done.
Qed.


(** ** Ends of a string *)

Lemma drop_while_head_ok p s : head_ok p s -> drop_while p s = s.
Proof. destruct s as [|c r]; cbn; [done|]. by intros ->. Qed.

Lemma head_ok_drop_while p s : head_ok p (drop_while p s).
Proof.
  induction s as [|c r IH]; cbn; [done|].
  destruct (p c) eqn:Hc; [done|]. cbn. done.
Qed.

Lemma drop_while_app_keep p l c r :
  p c = false -> drop_while p (l ++ c :: r) = drop_while p l ++ c :: r.
Proof.
  intros Hc. induction l as [|x l IH]; cbn; [by rewrite Hc|].
  destruct (p x); [done|]. done.
Qed.

Lemma strip_by_fixed p s : ends_ok p s -> strip_by p s = s.
Proof.
  intros [Hh Hl]. unfold strip_by, rstrip_by, lstrip_by.
  rewrite (drop_while_head_ok _ _ Hh), (drop_while_head_ok _ _ Hl).
  apply reverse_involutive.
Qed.

Lemma strip_by_ends_ok p s : ends_ok p (strip_by p s).
Proof.
  unfold strip_by, rstrip_by, lstrip_by. split.
  - pose proof (head_ok_drop_while p s) as Hu.
    destruct (drop_while p s) as [|c u]; [done|]. cbn in Hu.
    rewrite reverse_cons, (drop_while_app_keep _ _ _ _ Hu).
    rewrite reverse_app. cbn. done.
  - rewrite reverse_involutive. apply head_ok_drop_while.
Qed.

(** A relation between the characters of two strings, position by position. *)
Lemma head_ok_Forall2 (R : N -> N -> Prop) p s t :
  (forall a b, R a b -> p a = false -> p b = false) ->
  Forall2 R s t -> head_ok p s -> head_ok p t.
Proof. intros HR [|a b s' t' Hab _]; cbn; [done|]. by apply HR. Qed.

Lemma ends_ok_Forall2 (R : N -> N -> Prop) p s t :
  (forall a b, R a b -> p a = false -> p b = false) ->
  Forall2 R s t -> ends_ok p s -> ends_ok p t.
Proof.
  intros HR H2 [Hh Hl]. split.
  - by eapply head_ok_Forall2.
  - eapply head_ok_Forall2; [done| |done]. by apply Forall2_reverse.
Qed.

Lemma ends_ok_filter (P : N -> Prop) `{!forall x, Decision (P x)} p s :
  (forall c, p c = false -> P c) ->
  ends_ok p s -> ends_ok p (filter P s).
Proof.
  intros HP. 
  assert (Hhead : forall u : str, head_ok p u -> head_ok p (filter P u)).
  { intros [|c u] Hc; [done|]. cbn in Hc.
    rewrite filter_cons_True by by apply HP. done. }
  intros [Hh Hl]. split; [by apply Hhead|].
  rewrite <- filter_reverse. by apply Hhead.
Qed.

(** ** The scan of the parenthesised groups *)

Lemma paren_scan_rel i s : Forall2 sep_rel s (paren_scan i s).
Proof.
  revert i. induction s as [|c r IH]; intros i; cbn; [constructor|].
  destruct i.
  - destruct (c =? cp_rparen)%N; constructor; unfold sep_rel; auto.
  - destruct (_ && _); constructor; unfold sep_rel; auto.
Qed.

Lemma fix_sep_rparen c : (fix_sep c =? cp_rparen)%N = (c =? cp_rparen)%N.
Proof.
  unfold fix_sep. destruct (N.eqb_spec c cp_underscore) as [->|]; done.
Qed.

Lemma fix_sep_idem c : fix_sep (fix_sep c) = fix_sep c.
Proof.
  unfold fix_sep. destruct (N.eqb_spec c cp_underscore) as [->|Hn]; [done|].
  by apply N.eqb_neq in Hn as ->.
Qed.

Lemma paren_scan_has_rparen i s :
  existsb (fun d => (d =? cp_rparen)%N) (paren_scan i s)
  = existsb (fun d => (d =? cp_rparen)%N) s.
Proof.
  revert i. induction s as [|c r IH]; intros i; cbn; [done|].
  destruct i.
  - destruct (c =? cp_rparen)%N eqn:Hc; cbn.
    + by rewrite Hc.
    + by rewrite fix_sep_rparen, Hc, IH.
  - destruct (_ && _); cbn; by rewrite IH.
Qed.

Lemma paren_scan_idem i s : paren_scan i (paren_scan i s) = paren_scan i s.
Proof.
  revert i. induction s as [|c r IH]; intros i; cbn; [done|].
  destruct i.
  - destruct (c =? cp_rparen)%N eqn:Hc; cbn.
    + by rewrite Hc, IH.
    + by rewrite fix_sep_rparen, Hc, fix_sep_idem, IH.
  - destruct (c =? cp_lparen)%N eqn:Hc; cbn [andb].
    + destruct (existsb _ r) eqn:He; cbn; rewrite Hc, paren_scan_has_rparen, He;
        cbn; by rewrite IH.
    + cbn. by rewrite Hc, IH.
Qed.

Lemma paren_scan_map (l : N -> N) i s :
  (forall c, (l c =? cp_lparen)%N = (c =? cp_lparen)%N) ->
  (forall c, (l c =? cp_rparen)%N = (c =? cp_rparen)%N) ->
  (forall c, fix_sep (l c) = l (fix_sep c)) ->
  paren_scan i (map l s) = map l (paren_scan i s).
Proof.
  intros Hl Hr Hf. revert i. induction s as [|c r IH]; intros i; cbn; [done|].
  assert (He : existsb (fun d => (d =? cp_rparen)%N) (map l r)
               = existsb (fun d => (d =? cp_rparen)%N) r).
  { clear IH. induction r as [|x r IHr]; cbn; [done|]. by rewrite Hr, IHr. }
  destruct i.
  - rewrite Hr. destruct (c =? cp_rparen)%N; cbn; by rewrite ?Hf, IH.
  - rewrite Hl, He. destruct (_ && _); cbn; by rewrite IH.
Qed.


(** ** Lowercasing *)

Ltac split_cmp :=
  repeat (match goal with
          | |- context [(?a <=? ?b)%N] => destruct (N.leb_spec a b)
          | |- context [(?a <? ?b)%N] => destruct (N.ltb_spec a b)
          | |- context [(?a =? ?b)%N] => destruct (N.eqb_spec a b)
          end; cbn [andb orb negb]; try (exfalso; lia));
  cbn [andb orb negb]; try done; try lia.

Section Lower.
Context {U : Unicode} {laws : LowerLaws U}.

Lemma lower_cp_ascii c : (c < 128)%N ->
  lower_cp c = if is_ascii_upper c then (c + 32)%N else c.
Proof.
  intros Hc. unfold lower_cp. destruct (is_ascii_upper c); [done|].
  by apply N.ltb_lt in Hc as ->.
Qed.

Lemma lower_cp_beyond c : (128 <= c)%N -> lower_cp c = unicode_lower c.
Proof.
  intros Hc. unfold lower_cp, is_ascii_upper.
  destruct (N.leb_spec 65 c); destruct (N.leb_spec c 90); cbn; try lia;
    destruct (N.ltb_spec c 128); try lia; done.
Qed.

Lemma lower_cp_idem c : lower_cp (lower_cp c) = lower_cp c.
Proof.
  destruct (N.lt_ge_cases c 128) as [Hc|Hc].
  - rewrite (lower_cp_ascii c Hc). unfold is_ascii_upper.
    destruct (N.leb_spec 65 c); destruct (N.leb_spec c 90); cbn;
      rewrite lower_cp_ascii by lia; unfold is_ascii_upper; split_cmp.
  - rewrite (lower_cp_beyond c Hc). by apply lower_stable.
Qed.

Lemma lower_cp_zero_width c :
  is_zero_width c = false -> is_zero_width (lower_cp c) = false.
Proof.
  destruct (N.lt_ge_cases c 128) as [Hc|Hc].
  - intros _. rewrite (lower_cp_ascii c Hc). unfold is_ascii_upper, is_zero_width.
    split_cmp.
  - rewrite (lower_cp_beyond c Hc). by apply lower_zero_width.
Qed.

Lemma lower_cp_space c : isspace c = false -> isspace (lower_cp c) = false.
Proof.
  destruct (N.lt_ge_cases c 128) as [Hc|Hc].
  - rewrite (lower_cp_ascii c Hc). unfold is_ascii_upper.
    destruct (N.leb_spec 65 c); destruct (N.leb_spec c 90); cbn; try done.
    intros _. unfold isspace. split_cmp.
  - rewrite (lower_cp_beyond c Hc). by apply lower_space.
Qed.

Lemma lower_cp_delim c d :
  d = cp_space \/ d = cp_lparen \/ d = cp_rparen \/ d = cp_underscore ->
  (lower_cp c =? d)%N = (c =? d)%N.
Proof.
  intros Hd. destruct (N.lt_ge_cases c 128) as [Hc|Hc].
  - rewrite (lower_cp_ascii c Hc). unfold is_ascii_upper.
    unfold cp_space, cp_lparen, cp_rparen, cp_underscore in Hd.
    destruct (N.leb_spec 65 c); destruct (N.leb_spec c 90); cbn; try done.
    destruct (N.eqb_spec (c + 32) d); destruct (N.eqb_spec c d); try done; lia.
  - rewrite (lower_cp_beyond c Hc).
    destruct (lower_delim c Hc) as (H1 & H2 & H3 & H4).
    unfold cp_space, cp_lparen, cp_rparen, cp_underscore in *.
    destruct (N.eqb_spec (unicode_lower c) d); destruct (N.eqb_spec c d);
      try done; exfalso; destruct Hd as [-> | [-> | [-> | ->]]];
      first [done | lia].
Qed.

Lemma lower_cp_fix_sep c : fix_sep (lower_cp c) = lower_cp (fix_sep c).
Proof.
  unfold fix_sep. rewrite lower_cp_delim by auto.
  destruct (c =? cp_underscore)%N; done.
Qed.

End Lower.


(** ** The MALDI normaliser *)

Lemma Forall_transfer (R : N -> N -> Prop) (P : N -> Prop) (s t : str) :
  (forall a b, R a b -> P a -> P b) ->
  Forall2 R s t -> Forall P s -> Forall P t.
Proof.
  intros HR H2. induction H2 as [|a b s t Hab _ IH]; [done|].
  intros [Ha Hs]%Forall_cons. constructor; eauto.
Qed.

Lemma Forall_drop_while (P : N -> Prop) p (s : str) :
  Forall P s -> Forall P (drop_while p s).
Proof.
  induction 1 as [|c r Hc Hr IH]; cbn; [done|].
  destruct (p c); [done|]. by constructor.
Qed.

Lemma Forall_strip_by (P : N -> Prop) p (s : str) :
  Forall P s -> Forall P (strip_by p s).
Proof.
  intros Hs. unfold strip_by, rstrip_by, lstrip_by.
  apply Forall_reverse, Forall_drop_while, Forall_reverse.
  by apply Forall_drop_while.
Qed.

Lemma filter_Forall_id (P : N -> Prop) `{!forall x, Decision (P x)} (s : str) :
  Forall P s -> filter P s = s.
Proof.
  induction 1 as [|c r Hc Hr IH]; [done|].
  by rewrite filter_cons_True, IH.
Qed.

Lemma Forall_filter_self (P : N -> Prop) `{!forall x, Decision (P x)} (s : str) :
  Forall P (filter P s).
Proof. apply Forall_forall. by intros x [Hx _]%list_elem_of_filter. Qed.

Lemma Forall_filter_keep (P Q : N -> Prop) `{!forall x, Decision (Q x)} (s : str) :
  Forall P s -> Forall P (filter Q s).
Proof.
  rewrite !Forall_forall. intros Hs x [_ Hx]%list_elem_of_filter. by apply Hs.
Qed.

Lemma filter_drop_while (P : N -> Prop) `{!forall x, Decision (P x)} p (s : str) :
  (forall c, p c = false -> P c) ->
  filter P (drop_while p s) = drop_while p (filter P s).
Proof.
  intros HP. induction s as [|c r IH]; [done|].
  cbn [drop_while]. destruct (p c) eqn:Hc.
  - rewrite IH, (filter_cons P c r). destruct (decide (P c)); [|done].
    cbn [drop_while]. by rewrite Hc.
  - rewrite !filter_cons_True by by apply HP. cbn [drop_while]. by rewrite Hc.
Qed.

Lemma filter_strip_by (P : N -> Prop) `{!forall x, Decision (P x)} p (s : str) :
  (forall c, p c = false -> P c) ->
  filter P (strip_by p s) = strip_by p (filter P s).
Proof.
  intros HP. unfold strip_by, rstrip_by, lstrip_by.
  by rewrite filter_reverse, filter_drop_while, filter_reverse,
    filter_drop_while.
Qed.

Lemma strip_by_middle p (a : str) c (mid : str) d (b : str) :
  p c = false -> p d = false ->
  strip_by p (a ++ c :: mid ++ d :: b)
  = drop_while p a ++ c :: mid ++ d :: reverse (drop_while p (reverse b)).
Proof.
  intros Hc Hd. unfold strip_by, rstrip_by, lstrip_by.
  rewrite (drop_while_app_keep _ _ _ _ Hc).
  replace (drop_while p a ++ c :: mid ++ d :: b)
    with ((drop_while p a ++ c :: mid) ++ d :: b) by by rewrite <- app_assoc.
  rewrite reverse_app, reverse_cons, <- app_assoc. cbn [app].
  rewrite (drop_while_app_keep _ _ _ _ Hd).
  rewrite reverse_app, reverse_cons, reverse_involutive, <- !app_assoc.
  done.
Qed.

Section Normalize.
Context {U : Unicode}.



Lemma normalize_core x : _normalize_name_for_match x = lower (core x).
Proof.
  unfold _normalize_name_for_match, core.
  change (lit " ") with [cp_space].
  rewrite replace_char_del, re_sub_paren_scan by done. done.
Qed.

Lemma isspace_not_space c : isspace c = false -> not_space c.
Proof. intros Hc ->. done. Qed.

Lemma sep_rel_space a b : sep_rel a b -> isspace a = false -> isspace b = false.
Proof.
  intros [->| ->]; [done|]. unfold fix_sep.
  destruct (a =? cp_underscore)%N; done.
Qed.

Lemma sep_rel_zero_width a b : sep_rel a b -> not_zero_width a -> not_zero_width b.
Proof.
  intros [->| ->]; [done|]. unfold fix_sep.
  destruct (a =? cp_underscore)%N; done.
Qed.

Lemma sep_rel_not_space a b : sep_rel a b -> not_space a -> not_space b.
Proof.
  intros [->| ->]; [done|]. unfold fix_sep.
  destruct (a =? cp_underscore)%N; done.
Qed.

Lemma core_zero_width x : Forall not_zero_width (core x).
Proof.
  eapply Forall_transfer; [apply sep_rel_zero_width|apply paren_scan_rel|].
  apply Forall_filter_keep, Forall_strip_by, Forall_filter_self.
Qed.

Lemma core_not_space x : Forall not_space (core x).
Proof.
  eapply Forall_transfer; [apply sep_rel_not_space|apply paren_scan_rel|].
  apply Forall_filter_self.
Qed.

Lemma core_ends x : ends_ok isspace (core x).
Proof.
  eapply ends_ok_Forall2; [apply sep_rel_space|apply paren_scan_rel|].
  apply ends_ok_filter; [apply isspace_not_space|]. apply strip_by_ends_ok.
Qed.

Lemma core_scanned x : paren_scan false (core x) = core x.
Proof. apply paren_scan_idem. Qed.

(** A string with the four properties of [core x] is left alone by [core]. *)
Lemma core_fixed (y : str) :
  Forall not_zero_width y -> ends_ok isspace y -> Forall not_space y ->
  paren_scan false y = y -> core y = y.
Proof.
  intros Hz He Hs Hp. unfold core.
  rewrite (filter_Forall_id _ _ Hz). unfold strip.
  rewrite (strip_by_fixed _ _ He), (filter_Forall_id _ _ Hs). done.
Qed.

Context {laws : LowerLaws U}.

Lemma lower_props (y : str) :
  Forall not_zero_width y -> ends_ok isspace y -> Forall not_space y ->
  paren_scan false y = y ->
  Forall not_zero_width (lower y) /\ ends_ok isspace (lower y)
  /\ Forall not_space (lower y) /\ paren_scan false (lower y) = lower y.
Proof.
  intros Hz He Hs Hp. unfold lower.
  assert (H2 : Forall2 (fun a b => b = lower_cp a) y (map lower_cp y)).
  { clear. induction y; constructor; auto. }
  split; [|split; [|split]].
  - eapply Forall_transfer; [|exact H2|exact Hz].
    intros a b -> Ha. by apply lower_cp_zero_width.
  - eapply ends_ok_Forall2; [|exact H2|exact He].
    intros a b -> Ha. by apply lower_cp_space.
  - eapply Forall_transfer; [|exact H2|exact Hs].
    intros a b -> Ha Hb. apply Ha. apply N.eqb_eq.
    rewrite <- (lower_cp_delim a cp_space) by auto. by apply N.eqb_eq.
  - rewrite paren_scan_map, Hp; [done| | |].
    + intros c. apply lower_cp_delim. auto.
    + intros c. apply lower_cp_delim. auto.
    + intros c. apply lower_cp_fix_sep.
Qed.

Lemma normalize_idem (x : str) :
  _normalize_name_for_match (_normalize_name_for_match x)
  = _normalize_name_for_match x.
Proof.
  rewrite !normalize_core.
  destruct (lower_props (core x)) as (Hz & He & Hs & Hp);
    [apply core_zero_width|apply core_ends|apply core_not_space|apply core_scanned|].
  rewrite (core_fixed _ Hz He Hs Hp).
  unfold lower. rewrite map_map. apply map_ext. intros c. apply lower_cp_idem.
Qed.

End Normalize.


(** ** Spaces and separators *)

Section Variants.
Context {U : Unicode}.

Lemma core_spaces (x : str) :
  core x = paren_scan false (strip (filter not_space (filter not_zero_width x))).
Proof.
  unfold core, strip. by rewrite filter_strip_by by apply isspace_not_space.
Qed.

Lemma normalize_space_step x y :
  space_step x y -> _normalize_name_for_match x = _normalize_name_for_match y.
Proof.
  intros [a b]. rewrite !normalize_core, !core_spaces. do 3 f_equal.
  rewrite !filter_app, (filter_cons_True not_zero_width) by done.
  rewrite filter_cons_False; [done|]. intros Hs. by apply Hs.
Qed.

Lemma has_rparen_app (a b : str) :
  cp_rparen ∈ b -> existsb (fun d => (d =? cp_rparen)%N) (a ++ b) = true.
Proof.
  intros Hb. apply existsb_exists. exists cp_rparen. split; [|done].
  apply list_elem_of_In, elem_of_app. by right.
Qed.

Lemma paren_scan_sep i (a m1 m2 b : str) :
  cp_rparen ∉ m1 ->
  paren_scan i (a ++ cp_lparen :: m1 ++ cp_underscore :: m2 ++ cp_rparen :: b)
  = paren_scan i (a ++ cp_lparen :: m1 ++ cp_slash :: m2 ++ cp_rparen :: b).
Proof.
  intros H1.
  assert (Hin : forall X : N,
    paren_scan true (m1 ++ X :: m2 ++ cp_rparen :: b)
    = map fix_sep m1 ++ fix_sep X :: paren_scan true (m2 ++ cp_rparen :: b)
      \/ X = cp_rparen).
  { intros X. destruct (N.eqb_spec X cp_rparen) as [->|HX]; [by right|left].
    rewrite paren_scan_inside by done. cbn [paren_scan].
    by apply N.eqb_neq in HX as ->. }
  assert (Hcore : forall j,
    paren_scan j (cp_lparen :: m1 ++ cp_underscore :: m2 ++ cp_rparen :: b)
    = paren_scan j (cp_lparen :: m1 ++ cp_slash :: m2 ++ cp_rparen :: b)).
  { intros j.
    destruct (Hin cp_underscore) as [Hu|]; [|done].
    destruct (Hin cp_slash) as [Hs|]; [|done].
    destruct j; cbn [paren_scan].
    - change (cp_lparen =? cp_rparen)%N with false. cbn iota.
      by rewrite Hu, Hs.
    - rewrite N.eqb_refl. cbn [andb].
      rewrite !has_rparen_app
        by (rewrite elem_of_cons, elem_of_app, elem_of_cons; auto).
      by rewrite Hu, Hs. }
  revert i. induction a as [|c a IH]; intros i; [apply Hcore|].
  cbn [app paren_scan]. destruct i.
  - destruct (c =? cp_rparen)%N; by rewrite IH.
  - rewrite !has_rparen_app
      by (rewrite elem_of_cons, elem_of_app, elem_of_cons, elem_of_app,
            elem_of_cons; auto 10).
    destruct (_ && _); by rewrite IH.
Qed.

Lemma normalize_sep_step x y :
  sep_step x y -> _normalize_name_for_match x = _normalize_name_for_match y.
Proof.
  intros [a m1 m2 b H1 H2]. rewrite !normalize_core. f_equal. unfold core.
  assert (Hkeep : forall (P : N -> Prop) `{!forall c, Decision (P c)} (X : N),
    P cp_lparen -> P cp_rparen -> P X ->
    filter P (a ++ cp_lparen :: m1 ++ X :: m2 ++ cp_rparen :: b)
    = filter P a ++ cp_lparen :: filter P m1 ++ X :: filter P m2
      ++ cp_rparen :: filter P b).
  { intros P ? X Hl Hr HX.
    rewrite filter_app, filter_cons_True, filter_app, filter_cons_True,
      filter_app, filter_cons_True by done. done. }
  rewrite !Hkeep by done. unfold strip.
  pose (m1' := filter not_zero_width m1). pose (m2' := filter not_zero_width m2).
  fold m1' m2'.
  replace (cp_lparen :: m1' ++ cp_underscore :: m2' ++ cp_rparen :: filter not_zero_width b)
    with (cp_lparen :: (m1' ++ cp_underscore :: m2') ++ cp_rparen :: filter not_zero_width b)
    by by rewrite <- app_assoc.
  replace (cp_lparen :: m1' ++ cp_slash :: m2' ++ cp_rparen :: filter not_zero_width b)
    with (cp_lparen :: (m1' ++ cp_slash :: m2') ++ cp_rparen :: filter not_zero_width b)
    by by rewrite <- app_assoc.
  rewrite !strip_by_middle by done.
  rewrite <- !app_assoc. cbn [app].
  clear Hkeep.
  assert (Hkeep : forall (A B : str) (X : N), not_space X ->
    filter not_space (A ++ cp_lparen :: m1' ++ X :: m2' ++ cp_rparen :: B)
    = filter not_space A ++ cp_lparen :: filter not_space m1' ++ X
      :: filter not_space m2' ++ cp_rparen :: filter not_space B).
  { intros A B X HX.
    rewrite filter_app, filter_cons_True, filter_app, filter_cons_True,
      filter_app, filter_cons_True by done. done. }
  rewrite !Hkeep by done.
  apply paren_scan_sep.
  subst m1'. rewrite !list_elem_of_filter. tauto.
Qed.

Lemma normalize_rtsc (R : relation str) x y :
  (forall a b, R a b -> _normalize_name_for_match a = _normalize_name_for_match b) ->
  rtsc R x y -> _normalize_name_for_match x = _normalize_name_for_match y.
Proof.
  intros HR. induction 1 as [|x y z [Hxy|Hyx] _ IH]; [done| |].
  - by rewrite (HR _ _ Hxy).
  - by rewrite <- (HR _ _ Hyx).
Qed.

End Variants.

(** ** The disambiguation tag *)

Lemma startswith_prefix (p s : str) : startswith p s = true <-> p `prefix_of` s.
Proof.
  revert s. induction p as [|a p IH]; intros s; cbn.
  - split; [intros _; apply prefix_nil|done].
  - destruct s as [|b s].
    + split; [done|]. intros H. by apply prefix_nil_not in H.
    + rewrite andb_true_iff, N.eqb_eq, IH. split.
      * intros [-> Hp]. by apply prefix_cons.
      * intros Hp. split; [by eapply prefix_cons_inv_1|by eapply prefix_cons_inv_2].
Qed.

Lemma replace_from_skip_all old new (k : nat) (s : str) :
  (length s <= k)%nat -> replace_from old new k s = [].
Proof.
  revert k. induction s as [|c r IH]; intros k Hk; [done|].
  cbn in Hk. destruct k as [|k]; [lia|]. cbn. apply IH. lia.
Qed.

Lemma replace_absent old new (s : str) :
  contains old s = false -> replace old new s = s.
Proof.
  unfold replace. induction s as [|c r IH]; [done|].
  cbn [contains]. intros [Hs Hr]%orb_false_iff.
  cbn [replace_from]. rewrite Hs. f_equal. by apply IH.
Qed.

(** A tag whose first character does not occur again in it cannot start
    inside [x] and run over into a copy of itself appended to [x]. *)
Lemma startswith_appended c0 (t x : str) :
  c0 ∉ t -> x <> [] ->
  startswith (c0 :: t) (x ++ c0 :: t) = true -> startswith (c0 :: t) x = true.
Proof.
  intros Hc0 Hx Hp. apply startswith_prefix in Hp. apply startswith_prefix.
  destruct (prefix_weak_total (c0 :: t) x (x ++ c0 :: t)) as [Hpx|Hxp];
    [done|by apply prefix_app_r|done|].
  destruct (decide (length (c0 :: t) <= length x)%nat) as [Hle|Hgt].
  - by rewrite (prefix_length_eq _ _ Hxp Hle).
  - exfalso. apply Hc0.
    assert (Hlook : (c0 :: t) !! length x = Some c0).
    { rewrite (prefix_lookup_lt (c0 :: t) (x ++ c0 :: t) (length x)) by (done || lia).
      by rewrite list_lookup_middle. }
    destruct x as [|c x]; [done|]. cbn in Hlook.
    by eapply list_elem_of_lookup_2.
Qed.

Lemma replace_appended c0 (t x : str) :
  c0 ∉ t -> contains (c0 :: t) x = false ->
  replace (c0 :: t) [] (x ++ c0 :: t) = x.
Proof.
  intros Hc0. unfold replace. induction x as [|c x IH]; intros Hx.
  - cbn [app replace_from].
    assert (startswith (c0 :: t) (c0 :: t) = true) as ->
      by (apply startswith_prefix; reflexivity).
    cbn. rewrite Nat.sub_0_r. by apply replace_from_skip_all.
  - cbn [contains] in Hx. apply orb_false_iff in Hx as [Hs Hr].
    cbn [app replace_from].
    destruct (startswith (c0 :: t) (c :: x ++ c0 :: t)) eqn:Hp.
    + apply (startswith_appended c0 t (c :: x)) in Hp; [congruence|done|done].
    + f_equal. by apply IH.
Qed.

Lemma remove_apply_p3distinct (x : str) :
  contains p3distinct x = false -> remove_p3distinct (apply_p3distinct x) = x.
Proof.
  intros Hx. unfold remove_p3distinct, apply_p3distinct.
  change p3distinct with (cp_underscore :: lit "p3distinct") in *.
  apply replace_appended; [|done].
  by apply (bool_decide_unpack _); vm_compute.
Qed.

Lemma remove_p3distinct_absent (x : str) :
  contains p3distinct x = false -> remove_p3distinct x = x.
Proof. apply replace_absent. Qed.

End StrFacts.

Module MatcherFacts.
Import Str Matcher Notions.

Section WithTables.
Context {U : Unicode}.

Lemma build_img_map_keyed imgs : keyed (build_img_map imgs).
Proof.
  unfold build_img_map.
  assert (Hgen : forall m, keyed m ->
            keyed (foldl (fun m p => <[ key_of p := p ]> m) m imgs)).
  { induction imgs as [|q imgs IH]; intros m Hm; [done|].
    cbn. apply IH. intros k p. rewrite lookup_insert_Some.
    intros [[<- <-]|[_ Hk]]; [done|by apply Hm]. }
  apply Hgen. intros k p. by rewrite lookup_empty.
Qed.

#[local] Instance grows_preorder : PreOrder grows.
Proof.
  split.
  - intros st. by split.
  - intros a b c [H1 H2] [H3 H4]. split; by etrans.
Qed.

Lemma emit_inv m st k p :
  keyed m -> inv m st -> m !! k = Some p -> k ∉ seen_keys st ->
  inv m {| ordered_imgs := ordered_imgs st ++ [p];
           seen_keys := {[ k ]} ∪ seen_keys st |}.
Proof.
  intros Hm [Hn Hs He] Hk Hnew. pose proof (Hm _ _ Hk) as Hkey.
  split; cbn.
  - apply NoDup_app. split; [done|]. split; [|apply NoDup_singleton].
    intros q Hq ->%list_elem_of_singleton. apply Hnew. rewrite <- Hkey. by apply Hs.
  - intros q [Hq| ->%list_elem_of_singleton]%elem_of_app.
    + apply elem_of_union_r. by apply Hs.
    + apply elem_of_union_l, elem_of_singleton. done.
  - intros k' q [->%elem_of_singleton|Hk']%elem_of_union Hq.
    + rewrite Hk in Hq. injection Hq as <-. apply elem_of_app. right.
      by apply list_elem_of_singleton.
    + apply elem_of_app. left. by eapply He.
Qed.

Lemma emit_grows st k p :
  grows st {| ordered_imgs := ordered_imgs st ++ [p];
              seen_keys := {[ k ]} ∪ seen_keys st |}.
Proof. split; cbn; [by apply prefix_app_r|set_solver]. Qed.

Lemma add_plain_spec m st c :
  keyed m -> inv m st ->
  inv m (add_plain m st c) /\ grows st (add_plain m st c)
  /\ (forall p, m !! _norm_name c = Some p -> p ∈ ordered_imgs (add_plain m st c)).
Proof.
  intros Hm Hi. unfold add_plain.
  destruct (m !! _norm_name c) as [p|] eqn:Hk;
    [|split; [done|split; [reflexivity|done]]].
  destruct (decide (_norm_name c ∈ seen_keys st)) as [Hin|Hnew].
  - split; [done|]. split; [reflexivity|].
    intros q [= <-]. by eapply inv_emitted.
  - split; [by apply emit_inv|]. split; [apply emit_grows|].
    intros q [= <-]. cbn. apply elem_of_app. right. by apply list_elem_of_singleton.
Qed.

Lemma add_construct_spec m sfx st c :
  keyed m -> inv m st ->
  inv m (add_construct m sfx st c) /\ grows st (add_construct m sfx st c).
Proof.
  intros Hm Hi. unfold add_construct.
  pose proof (add_plain_spec m st c Hm Hi) as (Hp1 & Hp2 & _).
  destruct sfx as [[|x sfx]|]; cbn beta iota; [by split|..|by split].
  destruct (m !! _norm_name (c ++ x :: sfx)) as [p|] eqn:Hk; [|by split].
  destruct (decide _) as [Hin|Hnew]; [by split|].
  split; [by apply emit_inv|apply emit_grows].
Qed.

Lemma add_page_constructs_spec m st constructs sfx :
  keyed m -> inv m st ->
  inv m (add_page_constructs m st constructs sfx)
  /\ grows st (add_page_constructs m st constructs sfx).
Proof.
  intros Hm. unfold add_page_constructs. revert st.
  induction constructs as [|c cs IH]; intros st Hi; [split; [done|reflexivity]|].
  cbn. destruct (add_construct_spec m sfx st c Hm Hi) as [Hi' Hg'].
  destruct (IH _ Hi') as [Hi'' Hg'']. split; [done|by etrans].
Qed.

(** A source without suffix emits the image of each of its names that has
    one, unless it is out already. *)
Lemma add_page_plain_emits m st constructs a p :
  keyed m -> inv m st -> a ∈ constructs -> m !! _norm_name a = Some p ->
  p ∈ ordered_imgs (add_page_constructs m st constructs None).
Proof.
  intros Hm. unfold add_page_constructs. revert st.
  induction constructs as [|c cs IH]; intros st Hi Ha Hk.
  - by apply elem_of_nil in Ha.
  - cbn [foldl]. change (add_construct m None st c) with (add_plain m st c).
    destruct (add_plain_spec m st c Hm Hi) as (Hi' & Hg' & He').
    apply elem_of_cons in Ha as [<-|Ha].
    + destruct (add_page_constructs_spec m (add_plain m st a) cs None Hm Hi')
        as [_ [Hpre _]].
      eapply elem_of_prefix; [|exact Hpre]. by apply He'.
    + by apply IH.
Qed.

Lemma add_pages_spec m st sources :
  keyed m -> inv m st ->
  inv m (add_pages m st sources) /\ grows st (add_pages m st sources).
Proof.
  intros Hm. unfold add_pages. revert st.
  induction sources as [|[cs sfx] srcs IH]; intros st Hi;
    [split; [done|reflexivity]|].
  cbn. destruct (add_page_constructs_spec m st cs sfx Hm Hi) as [Hi' Hg'].
  destruct (IH _ Hi') as [Hi'' Hg'']. split; [done|by etrans].
Qed.

Lemma add_pages_app m st s1 s2 :
  add_pages m st (s1 ++ s2) = add_pages m (add_pages m st s1) s2.
Proof. apply foldl_app. Qed.

Lemma add_remaining_spec st imgs :
  NoDup (ordered_imgs st) ->
  (forall p, p ∈ ordered_imgs st -> key_of p ∈ seen_keys st) ->
  NoDup (ordered_imgs (add_remaining st imgs))
  /\ ordered_imgs st `prefix_of` ordered_imgs (add_remaining st imgs).
Proof.
  unfold add_remaining. revert st.
  induction imgs as [|q imgs IH]; intros st Hn Hs; [by split|].
  cbn [foldl]. destruct (decide (key_of q ∈ seen_keys st)) as [Hin|Hnew].
  - by apply IH.
  - destruct (IH {| ordered_imgs := ordered_imgs st ++ [q];
                    seen_keys := {[ key_of q ]} ∪ seen_keys st |}) as [H1 H2].
    + cbn. apply NoDup_app. split; [done|]. split; [|apply NoDup_singleton].
      intros p Hp ->%list_elem_of_singleton. by apply Hnew, Hs.
    + cbn. intros p [Hp| ->%list_elem_of_singleton]%elem_of_app.
      * apply elem_of_union_r. by apply Hs.
      * by apply elem_of_union_l, elem_of_singleton.
    + split; [done|]. etrans; [|exact H2]. cbn. by apply prefix_app_r.
Qed.

Lemma inv_empty m : inv m empty_state.
Proof.
  split; cbn.
  - apply NoDup_nil_2.
  - intros p Hp. by apply elem_of_nil in Hp.
  - intros k p Hk. by apply elem_of_empty in Hk.
Qed.

End WithTables.
End MatcherFacts.

Module PyFacts.
Import Py Notions.

(** Takes a successful [bind] apart. *)
Lemma bind_Ok {A B} (m : result A) (k : A -> result B) (b : B) :
  bind m k = Ok b -> exists a, m = Ok a /\ k a = Ok b.
Proof. destruct m as [a|e]; cbn; [eauto|done]. Qed.

Ltac inv_bind H :=
  repeat match type of H with
         | bind ?m ?k = Ok ?b =>
             let a := fresh "v" in
             let Ha := fresh "E" in
             apply bind_Ok in H as (a & Ha & H)
         | (let x := _ in _) = Ok _ => cbv zeta in H
         | (if ?c then _ else _) = Ok _ =>
             let Hc := fresh "C" in destruct c eqn:Hc
         | Raise _ = Ok _ => discriminate H
         end.

Lemma for_enumerate_map {A B C} (f : Z -> A -> result B) (g : B -> C) (h : A -> C)
  start (l : list A) (bs : list B) :
  (forall i a b, f i a = Ok b -> g b = h a) ->
  for_enumerate f start l = Ok bs -> map g bs = map h l.
Proof.
  intros Hf. revert start bs. induction l as [|a l IH]; intros start bs; cbn.
  - by intros [= <-].
  - intros H. inv_bind H. injection H as <-. cbn.
    f_equal; [by eapply Hf|by eapply IH].
Qed.

Lemma for_enumerate_flat_map {A B C} (f : Z -> A -> result B)
  (g : B -> list C) (h : A -> list C) start (l : list A) (bs : list B) :
  (forall i a b, f i a = Ok b -> g b = h a) ->
  for_enumerate f start l = Ok bs -> flat_map g bs = flat_map h l.
Proof.
  intros Hf. revert start bs. induction l as [|a l IH]; intros start bs; cbn.
  - by intros [= <-].
  - intros H. inv_bind H. injection H as <-. cbn.
    f_equal; [by eapply Hf|by eapply IH].
Qed.

Lemma for_enumerate_total {A B} (f : Z -> A -> result B) start (l : list A) :
  (forall i a, a ∈ l -> exists b, f i a = Ok b) ->
  exists bs, for_enumerate f start l = Ok bs.
Proof.
  revert start. induction l as [|a l IH]; intros start Hf; cbn; [eauto|].
  destruct (Hf start a) as [b ->]; [by left|]. cbn.
  destruct (IH (start + 1)) as [bs ->]; [|cbn; eauto].
  intros i x Hx. apply Hf. by right.
Qed.

(** ** [range] and slices *)

(** The ceiling of [n / d]. *)

Lemma ceil_div_spec n d : 0 < d -> d * (ceil_div n d - 1) < n <= d * ceil_div n d.
Proof.
  intros Hd. unfold ceil_div.
  pose proof (Z.div_mod (n + d - 1) d ltac:(lia)).
  pose proof (Z.mod_pos_bound (n + d - 1) d Hd). nia.
Qed.

Lemma ceil_div_unique n d q : 0 < d -> d * (q - 1) < n <= d * q -> ceil_div n d = q.
Proof.
  intros Hd Hq. pose proof (ceil_div_spec n d Hd). nia.
Qed.

Lemma range_up_length fuel i stop step :
  0 < step -> (Z.to_nat (stop - i) <= fuel)%nat ->
  Z.of_nat (length (range_up fuel i stop step)) = Z.max 0 (ceil_div (stop - i) step).
Proof.
  intros Hs. revert i. induction fuel as [|fuel IH]; intros i Hf; cbn.
  - pose proof (ceil_div_spec (stop - i) step Hs). nia.
  - destruct (Z.ltb_spec i stop) as [Hlt|Hge]; cbn.
    + rewrite Nat2Z.inj_succ, IH by lia.
      pose proof (ceil_div_spec (stop - (i + step)) step Hs) as H2.
      set (q := ceil_div (stop - (i + step)) step) in *.
      rewrite (ceil_div_unique (stop - i) step (q + 1)) by lia.
      assert (0 <= q) by nia. lia.
    + pose proof (ceil_div_spec (stop - i) step Hs) as H1.
      assert (ceil_div (stop - i) step <= 0) by (clear Hf IH; nia). lia.
Qed.

Lemma slice_chunk {A} (l : list A) i per :
  0 <= i -> 0 < per ->
  slice i (i + per) l = take (Z.to_nat per) (drop (Z.to_nat i) l).
Proof.
  intros Hi Hp. unfold slice, slice_index.
  destruct (Z.ltb_spec i 0); [lia|]. destruct (Z.ltb_spec (i + per) 0); [lia|].
  cbn beta iota.
  destruct (Z_le_gt_dec (Z.of_nat (length l)) i) as [Hge|Hlt].
  - rewrite drop_ge by lia. rewrite (drop_ge l (Z.to_nat i)) by lia.
    by rewrite !take_nil.
  - rewrite (Z.min_l i) by lia.
    destruct (Z_le_gt_dec (i + per) (Z.of_nat (length l))).
    + rewrite Z.min_l by lia. f_equal. lia.
    + rewrite Z.min_r by lia.
      rewrite take_ge by (rewrite length_drop; lia).
      rewrite take_ge by (rewrite length_drop; lia). done.
Qed.

Lemma range_up_chunks {A} (l : list A) fuel i per :
  0 <= i -> 0 < per -> (Z.to_nat (Z.of_nat (length l) - i) <= fuel)%nat ->
  concat (map (fun i => slice i (i + per) l)
              (range_up fuel i (Z.of_nat (length l)) per))
  = drop (Z.to_nat i) l.
Proof.
  intros Hi Hp. revert i Hi. induction fuel as [|fuel IH]; intros i Hi Hf; cbn.
  - rewrite drop_ge by lia. done.
  - destruct (Z.ltb_spec i (Z.of_nat (length l))) as [Hlt|Hge]; cbn.
    + rewrite IH, slice_chunk by lia.
      replace (Z.to_nat (i + per)) with (Z.to_nat i + Z.to_nat per)%nat by lia.
      rewrite <- drop_drop. apply take_drop.
    + rewrite drop_ge by lia. done.
Qed.

Lemma range_up_chunk_sizes {A} (l : list A) fuel i per :
  0 <= i -> 0 < per ->
  Forall (fun j => (length (slice j (j + per) l) <= Z.to_nat per)%nat)
         (range_up fuel i (Z.of_nat (length l)) per).
Proof.
  intros Hi Hp. revert i Hi. induction fuel as [|fuel IH]; intros i Hi; cbn;
    [constructor|].
  destruct (Z.ltb_spec i (Z.of_nat (length l))); [|constructor].
  constructor; [|apply IH; lia].
  rewrite slice_chunk, length_take by lia. lia.
Qed.

Lemma slice_to_index {A} (l : list A) n :
  slice_to n l = take (Z.to_nat (slice_index (Z.of_nat (length l)) n)) l.
Proof.
  unfold slice_to, slice.
  assert (slice_index (Z.of_nat (length l)) 0 = 0) as ->
    by (unfold slice_index; cbn [Z.ltb Z.compare]; lia).
  by rewrite Z.sub_0_r.
Qed.

Lemma slice_to_take {A} (l : list A) n :
  0 <= n -> slice_to n l = take (Z.to_nat n) l.
Proof.
  intros Hn. rewrite slice_to_index. unfold slice_index.
  destruct (Z.ltb_spec n 0); [lia|].
  destruct (Z_le_gt_dec n (Z.of_nat (length l))).
  - by rewrite Z.min_l by lia.
  - rewrite Z.min_r by lia. rewrite take_ge by lia. by rewrite take_ge by lia.
Qed.

Lemma slice_to_idem {A} (l : list A) n :
  0 <= n -> slice_to n (slice_to n l) = slice_to n l.
Proof.
  intros Hn. rewrite !slice_to_take by done. rewrite take_take. f_equal. lia.
Qed.

Lemma slice_to_length {A} (l : list A) n :
  0 <= n -> Z.of_nat (length (slice_to n l)) = Z.min (Z.of_nat (length l)) n.
Proof. intros Hn. rewrite slice_to_take, length_take by done. lia. Qed.

End PyFacts.

Module DeckFacts.
Import Str Py Deck Notions PyFacts.

Lemma pictures_app (a b : slide) : pictures (a ++ b) = pictures a ++ pictures b.
Proof. unfold pictures. induction a as [|s a IH]; cbn; [done|]. by rewrite IH, <- app_assoc. Qed.

Lemma pictures_concat (xs : list slide) :
  pictures (concat xs) = flat_map pictures xs.
Proof.
  induction xs as [|x xs IH]; cbn; [done|]. by rewrite pictures_app, IH.
Qed.

Lemma flat_map_singleton {A B} (f : A -> B) (l : list A) :
  flat_map (fun a => [f a]) l = map f l.
Proof. induction l as [|a l IH]; cbn; [done|]. by rewrite IH. Qed.

Section WithFloat.
Context {F : Type} {FL : PyFloat F}.

(** *** One slide *)

Lemma fill_slide_Ok prs items cols rows margin_in hspace_in vspace_in fill_order prs' :
  add_fill_grid_slide_no_captions prs items cols rows margin_in hspace_in
    vspace_in fill_order = Ok prs' ->
  exists shapes,
    prs' = add_slide prs shapes
    /\ pictures shapes = map path (slice_to (cols * rows) items)
    /\ length shapes = length (slice_to (cols * rows) items).
Proof.
  unfold add_fill_grid_slide_no_captions. intros H. inv_bind H.
  injection H as <-. eexists. split; [done|]. split.
  - rewrite <- flat_map_singleton. unfold pictures.
    eapply for_enumerate_flat_map; [|done].
    intros i a b Hb. cbv beta in Hb. inv_bind Hb. by injection Hb as <-.
  - rewrite <- (length_map (fun _ => tt)), <- (length_map (fun _ : item => tt)).
    f_equal. eapply for_enumerate_map; [|done]. done.
Qed.

Lemma captioned_slide_Ok prs items cols rows rename_prefix margin_in hspace_in
  vspace_in caption_pt prs' :
  add_captioned_grid_slide prs items cols rows rename_prefix margin_in hspace_in
    vspace_in caption_pt = Ok prs' ->
  exists shapes,
    prs' = add_slide prs shapes
    /\ pictures shapes = map path (slice_to (cols * rows) items)
    /\ length shapes = (2 * length (slice_to (cols * rows) items))%nat.
Proof.
  unfold add_captioned_grid_slide. intros H. inv_bind H.
  injection H as <-. eexists. split; [done|]. split.
  - rewrite pictures_concat, <- flat_map_singleton.
    eapply for_enumerate_flat_map; [|done].
    intros i a b Hb. cbv beta in Hb. inv_bind Hb. by injection Hb as <-.
  - rewrite length_concat.
    match goal with
    | E : for_enumerate _ _ _ = Ok ?bs |- _ =>
        assert (Hm : map length bs
                     = map (fun _ => 2%nat) (slice_to (cols * rows) items))
    end.
    { eapply for_enumerate_map; [|done].
      intros i a b Hb. cbv beta in Hb. inv_bind Hb. by injection Hb as <-. }
    rewrite Hm. clear. induction (slice_to _ _) as [|a l IH]; [done|].
    unfold list_sum in *. cbn [map length fold_right]. rewrite IH. lia.
Qed.

Lemma fill_slide_slice prs items cols rows margin_in hspace_in vspace_in fill_order :
  0 <= cols * rows ->
  add_fill_grid_slide_no_captions prs items cols rows margin_in hspace_in
    vspace_in fill_order
  = add_fill_grid_slide_no_captions prs (slice_to (cols * rows) items) cols rows
      margin_in hspace_in vspace_in fill_order.
Proof.
  intros Hn. unfold add_fill_grid_slide_no_captions.
  by rewrite slice_to_idem.
Qed.

Lemma captioned_slide_slice prs items cols rows rename_prefix margin_in hspace_in
  vspace_in caption_pt :
  0 <= cols * rows ->
  add_captioned_grid_slide prs items cols rows rename_prefix margin_in hspace_in
    vspace_in caption_pt
  = add_captioned_grid_slide prs (slice_to (cols * rows) items) cols rows
      rename_prefix margin_in hspace_in vspace_in caption_pt.
Proof.
  intros Hn. unfold add_captioned_grid_slide.
  by rewrite slice_to_idem.
Qed.

(** *** The paginating wrapper *)

Lemma for_each_slides {A} (step : Presentation -> A -> result Presentation)
  (P : A -> slide -> Prop) (l : list A) prs prs' :
  (forall prs a prs', step prs a = Ok prs' ->
     exists sl, prs' = add_slide prs sl /\ P a sl) ->
  for_each step prs l = Ok prs' ->
  exists new, slides prs' = slides prs ++ new /\ Forall2 P l new
              /\ slide_width prs' = slide_width prs
              /\ slide_height prs' = slide_height prs.
Proof.
  intros Hstep. revert prs. induction l as [|a l IH]; intros prs; cbn.
  - intros [= <-]. exists []. by rewrite app_nil_r.
  - intros H. inv_bind H. destruct (Hstep _ _ _ E) as (sl & -> & Hsl).
    destruct (IH _ H) as (new & Hnew & H2 & Hw & Hh).
    exists (sl :: new). cbn in *. rewrite Hnew, <- app_assoc.
    repeat split; try done. by constructor.
Qed.

Lemma paginated_Ok prs items cols rows margin_in hspace_in vspace_in fill_order prs' :
  0 < cols * rows ->
  add_fill_grid_slides_no_captions_paginated prs items cols rows margin_in
    hspace_in vspace_in fill_order = Ok prs' ->
  exists new,
    slides prs' = slides prs ++ new
    /\ Z.of_nat (length new) = ceil_div (Z.of_nat (length items)) (cols * rows)
    /\ concat (map pictures new) = map path items
    /\ Forall (fun sl => Z.of_nat (length sl) <= cols * rows) new.
Proof.
  intros Hper. unfold add_fill_grid_slides_no_captions_paginated, range.
  destruct (Z.eqb_spec (cols * rows) 0) as [?|_]; [lia|].
  destruct (Z.ltb_spec 0 (cols * rows)) as [_|?]; [|lia]. cbn [bind].
  rewrite Z.sub_0_r, Nat2Z.id.
  set (per := cols * rows) in *.
  set (starts := range_up (length items) 0 (Z.of_nat (length items)) per).
  intros H.
  eapply (for_each_slides _
            (fun i sl => pictures sl = map path (slice i (i + per) items)
                         /\ length sl = length (slice i (i + per) items))) in H.
  - destruct H as (new & Hnew & H2 & _ & _). exists new. split; [done|].
    split; [|split].
    + rewrite <- (Forall2_length _ _ _ H2). unfold starts.
      rewrite range_up_length by lia. rewrite Z.sub_0_r.
      pose proof (ceil_div_spec (Z.of_nat (length items)) per Hper). nia.
    + transitivity (map path (concat (map (fun i => slice i (i + per) items) starts))).
      * clear -H2. induction H2 as [|i sl ist sls [Hi _] _ IH]; cbn; [done|].
        by rewrite map_app, Hi, IH.
      * unfold starts. rewrite range_up_chunks by lia. done.
    + pose proof (range_up_chunk_sizes items (length items) 0 per ltac:(lia) Hper) as Hsz.
      fold starts in Hsz. fold per. clear -H2 Hsz Hper.
      induction H2 as [|i sl ist sls [_ Hi] _ IH]; [constructor|].
      apply Forall_cons in Hsz as [Hs Hsz]. constructor; [|by apply IH].
      rewrite Hi. lia.
  - intros prs0 i prs0' Hstep.
    destruct (fill_slide_Ok _ _ _ _ _ _ _ _ _ Hstep) as (sl & -> & Hp & Hl).
    exists sl. split; [done|].
    (* the chunk is no longer than one slide, so the inner cut keeps it whole *)
    assert (Hcut : slice_to per (slice i (i + per) items) = slice i (i + per) items).
    { rewrite slice_to_take by lia. apply take_ge.
      unfold slice. rewrite length_take. unfold slice_index.
      destruct (Z.ltb_spec i 0), (Z.ltb_spec (i + per) 0); lia. }
    fold per in Hp, Hl. by rewrite Hcut in Hp, Hl.
Qed.


(** *** [build_pptx] *)

Ltac bool_hyps :=
  repeat match goal with
         | H : (_ <=? _) = true |- _ => apply Z.leb_le in H
         | H : (_ <=? _) = false |- _ => apply Z.leb_gt in H
         | H : (_ <? _) = true |- _ => apply Z.ltb_lt in H
         | H : (_ <? _) = false |- _ => apply Z.ltb_ge in H
         | H : (_ && _) = true |- _ => apply andb_true_iff in H as [? ?]
         | H : (_ && _) = false |- _ => apply andb_false_iff in H as [?|?]
         end.

Lemma place_image_placed g per_row per_col n done st img st' :
  0 < per_row -> 0 < per_col ->
  Z.of_nat (length done) < n ->
  placed per_row per_col n done st ->
  place_image g per_row per_col n st (Z.of_nat (length done)) img = Ok st' ->
  placed per_row per_col n (done ++ [img]) st'.
Proof.
  intros Hrow Hcol Hidx [Hp Hf Hc Hcb Hrb Hroom Hfresh] H.
  assert (Hlen : Z.of_nat (length (done ++ [img])) = Z.of_nat (length done) + 1)
    by (rewrite length_app; cbn; lia).
  assert (Hr : r st < per_col).
  { destruct (Z.eq_dec (r st) per_col) as [e|ne]; [apply Hroom in e; lia|lia]. }
  unfold place_image in H. inv_bind H; injection H as <-; bool_hyps;
    (split; cbn [finished current r c];
     [ rewrite ?map_app, ?concat_app; cbn [map concat];
       rewrite ?pictures_app; cbn [pictures flat_map app];
       rewrite ?app_nil_r, <- ?app_assoc; cbn [app];
       rewrite ?app_assoc, Hp; done
     | rewrite ?Forall_app; repeat split; try done;
       repeat constructor; rewrite ?pictures_app, ?length_app; cbn; nia
     | rewrite ?pictures_app, ?length_app; cbn; nia
     | lia
     | lia
     | intros ?; split; lia
     | rewrite ?pictures_app; intros Habs;
       first [ by apply app_eq_nil in Habs as [_ ?] | right; lia ] ]).
Qed.

Lemma place_images_placed g per_row per_col n imgs done st st' :
  0 < per_row -> 0 < per_col ->
  Z.of_nat (length done) + Z.of_nat (length imgs) = n ->
  placed per_row per_col n done st ->
  place_images g per_row per_col n st (Z.of_nat (length done)) imgs = Ok st' ->
  placed per_row per_col n (done ++ imgs) st'.
Proof.
  intros Hrow Hcol. revert done st.
  induction imgs as [|img imgs IH]; intros done st Hn Hpl; cbn.
  - intros [= <-]. by rewrite app_nil_r.
  - intros H. inv_bind H. cbn in Hn.
    eapply place_image_placed in E; [|done|done|lia|done].
    replace (Z.of_nat (length done) + 1) with (Z.of_nat (length (done ++ [img]))) in H
      by (rewrite length_app; cbn; lia).
    apply IH in H; [|rewrite length_app; cbn; lia|done].
    by rewrite <- app_assoc in H.
Qed.

Lemma full_slides_length per (sls : list slide) :
  Forall (fun sl => Z.of_nat (length (pictures sl)) = per) sls ->
  Z.of_nat (length (concat (map pictures sls))) = Z.of_nat (length sls) * per.
Proof.
  induction 1 as [|sl sls Hsl _ IH]; cbn; [done|].
  rewrite length_app. lia.
Qed.

Lemma build_pptx_Ok imgs per_row per_col hspace_fixed vspace_fixed slide_w_in
  slide_h_in sls :
  0 < per_row -> 0 < per_col ->
  build_pptx imgs per_row per_col hspace_fixed vspace_fixed slide_w_in slide_h_in
  = Ok sls ->
  concat (map pictures sls) = imgs
  /\ Forall (fun sl => Z.of_nat (length (pictures sl)) <= per_row * per_col) sls
  /\ (imgs <> [] ->
      Z.of_nat (length sls) = ceil_div (Z.of_nat (length imgs)) (per_row * per_col))
  /\ (imgs = [] -> sls = [[]]).
Proof.
  intros Hrow Hcol H. unfold build_pptx in H. inv_bind H. injection H as <-.
  assert (Hempty : imgs = [] -> finished v0 ++ [current v0] = [[]]).
  { intros ->. cbn in E0. by injection E0 as <-. }
  change 0 with (Z.of_nat (length (A:=list N) [])) in E0.
  apply (place_images_placed _ _ _ _ _ []) in E0; [|done|done|cbn; lia|].
  2: { split; cbn; try done; try lia. intros _. by left. }
  destruct E0 as [Hp Hf Hc Hcb Hrb Hroom Hfresh]. cbn [app] in *.
  pose proof (full_slides_length _ _ Hf) as Hfl.
  assert (Hn : Z.of_nat (length imgs)
               = Z.of_nat (length (finished v0)) * (per_row * per_col)
                 + (r v0 * per_row + c v0)).
  { rewrite <- Hp at 1. rewrite length_app. lia. }
  assert (Hm : r v0 * per_row + c v0 <= per_row * per_col).
  { destruct (Z.eq_dec (r v0) per_col) as [e|ne]; [apply Hroom in e; nia|nia]. }
  split; [|split; [|split]].
  - by rewrite map_app, concat_app; cbn; rewrite app_nil_r.
  - apply Forall_app. split.
    + eapply Forall_impl; [exact Hf|]. cbn. intros; lia.
    + constructor; [|constructor]. lia.
  - intros Hne. rewrite length_app. cbn.
    symmetry. apply ceil_div_unique; [nia|].
    assert (1 <= r v0 * per_row + c v0).
    { destruct (pictures (current v0)) eqn:Hcur; [|cbn in Hc; lia].
      destruct (Hfresh eq_refl) as [->|Hlt]; [done|lia]. }
    nia.
  - done.
Qed.

End WithFloat.
End DeckFacts.

Module ExactFacts.
Import Str Py Deck Notions PyFacts.

Lemma Qtrunc_inject z : Qtrunc (inject_Z z) = z.
Proof. unfold Qtrunc. cbn. apply Z.quot_1_r. Qed.

Lemma Qtrunc_div a b : b <> 0 -> Qtrunc (inject_Z a / inject_Z b) = Z.quot a b.
Proof.
  intros Hb. unfold Qtrunc, Qdiv, Qmult, Qinv, inject_Z. cbn.
  destruct b as [|p|p]; [done| |]; cbn.
  - by rewrite Z.mul_1_r.
  - change (Z.neg p) with (- Z.pos p). rewrite Z.quot_opp_r by done.
    rewrite <- Z.quot_opp_l by done. f_equal. lia.
Qed.

Lemma Qtrunc_upper (x : Q) (z : Z) : (x <= inject_Z z)%Q -> Qtrunc x <= z.
Proof.
  destruct x as [n d]. unfold Qle, Qtrunc. cbn. rewrite Z.mul_1_r. intros Hle.
  pose proof (Pos2Z.is_pos d) as Hd.
  pose proof (Z.quot_rem' n (Z.pos d)) as Hqr.
  destruct (Z_le_gt_dec 0 n) as [Hn|Hn].
  - pose proof (Z.rem_bound_pos n (Z.pos d) Hn Hd). nia.
  - assert (Hn' : n <= 0) by lia.
    pose proof (Z.rem_bound_pos_neg n (Z.pos d) Hd Hn'). nia.
Qed.

Lemma Qtrunc_lower (x : Q) (z : Z) : (inject_Z z <= x)%Q -> z <= Qtrunc x.
Proof.
  destruct x as [n d]. unfold Qle, Qtrunc. cbn. rewrite Z.mul_1_r. intros Hle.
  pose proof (Pos2Z.is_pos d) as Hd.
  pose proof (Z.quot_rem' n (Z.pos d)) as Hqr.
  destruct (Z_le_gt_dec 0 n) as [Hn|Hn].
  - pose proof (Z.rem_bound_pos n (Z.pos d) Hn Hd). nia.
  - assert (Hn' : n <= 0) by lia.
    pose proof (Z.rem_bound_pos_neg n (Z.pos d) Hd Hn'). nia.
Qed.

Lemma py_min_exact_l (a b : Q) : (py_min (FL:=exact) a b <= a)%Q.
Proof.
  unfold py_min. cbn. destruct (Qle_bool a b) eqn:Hab; cbn.
  - apply Qle_refl.
  - apply Qlt_le_weak, Qnot_le_lt. intros Hle. apply Qle_bool_iff in Hle. congruence.
Qed.

Lemma py_min_exact_r (a b : Q) : (py_min (FL:=exact) a b <= b)%Q.
Proof.
  unfold py_min. cbn. destruct (Qle_bool a b) eqn:Hab; cbn.
  - by apply Qle_bool_iff.
  - apply Qle_refl.
Qed.

Lemma py_max_exact_l (a b : Q) : (a <= py_max (FL:=exact) a b)%Q.
Proof.
  unfold py_max. cbn. destruct (Qle_bool b a) eqn:Hab; cbn.
  - apply Qle_refl.
  - apply Qlt_le_weak, Qnot_le_lt. intros Hle. apply Qle_bool_iff in Hle. congruence.
Qed.

Lemma py_max_exact_r (a b : Q) : (b <= py_max (FL:=exact) a b)%Q.
Proof.
  unfold py_max. cbn. destruct (Qle_bool b a) eqn:Hab; cbn.
  - by apply Qle_bool_iff.
  - apply Qle_refl.
Qed.

(** [pw * (cw / pw)] is [cw]. *)
Lemma scale_back (cw pw : Z) :
  pw <> 0 -> (inject_Z pw * (inject_Z cw / inject_Z pw) == inject_Z cw)%Q.
Proof.
  intros Hp. apply Qmult_div_r. unfold Qeq. cbn. lia.
Qed.

Lemma inject_pos (z : Z) : 0 < z -> (0 < inject_Z z)%Q.
Proof. intros Hz. unfold Qlt. cbn. lia. Qed.

Lemma fit_contain_exact cw ch pw ph w h :
  0 < pw -> 0 < ph ->
  fit_contain (FL:=exact) cw ch pw ph = Ok (w, h) -> w <= cw /\ h <= ch.
Proof.
  intros Hpw Hph. unfold fit_contain, int_truediv.
  destruct (Z.eqb_spec pw 0); [lia|]. destruct (Z.eqb_spec ph 0); [lia|].
  cbn [bind to_int exact of_int fmul fdiv]. intros [= <- <-].
  split; apply Qtrunc_upper.
  - eapply Qle_trans; [|apply Qle_lteq; right; by apply (scale_back cw pw)].
    apply Qmult_le_l; [by apply inject_pos|apply py_min_exact_l].
  - eapply Qle_trans; [|apply Qle_lteq; right; by apply (scale_back ch ph)].
    apply Qmult_le_l; [by apply inject_pos|apply py_min_exact_r].
Qed.

Lemma fit_cover_exact cw ch pw ph w h :
  0 < pw -> 0 < ph ->
  fit_cover (FL:=exact) cw ch pw ph = Ok (w, h) -> cw <= w /\ ch <= h.
Proof.
  intros Hpw Hph. unfold fit_cover, int_truediv.
  destruct (Z.eqb_spec pw 0); [lia|]. destruct (Z.eqb_spec ph 0); [lia|].
  cbn [bind to_int exact of_int fmul fdiv]. intros [= <- <-].
  split; apply Qtrunc_lower.
  - eapply Qle_trans;
      [apply Qle_lteq; right; apply Qeq_sym; by apply (scale_back cw pw)|].
    apply Qmult_le_l; [by apply inject_pos|apply py_max_exact_l].
  - eapply Qle_trans;
      [apply Qle_lteq; right; apply Qeq_sym; by apply (scale_back ch ph)|].
    apply Qmult_le_l; [by apply inject_pos|apply py_max_exact_r].
Qed.

Lemma fit_exact_total cw ch pw ph :
  pw <> 0 -> ph <> 0 ->
  (exists wh, fit_contain (FL:=exact) cw ch pw ph = Ok wh)
  /\ (exists wh, fit_cover (FL:=exact) cw ch pw ph = Ok wh).
Proof.
  intros Hpw Hph. unfold fit_contain, fit_cover, int_truediv.
  destruct (Z.eqb_spec pw 0); [lia|]. destruct (Z.eqb_spec ph 0); [lia|].
  cbn [bind to_int exact]. eauto.
Qed.

Lemma cell_geometry_exact prs cols rows margin hspace vspace :
  cols <> 0 -> rows <> 0 ->
  cell_geometry (FL:=exact) prs cols rows margin hspace vspace
  = Ok (Z.quot (slide_width prs - 2 * margin - hspace * (cols - 1)) cols,
        Z.quot (slide_height prs - 2 * margin - vspace * (rows - 1)) rows).
Proof.
  intros Hc Hr. unfold cell_geometry, int_truediv.
  destruct (Z.eqb_spec cols 0); [lia|]. destruct (Z.eqb_spec rows 0); [lia|].
  cbn [bind to_int exact of_int fdiv]. by rewrite !Qtrunc_div.
Qed.


Lemma elem_of_slice {A} (l : list A) a b x : x ∈ slice a b l -> x ∈ l.
Proof.
  unfold slice. intros Hx.
  eapply elem_of_sublist; [exact Hx|].
  etrans; [apply sublist_take|apply sublist_drop].
Qed.

Ltac exact_step :=
  unfold Inches, int_truediv, floordiv, pymod, grid_origin, centered;
  cbn [bind to_int exact].

Lemma fill_slide_exact_total prs items cols rows margin_in hspace_in vspace_in
  fill_order :
  cols <> 0 -> rows <> 0 ->
  Forall (fun it => native_width it <> 0 /\ native_height it <> 0) items ->
  exists prs',
    add_fill_grid_slide_no_captions (FL:=exact) prs items cols rows margin_in
      hspace_in vspace_in fill_order = Ok prs'.
Proof.
  intros Hc Hr Hit. unfold add_fill_grid_slide_no_captions. exact_step.
  destruct (Z.eqb_spec cols 0); [lia|]. destruct (Z.eqb_spec rows 0); [lia|].
  cbn [bind].
  match goal with
  | |- context [for_enumerate ?f ?i ?l] =>
      destruct (for_enumerate_total f i l) as [bs ->]; [|cbn [bind]; eauto]
  end.
  intros i it Hin%elem_of_slice. rewrite Forall_forall in Hit.
  destruct (Hit it Hin) as [Hw Hh].
  destruct (bool_decide _); cbn [bind];
    match goal with
    | |- context [fit_contain ?a ?b ?c ?d] =>
        destruct (fit_exact_total a b c d Hw Hh) as [[wh ->] _]
    end; cbn [bind]; eauto.
Qed.

Lemma captioned_slide_exact_total prs items cols rows rename_prefix margin_in
  hspace_in vspace_in caption_pt :
  cols <> 0 -> rows <> 0 ->
  Forall (fun it => native_width it <> 0 /\ native_height it <> 0) items ->
  exists prs',
    add_captioned_grid_slide (FL:=exact) prs items cols rows rename_prefix
      margin_in hspace_in vspace_in caption_pt = Ok prs'.
Proof.
  intros Hc Hr Hit. unfold add_captioned_grid_slide.
  unfold Inches. cbn [bind to_int exact].
  rewrite cell_geometry_exact by done. cbn [bind fst snd].
  unfold grid_origin. cbn [bind to_int exact].
  match goal with
  | |- context [for_enumerate ?f ?i ?l] =>
      destruct (for_enumerate_total f i l) as [bs ->]; [|cbn [bind]; eauto]
  end.
  intros i it Hin%elem_of_slice. rewrite Forall_forall in Hit.
  destruct (Hit it Hin) as [Hw Hh].
  unfold floordiv, pymod.
  destruct (Z.eqb_spec cols 0); [lia|]. cbn [bind].
  match goal with
  | |- context [fit_cover ?a ?b ?c ?d] =>
      destruct (fit_exact_total a b c d Hw Hh) as [_ [wh ->]]
  end.
  unfold centered. cbn [bind to_int exact]. eauto.
Qed.

(** A loop whose every step returns, returns. *)
Lemma for_each_total {A S} (f : S -> A -> result S) (st : S) (l : list A) :
  (forall s a, a ∈ l -> exists s', f s a = Ok s') ->
  exists s', for_each f st l = Ok s'.
Proof.
  revert st. induction l as [|a l IH]; intros st Hf; cbn; [eauto|].
  destruct (Hf st a) as [s1 ->]; [by left|]. cbn [bind].
  apply IH. intros s b Hb. apply Hf. by right.
Qed.

Lemma paginated_exact_total prs items cols rows margin_in hspace_in vspace_in
  fill_order :
  0 < cols * rows ->
  Forall (fun it => native_width it <> 0 /\ native_height it <> 0) items ->
  exists prs',
    add_fill_grid_slides_no_captions_paginated (FL:=exact) prs items cols rows
      margin_in hspace_in vspace_in fill_order = Ok prs'.
Proof.
  intros Hper Hit. unfold add_fill_grid_slides_no_captions_paginated, range.
  destruct (Z.eqb_spec (cols * rows) 0) as [?|_]; [lia|].
  destruct (Z.ltb_spec 0 (cols * rows)) as [_|?]; [|lia]. cbn [bind].
  apply for_each_total. intros prs0 i _.
  apply fill_slide_exact_total; [nia|nia|].
  rewrite Forall_forall in *. intros it Hin%elem_of_slice. by apply Hit.
Qed.

Lemma place_images_exact_total g per_row per_col n st idx imgs :
  exists st', place_images (FL:=exact) g per_row per_col n st idx imgs = Ok st'.
Proof.
  revert st idx. induction imgs as [|img imgs IH]; intros st idx; cbn; [eauto|].
  unfold place_image. exact_step.
  destruct (per_row <=? c st + 1); [destruct (_ && _)|]; cbn [bind]; apply IH.
Qed.

Lemma build_pptx_exact_total imgs per_row per_col hspace_fixed vspace_fixed
  slide_w_in slide_h_in :
  per_row <> 0 -> per_col <> 0 ->
  exists sls,
    build_pptx (FL:=exact) imgs per_row per_col hspace_fixed vspace_fixed
      slide_w_in slide_h_in = Ok sls.
Proof.
  intros Hr Hc. unfold build_pptx, build_grid, float_div_int.
  destruct (Z.eqb_spec per_row 0); [lia|]. destruct (Z.eqb_spec per_col 0); [lia|].
  cbn [bind].
  match goal with
  | |- context [place_images ?g ?a ?b ?n ?st ?i ?l] =>
      destruct (place_images_exact_total g a b n st i l) as [st' ->]
  end.
  cbn [bind]. eauto.
Qed.

End ExactFacts.

(* ===================================================================== *)
(** * Part VII: the claims *)
(* ===================================================================== *)

Import Str Matcher Py Deck Notions.
Import StrFacts MatcherFacts PyFacts DeckFacts ExactFacts.

(** The ASCII-only tables obey the laws of the lowercase mapping. *)
Lemma ascii_laws : LowerLaws ascii_tables.
Proof.
  split; cbn.
  - intros c Hc. unfold lower_cp, is_ascii_upper. cbn.
    destruct (N.leb_spec 65 c), (N.leb_spec c 90), (N.ltb_spec c 128);
      cbn; try reflexivity; lia.
  - done.
  - done.
  - unfold cp_space, cp_lparen, cp_rparen, cp_underscore. intros c Hc.
    repeat split; lia.
Qed.

(** ** Names *)





(** C7: the tag appended at line 270 of plot_hplc.py and removed at line
    321 round-trip: for every [x] that does not contain the tag, removing
    it from [x ++ tag] gives [x] back.  Hence [_clean_construct_name]
    cleans the tagged name as it cleans [x], and returns [x] itself when
    [x] needs no cleaning. *)
Theorem tag_round_trip (x : str) :
  contains p3distinct x = false ->
  remove_p3distinct (apply_p3distinct x) = x
  /\ _clean_construct_name (apply_p3distinct x) = _clean_construct_name x
  /\ (is_clean x -> _clean_construct_name (apply_p3distinct x) = x).
Proof.
  intros Hx. pose proof (remove_apply_p3distinct x Hx) as Hr.
  split; [done|]. unfold _clean_construct_name.
  rewrite Hr, (remove_p3distinct_absent x Hx). split; [done|].
  intros (-> & Hs & Hb). by rewrite Hs, Hb.
Qed.

(** The column SSS of page 3. *)
Lemma tag_round_trip_witness :
  contains p3distinct (lit "SSS") = false
  /\ remove_p3distinct (lit "SSS_p3distinct") = lit "SSS".
Proof.
  split; [reflexivity|].
  exact (proj1 (tag_round_trip (lit "SSS") eq_refl)).
Defined.


(** ** The order of the images *)




(** ** Pagination *)







(** ** One slide *)



(** ** Geometry *)




(** C2 fails in the code for the cover fit: [int] truncates the product of
    the native size and the rounded scale.  A picture of 1000 by 1000
    pixels at 300 dpi (3048000 EMU each way) in the cell of 1.92 by 1.6
    inches of [add_grid_slides] gets the width 1755647, one less than the
    cell width 1755648. *)
Theorem cover_one_short :
  Inches (F:=float) (of_dec 1.92) = Ok 1755648
  /\ Inches (F:=float) (of_dec 1.6) = Ok 1463040
  /\ fit_cover (F:=float) 1755648 1463040 3048000 3048000 = Ok (1755647, 1755647)
  /\ add_grid_slides (F:=float) (deck 9144000 6858000)
       [image (lit "sq") 3048000 3048000] 2 1 0
     = Ok (add_slide (deck 9144000 6858000)
             [Picture (lit "sq.png") 2816352 2551176 1755647 1755647]).
Proof. split; [|split; [|split]]; vm_compute; reflexivity. Qed.

(** C9 fails in the code for [grid_positions]: the origin is the centred
    one plus the margin, with no clamp.  With the constants of [main] (4 by
    4 pictures of 1.96 inches on a slide of 10 by 7.5 inches, margin 0.5)
    the top of the grid lies above the margin; with 5 rows it is
    negative. *)
Theorem grid_positions_unclamped :
  match grid_positions (F:=float) 4 4 (of_dec 1.96)
          (fmul (of_dec 1.96) (fdiv (of_dec 5.0) (of_dec 6.0)))
          (of_dec 0.05) (of_dec 0.2) (of_int 10) (of_dec 7.5) (of_dec 0.5) with
  | (x, y) :: _ => flt y (of_dec 0.5) = true /\ flt (of_dec 0.0) y = true
  | [] => False
  end
  /\ match grid_positions (F:=float) 5 4 (of_dec 1.96)
             (fmul (of_dec 1.96) (fdiv (of_dec 5.0) (of_dec 6.0)))
             (of_dec 0.05) (of_dec 0.2) (of_int 10) (of_dec 7.5) (of_dec 0.5) with
     | (x, y) :: _ => flt y (of_dec 0.0) = true
     | [] => False
     end.
Proof. split; vm_compute; [split|]; reflexivity. Qed.

(** ** Further facts *)



(** The margins [build_pptx] computes are clamped: each is the literal 0.0
    or a float above it, whatever the slide and the grid. *)
Theorem build_grid_margins (F : Type) (FL : PyFloat F) (per_row per_col : Z)
  (hspace_fixed vspace_fixed : option F) (slide_w_in slide_h_in : F) (g : grid) :
  build_grid per_row per_col hspace_fixed vspace_fixed slide_w_in slide_h_in = Ok g ->
  (margin_h g = of_dec 0.0 \/ flt (of_dec 0.0) (margin_h g) = true)
  /\ (margin_v g = of_dec 0.0 \/ flt (of_dec 0.0) (margin_v g) = true).
Proof.
  unfold build_grid. intros H. inv_bind H. injection H as <-. cbn.
  unfold py_max. split.
  - match goal with |- context [if flt ?a ?b then _ else _] =>
      destruct (flt a b) eqn:Hlt; [right; exact Hlt|by left] end.
  - match goal with |- context [if flt ?a ?b then _ else _] =>
      destruct (flt a b) eqn:Hlt; [right; exact Hlt|by left] end.
Qed.

(** One cell on the default slide, with a fixed spacing of 20 inches. *)
Lemma build_grid_margins_witness :
  exists g,
    build_grid (F:=float) 1 1 (Some (of_dec 20)) None (of_dec 13.3333333333)
      (of_dec 7.5) = Ok g
    /\ (margin_v g = of_dec 0.0 \/ flt (of_dec 0.0) (margin_v g) = true).
Proof.
  destruct (build_grid (F:=float) 1 1 (Some (of_dec 20)) None (of_dec 13.3333333333)
              (of_dec 7.5)) as [g|e] eqn:E.
  - exists g. split; [reflexivity|].
    exact (proj2 (build_grid_margins float binary64 1 1 (Some (of_dec 20)) None
                    (of_dec 13.3333333333) (of_dec 7.5) g E)).
  - exfalso. revert E. vm_compute. discriminate.
Defined.

(** [_clean_construct_name] does more than remove the tag: it also trims,
    so the tagged name of a padded column gives the trimmed name. *)
Theorem clean_name_trims :
  contains p3distinct (lit "SSS ") = false
  /\ _clean_construct_name (apply_p3distinct (lit "SSS ")) = lit "SSS"
  /\ _clean_construct_name (apply_p3distinct (lit "HPLC chromatogram - SSS"))
     = lit "SSS".
Proof. split; [|split]; vm_compute; reflexivity. Qed.

(* ===================================================================== *)
(** * Part VIII: facts about the further functions *)
(* ===================================================================== *)

Module NamesFacts.
Import Str Matcher Notions Names StrFacts.

(** ** Adjacent code points *)

Lemma adjacent_cons a b c s : adjacent a b s -> adjacent a b (c :: s).
Proof. intros (l & r & ->). by exists (c :: l), r. Qed.

Lemma adjacent_app_r a b t s : adjacent a b s -> adjacent a b (t ++ s).
Proof. intros (l & r & ->). exists (t ++ l), r. by rewrite <- app_assoc. Qed.

Lemma adjacent_reverse a b s : adjacent a b (reverse s) -> adjacent b a s.
Proof.
  intros (l & r & Hs). exists (reverse r), (reverse l).
  apply (f_equal reverse) in Hs. rewrite reverse_involutive in Hs.
  rewrite Hs, reverse_app, !reverse_cons. by rewrite <- !app_assoc.
Qed.

Lemma adjacent_inv a b c s :
  adjacent a b (c :: s) -> (c = a /\ head s = Some b) \/ adjacent a b s.
Proof.
  intros ([|x l] & r & Hs); simplify_eq/=; [by left|].
  right. by exists l, r.
Qed.

(** What [drop_while] removes. *)
Lemma drop_while_split p (s : str) :
  exists t, s = t ++ drop_while p s /\ Forall (fun c => p c = true) t.
Proof.
  induction s as [|c r (t & Ht & Hp)]; [by exists []|]. cbn.
  destruct (p c) eqn:Hc.
  - exists (c :: t). split; [by rewrite Ht at 1|by constructor].
  - by exists [].
Qed.

Lemma rstrip_by_split p (s : str) :
  exists t, s = rstrip_by p s ++ t /\ Forall (fun c => p c = true) t.
Proof.
  unfold rstrip_by. destruct (drop_while_split p (reverse s)) as (t & Ht & Hp).
  exists (reverse t). split; [|by apply Forall_reverse].
  rewrite <- reverse_app, <- Ht. by rewrite reverse_involutive.
Qed.

Lemma adjacent_drop_while a b p s :
  adjacent a b (drop_while p s) -> adjacent a b s.
Proof.
  destruct (drop_while_split p s) as (t & Ht & _). intros H.
  rewrite Ht. by apply adjacent_app_r.
Qed.

Lemma adjacent_strip_by a p s : adjacent a a (strip_by p s) -> adjacent a a s.
Proof.
  unfold strip_by, rstrip_by, lstrip_by. intros H.
  apply adjacent_reverse, adjacent_drop_while, adjacent_reverse in H.
  by apply adjacent_drop_while in H.
Qed.

(** ** The runs [sub_runs] replaces *)

Lemma sub_runs_Forall (P : N -> Prop) p u i (s : str) :
  P u -> (forall c, p c = false -> P c) -> Forall P (sub_runs p [u] i s).
Proof.
  intros Hu HP. revert i. induction s as [|c r IH]; intros i; cbn; [done|].
  destruct (p c) eqn:Hc.
  - destruct i; [apply IH|]. cbn. constructor; [done|apply IH].
  - constructor; [by apply HP|apply IH].
Qed.

Lemma sub_runs_head p u (s : str) :
  (forall c, p c = true <-> c = u) -> head (sub_runs p [u] true s) <> Some u.
Proof.
  intros Hp. induction s as [|c r IH]; cbn; [done|].
  destruct (p c) eqn:Hc; [done|]. cbn. intros [= ->].
  assert (p u = true) by by apply Hp. congruence.
Qed.

Lemma sub_runs_no_double p u i (s : str) :
  (forall c, p c = true <-> c = u) -> ~ adjacent u u (sub_runs p [u] i s).
Proof.
  intros Hp. revert i. induction s as [|c r IH]; intros i; cbn.
  - intros ([|??] & ? & ?); simplify_eq/=.
  - destruct (p c) eqn:Hc.
    + destruct i; [apply IH|]. cbn.
      intros [[_ Hh]|H]%adjacent_inv; [by apply (sub_runs_head p u r)|by apply (IH true)].
    + intros [[-> _]|H]%adjacent_inv; [|by apply (IH false)].
      assert (p u = true) by by apply Hp. congruence.
Qed.

Lemma sub_runs_id p rep (s : str) :
  Forall (fun c => p c = false) s -> sub_runs p rep false s = s.
Proof. induction 1 as [|c r Hc _ IH]; cbn; [done|]. by rewrite Hc, IH. Qed.

Lemma sub_runs_single_id p u (s : str) :
  (forall c, p c = true <-> c = u) -> ~ adjacent u u s ->
  sub_runs p [u] false s = s
  /\ (head s <> Some u -> sub_runs p [u] true s = s).
Proof.
  intros Hp. induction s as [|c r IH]; intros Hn; [done|]. cbn.
  assert (Hr : ~ adjacent u u r) by (intros H; by apply Hn, adjacent_cons).
  destruct (IH Hr) as [IH1 IH2].
  destruct (p c) eqn:Hc.
  - apply Hp in Hc as ->. split; [|by intros []].
    cbn. f_equal. apply IH2. intros Hh. apply Hn.
    destruct r as [|d r]; simplify_eq/=. by exists [], r.
  - by rewrite IH1.
Qed.

(** ** The pass [join_tokens] *)

Section Join.
Context {U : Unicode}.

Lemma after_sep_idem st : after_sep (after_sep st) = after_sep st.
Proof. by destruct st. Qed.

Lemma join_seps st (t s : str) :
  Forall (fun c => is_token c = false) t ->
  join_tokens (after_sep st) (t ++ s) = join_tokens (after_sep st) s.
Proof.
  induction 1 as [|c t Hc _ IH]; cbn; [done|].
  by rewrite Hc, after_sep_idem.
Qed.

Lemma join_seps_start (t s : str) :
  Forall (fun c => is_token c = false) t ->
  join_tokens Start (t ++ s) = join_tokens Start s.
Proof. apply (join_seps Start). Qed.

Lemma join_app_seps st (s t : str) :
  Forall (fun c => is_token c = false) t ->
  join_tokens st (s ++ t) = join_tokens st s.
Proof.
  intros Ht. revert st. induction s as [|c r IH]; intros st; cbn.
  - clear -Ht. revert st. induction Ht as [|c t Hc _ IH]; intros st; cbn; [done|].
    by rewrite Hc.
  - destruct (is_token c); [destruct st; by rewrite IH|apply IH].
Qed.

Lemma join_strip_by p (s : str) :
  (forall c, p c = true -> is_token c = false) ->
  join_tokens Start (strip_by p s) = join_tokens Start s.
Proof.
  intros Hp. unfold strip_by, lstrip_by.
  destruct (rstrip_by_split p (drop_while p s)) as (t & Ht & Hpt).
  destruct (drop_while_split p s) as (t0 & Ht0 & Hpt0).
  rewrite Ht0 at 2. rewrite join_seps_start by (eapply Forall_impl; eauto).
  rewrite Ht at 2. rewrite join_app_seps by (eapply Forall_impl; eauto). done.
Qed.

Lemma join_map (f : N -> N) st (s : str) :
  (forall c, is_token c = true -> f c = c) ->
  (forall c, is_token c = false -> is_token (f c) = false) ->
  join_tokens st (map f s) = join_tokens st s.
Proof.
  intros Hf Hs. revert st. induction s as [|c r IH]; intros st; cbn; [done|].
  destruct (is_token c) eqn:Hc.
  - rewrite (Hf _ Hc), Hc. destruct st; by rewrite IH.
  - rewrite (Hs _ Hc). apply IH.
Qed.

Lemma join_sub_runs p (s : str) :
  (forall c, p c = true -> is_token c = false) ->
  forall st,
    join_tokens st (sub_runs p [cp_underscore] false s) = join_tokens st s
    /\ join_tokens (after_sep st) (sub_runs p [cp_underscore] true s)
       = join_tokens (after_sep st) s.
Proof.
  intros Hp. induction s as [|c r IH]; intros st; [done|]. cbn.
  destruct (p c) eqn:Hc.
  - rewrite (Hp _ Hc). cbn. rewrite after_sep_idem.
    split; apply (IH st).
  - destruct (is_token c) eqn:Ht.
    + split; [destruct st|destruct (after_sep st)]; cbn; rewrite Ht;
        by rewrite (proj1 (IH Inside)).
    + cbn. rewrite Ht, after_sep_idem. split; apply (IH (after_sep st)).
Qed.

(** A string [join_tokens] gives back as it is. *)
Lemma join_fixed (s : str) :
  Forall (fun c => is_token c = true \/ c = cp_underscore) s ->
  ~ adjacent cp_underscore cp_underscore s ->
  last s <> Some cp_underscore ->
  join_tokens Inside s = s
  /\ (head s <> Some cp_underscore -> join_tokens Start s = s).
Proof.
  assert (Hu : is_token cp_underscore = false) by done.
  induction 1 as [|c r Hc Hr IH]; intros Hn Hl; [done|].
  assert (Hnr : ~ adjacent cp_underscore cp_underscore r)
    by (intros H; by apply Hn, adjacent_cons).
  assert (Hlr : last r <> Some cp_underscore).
  { intros H. apply Hl. destruct r; [done|]. done. }
  destruct (IH Hnr Hlr) as [IH1 IH2]. cbn.
  destruct Hc as [Hc| ->].
  - rewrite Hc, IH1. by split.
  - rewrite Hu. split; [|by intros []]. cbn.
    destruct r as [|d r]; [by destruct Hl|].
    inversion Hr as [|? ? [Hd| ->] Hr']; subst.
    + cbn. rewrite Hd. cbn in IH1. rewrite Hd in IH1. by injection IH1 as ->.
    + destruct Hn. by exists [], r.
Qed.

End Join.

Lemma sub_runs_Forall_keep (P : N -> Prop) p u i (s : str) :
  P u -> Forall P s -> Forall P (sub_runs p [u] i s).
Proof.
  intros Hu Hs. revert i. induction Hs as [|c r Hc _ IH]; intros i; cbn; [done|].
  destruct (p c).
  - destruct i; [apply IH|]. cbn. constructor; [done|apply IH].
  - constructor; [done|apply IH].
Qed.

Lemma head_ok_head p (s : str) u :
  p u = true -> head_ok p s -> head s <> Some u.
Proof. destruct s as [|c r]; cbn; [done|]. intros Hu Hc [= ->]. congruence. Qed.

(** ** [_norm_name] as one pass *)

Section Key.
Context {U : Unicode}.

Lemma in_chars_underscore c :
  in_chars (lit "_") c = true <-> c = cp_underscore.
Proof.
  unfold in_chars. cbn. rewrite orb_false_r. apply N.eqb_eq.
Qed.

Lemma eqb_underscore c : (c =? cp_underscore)%N = true <-> c = cp_underscore.
Proof. apply N.eqb_eq. Qed.

Lemma not_word_not_token c :
  negb (is_word c || (c =? cp_minus)%N) = true -> is_token c = false.
Proof.
  unfold is_token. destruct (is_word c), (c =? cp_minus)%N; cbn; done.
Qed.

Lemma word_token c :
  negb (is_word c || (c =? cp_minus)%N) = false ->
  is_token c = true \/ c = cp_underscore.
Proof.
  unfold is_token. destruct (c =? cp_underscore)%N eqn:Hu.
  - apply N.eqb_eq in Hu. by right.
  - destruct (is_word c), (c =? cp_minus)%N; cbn; auto; done.
Qed.

(** The pieces of the key: token characters and single underscores, none
    at either end. *)
Lemma norm_name_pieces (x : str) :
  Forall (fun c => is_token c = true \/ c = cp_underscore) (_norm_name x)
  /\ ~ adjacent cp_underscore cp_underscore (_norm_name x)
  /\ head (_norm_name x) <> Some cp_underscore
  /\ last (_norm_name x) <> Some cp_underscore.
Proof.
  unfold _norm_name. change (lit "_") with [cp_underscore].
  set (s1 := replace _ _ _).
  set (s2 := sub_runs _ _ false s1).
  set (s3 := sub_runs _ _ false s2).
  pose proof (strip_by_ends_ok (in_chars [cp_underscore]) s3) as [Hh Hl].
  assert (Hu : in_chars [cp_underscore] cp_underscore = true) by done.
  split; [|split; [|split]].
  - apply Forall_strip_by, sub_runs_Forall_keep; [by right|].
    apply sub_runs_Forall; [by right|apply word_token].
  - intros H%adjacent_strip_by. revert H.
    apply sub_runs_no_double, eqb_underscore.
  - by eapply head_ok_head.
  - rewrite <- head_reverse. by eapply head_ok_head.
Qed.

Context {laws : WordLaws U}.

Lemma isspace_ascii c : (c < 128)%N -> isspace c = true -> (c <= 32)%N.
Proof. intros Hc. unfold isspace. split_cmp. Qed.

Lemma space_not_token c : isspace c = true -> is_token c = false.
Proof.
  intros Hs. unfold is_token, is_word.
  destruct (N.ltb_spec c 128) as [Hc|Hc].
  - pose proof (isspace_ascii c Hc Hs).
    unfold is_ascii_upper, is_ascii_lower, is_ascii_digit, cp_underscore, cp_minus.
    split_cmp.
  - destruct (unicode_isalnum c) eqn:Ha.
    + rewrite (alnum_not_space c Hc Ha) in Hs. done.
    + cbn. apply N.eqb_neq. unfold cp_minus. lia.
Qed.

(** [_norm_name] is [join_tokens]. *)
Lemma norm_name_join (x : str) : _norm_name x = join_tokens Start x.
Proof.
  destruct (norm_name_pieces x) as (Hf & Hn & Hh & Hl).
  rewrite <- (proj2 (join_fixed _ Hf Hn Hl) Hh).
  unfold _norm_name. change (lit "_") with [cp_underscore].
  change (lit " ") with [cp_space].
  rewrite join_strip_by
    by (intros c ->%in_chars_underscore; done).
  rewrite (proj1 (join_sub_runs _ _ ltac:(by intros c ->%eqb_underscore) Start)).
  rewrite (proj1 (join_sub_runs _ _ not_word_not_token Start)).
  rewrite replace_char_map, join_map.
  - apply join_strip_by, space_not_token.
  - intros c Hc. destruct (N.eqb_spec cp_space c) as [<-|]; done.
  - intros c Hc. destruct (cp_space =? c)%N; done.
Qed.

Lemma norm_name_idem (x : str) : _norm_name (_norm_name x) = _norm_name x.
Proof.
  rewrite (norm_name_join (_norm_name x)).
  destruct (norm_name_pieces x) as (Hf & Hn & Hh & Hl).
  exact (proj2 (join_fixed _ Hf Hn Hl) Hh).
Qed.

End Key.

(** ** The picture of a column and its key *)

Lemma endswith_app (s p : str) : endswith (s ++ p) p = true.
Proof.
  unfold endswith. rewrite reverse_app. apply startswith_prefix.
  by apply prefix_app_r.
Qed.

Lemma startswith_contains (p s : str) : startswith p s = true -> contains p s = true.
Proof. destruct s; cbn; intros ->; done. Qed.

Lemma contains_app_l (p a s : str) : contains p s = true -> contains p (a ++ s) = true.
Proof.
  intros H. induction a as [|c a IH]; [done|]. cbn [app contains].
  rewrite IH. apply orb_true_r.
Qed.

Lemma endswith_contains (s p : str) : endswith s p = true -> contains p s = true.
Proof.
  unfold endswith. intros [t Ht]%startswith_prefix.
  apply (f_equal reverse) in Ht.
  rewrite reverse_involutive, reverse_app, reverse_involutive in Ht.
  rewrite Ht. by apply contains_app_l, startswith_contains, startswith_prefix.
Qed.

Lemma base_name_chrom (s sfx : str) :
  base_name {| stem := s ++ lit "_chrom"; suffix := sfx |} = s.
Proof.
  unfold base_name. cbn [stem]. rewrite endswith_app.
  rewrite length_app. cbn [length lit]. 
  replace (length s + length (lit "_chrom") - 6)%nat with (length s) by (cbn; lia).
  by rewrite take_app_length.
Qed.

Section Saved.
Context {U : Unicode}.


Lemma join_map_Forall (f : N -> N) st (s : str) :
  Forall (fun c => (is_token c = true -> f c = c)
                   /\ (is_token c = false -> is_token (f c) = false)) s ->
  join_tokens st (map f s) = join_tokens st s.
Proof.
  intros Hs. revert st. induction Hs as [|c r [Hf Hn] _ IH]; intros st; cbn; [done|].
  destruct (is_token c) eqn:Hc.
  - rewrite (Hf eq_refl), Hc. destruct st; by rewrite IH.
  - rewrite (Hn eq_refl). apply IH.
Qed.

Lemma safe_char_token c :
  (c < 128)%N \/ unicode_isalnum c = false ->
  (is_token c = true -> is_safe_char c = true)
  /\ (is_safe_char c = true -> is_token c = false -> is_token c = false).
Proof.
  intros Hc. split; [|done].
  unfold is_token, is_word, is_safe_char.
  destruct (N.ltb_spec c 128) as [Hlt|Hge].
  - destruct (is_ascii_upper c), (is_ascii_lower c), (is_ascii_digit c); cbn; try done.
    destruct (c =? cp_underscore)%N; cbn; [by rewrite orb_true_r|].
    destruct (c =? cp_minus)%N; [by rewrite !orb_true_r|done].
  - destruct Hc as [?|Ha]; [lia|]. rewrite Ha. cbn.
    destruct (c =? cp_minus)%N; [by rewrite !orb_true_r|done].
Qed.

Lemma join_safe_name st (x : str) :
  ascii_words x -> join_tokens st (safe_name x) = join_tokens st x.
Proof.
  intros Hx. unfold safe_name. apply join_map_Forall.
  eapply Forall_impl; [exact Hx|]. intros c Hc. cbn beta.
  destruct (safe_char_token c Hc) as [Ht _]. split.
  - intros H. by rewrite (Ht H).
  - intros H. destruct (is_safe_char c); done.
Qed.

Context {laws : WordLaws U}.

Lemma key_of_saved (base sfx : str) :
  ascii_words base ->
  key_of {| stem := safe_name base ++ lit "_chrom"; suffix := sfx |}
  = _norm_name base.
Proof.
  intros Hb. unfold key_of. rewrite base_name_chrom.
  by rewrite !norm_name_join, join_safe_name.
Qed.

Lemma clean_name_clean (x : str) :
  contains p3distinct x = false -> is_clean x -> _clean_construct_name x = x.
Proof.
  intros Hx (Hp & Hs & Hb). unfold _clean_construct_name.
  by rewrite (remove_p3distinct_absent x Hx), Hp, !Hs, Hb.
Qed.

Lemma chrom_png_keys (col : str) :
  ascii_words col -> contains p3distinct col = false -> is_clean col ->
  key_of (chrom_png col) = _norm_name col
  /\ key_of (chrom_png (apply_p3distinct col)) = _norm_name (col ++ p3distinct).
Proof.
  intros Ha Hx Hc. unfold chrom_png. split.
  - destruct (endswith col p3distinct) eqn:He.
    + apply endswith_contains in He. congruence.
    + rewrite (clean_name_clean col Hx Hc). by apply key_of_saved.
  - unfold apply_p3distinct at 1. rewrite endswith_app.
    assert (_clean_construct_name (apply_p3distinct col) = col) as ->.
    { unfold _clean_construct_name. rewrite (remove_apply_p3distinct col Hx).
      destruct Hc as (Hp & Hs & Hb). by rewrite Hp, !Hs, Hb. }
    apply key_of_saved. apply Forall_app. split; [done|].
    unfold p3distinct. repeat constructor; left; done.
Qed.

End Saved.

(** ** Letter case and the MALDI normaliser *)

Lemma drop_while_map (f : N -> N) p (s : str) :
  (forall c, p (f c) = p c) ->
  drop_while p (map f s) = map f (drop_while p s).
Proof.
  intros Hf. induction s as [|c r IH]; cbn; [done|].
  rewrite Hf. by destruct (p c).
Qed.

Lemma strip_by_map (f : N -> N) p (s : str) :
  (forall c, p (f c) = p c) ->
  strip_by p (map f s) = map f (strip_by p s).
Proof.
  intros Hf. unfold strip_by, rstrip_by, lstrip_by.
  rewrite (drop_while_map f p s Hf).
  pose proof (fmap_reverse (A:=N) f) as Hrev. unfold fmap, list_fmap in Hrev.
  fold (map f) in Hrev.
  by rewrite <- Hrev, (drop_while_map f p _ Hf), <- Hrev.
Qed.

Lemma filter_map_same (f : N -> N) (P : N -> Prop) `{!forall x, Decision (P x)}
  (s : str) :
  (forall c, P (f c) <-> P c) -> filter P (map f s) = map f (filter P s).
Proof.
  intros Hf. induction s as [|c r IH]; [done|]. cbn [map].
  rewrite !filter_cons. destruct (decide (P (f c))) as [H1|H1], (decide (P c)) as [H2|H2].
  - cbn. by rewrite IH.
  - destruct H2. by apply Hf.
  - destruct H1. by apply Hf.
  - done.
Qed.

Section Case.
Context {U : Unicode} {laws : LowerLaws U} {case_laws : CaseLaws U}.

Lemma lower_cp_is_zero_width c : is_zero_width (lower_cp c) = is_zero_width c.
Proof.
  destruct (is_zero_width c) eqn:Hz; [|by apply lower_cp_zero_width].
  destruct (N.lt_ge_cases c 128) as [Hc|Hc].
  - exfalso. revert Hz. unfold is_zero_width. split_cmp.
  - by rewrite (lower_cp_beyond c Hc), (lower_of_zero_width c Hc Hz).
Qed.

Lemma lower_cp_isspace c : isspace (lower_cp c) = isspace c.
Proof.
  destruct (isspace c) eqn:Hs; [|by apply lower_cp_space].
  destruct (N.lt_ge_cases c 128) as [Hc|Hc].
  - pose proof (isspace_ascii c Hc Hs). rewrite (lower_cp_ascii c Hc).
    unfold is_ascii_upper. destruct (N.leb_spec 65 c); [lia|]. done.
  - by rewrite (lower_cp_beyond c Hc), (lower_of_space c Hc Hs).
Qed.

Lemma core_lower (x : str) : core (lower x) = lower (core x).
Proof.
  unfold core, lower, strip.
  rewrite (filter_map_same lower_cp not_zero_width).
  2:{ intros c. unfold not_zero_width. by rewrite lower_cp_is_zero_width. }
  rewrite (strip_by_map lower_cp isspace _ lower_cp_isspace).
  rewrite (filter_map_same lower_cp not_space).
  2:{ intros c. unfold not_space.
      pose proof (lower_cp_delim c cp_space (or_introl eq_refl)) as Hd.
      destruct (N.eqb_spec (lower_cp c) cp_space), (N.eqb_spec c cp_space);
        done. }
  apply paren_scan_map.
  - intros c. apply lower_cp_delim. auto.
  - intros c. apply lower_cp_delim. auto.
  - apply lower_cp_fix_sep.
Qed.

Lemma normalize_lower (x : str) :
  _normalize_name_for_match x = core (lower x).
Proof. by rewrite normalize_core, core_lower. Qed.

End Case.

End NamesFacts.

Module OrderFacts.
Import Str Matcher Notions Names MatcherFacts.

Section WithTables.
Context {U : Unicode}.

Lemma build_img_map_from imgs k p : build_img_map imgs !! k = Some p -> p ∈ imgs.
Proof.
  unfold build_img_map.
  assert (Hgen : forall m : gmap (list N) Path,
            foldl (fun m p => <[ key_of p := p ]> m) m imgs !! k = Some p ->
            m !! k = Some p \/ p ∈ imgs).
  { induction imgs as [|q imgs IH]; intros m; cbn; [by left|].
    intros [Hm|Hin]%IH; [|right; by right].
    apply lookup_insert_Some in Hm as [[_ <-]|[_ Hm]]; [right; by left|by left]. }
  intros [Hm|Hin]%Hgen; [by rewrite lookup_empty in Hm|done].
Qed.

Lemma build_img_map_has imgs p :
  p ∈ imgs -> is_Some (build_img_map imgs !! key_of p).
Proof.
  unfold build_img_map.
  assert (Hgen : forall m : gmap (list N) Path,
            is_Some (m !! key_of p) \/ p ∈ imgs ->
            is_Some (foldl (fun m p => <[ key_of p := p ]> m) m imgs !! key_of p)).
  { induction imgs as [|q imgs IH]; intros m; cbn.
    - intros [?|Hin]; [done|by apply elem_of_nil in Hin].
    - intros [Hm|[->|Hin]%elem_of_cons]; apply IH.
      + left. rewrite lookup_insert_is_Some. destruct (decide (key_of q = key_of p)); auto.
      + left. rewrite lookup_insert_is_Some. auto.
      + by right. }
  intros Hin. apply Hgen. by right.
Qed.

Lemma tidy_emit imgs st k p :
  tidy imgs st -> key_of p = k -> p ∈ imgs -> k ∉ seen_keys st ->
  tidy imgs {| ordered_imgs := ordered_imgs st ++ [p];
               seen_keys := {[ k ]} ∪ seen_keys st |}.
Proof.
  intros [Hf Hk Hs] Hkey Hin Hnew. split; cbn.
  - intros q [Hq| ->%list_elem_of_singleton]%elem_of_app; auto.
  - rewrite fmap_app. apply NoDup_app. split; [done|]. cbn. split; [|apply NoDup_singleton].
    intros k' Hk' ->%list_elem_of_singleton. apply Hnew. rewrite <- Hkey. by apply Hs.
  - intros k'. rewrite fmap_app, elem_of_app, elem_of_union, elem_of_singleton, Hs.
    cbn. rewrite list_elem_of_singleton. rewrite Hkey. tauto.
Qed.

Lemma tidy_add_plain imgs st c :
  tidy imgs st -> tidy imgs (add_plain (build_img_map imgs) st c).
Proof.
  intros Ht. unfold add_plain.
  destruct (build_img_map imgs !! _norm_name c) as [p|] eqn:Hk; [|done].
  destruct (decide _) as [|Hnew]; [done|].
  apply tidy_emit; [done|by apply (build_img_map_keyed imgs)
                   |by eapply build_img_map_from|done].
Qed.

Lemma tidy_add_construct imgs sfx st c :
  tidy imgs st -> tidy imgs (add_construct (build_img_map imgs) sfx st c).
Proof.
  intros Ht. unfold add_construct.
  pose proof (tidy_add_plain imgs st c Ht) as Hp.
  destruct sfx as [[|x sfx]|]; cbn beta iota; [done|..|done].
  destruct (build_img_map imgs !! _norm_name (c ++ x :: sfx)) as [p|] eqn:Hk; [|done].
  destruct (decide _) as [|Hnew]; [done|].
  apply tidy_emit; [done|by apply (build_img_map_keyed imgs)
                   |by eapply build_img_map_from|done].
Qed.

Lemma tidy_add_pages imgs st sources :
  tidy imgs st -> tidy imgs (add_pages (build_img_map imgs) st sources).
Proof.
  unfold add_pages. revert st.
  induction sources as [|[cs sfx] srcs IH]; intros st Ht; [done|].
  cbn. apply IH. unfold add_page_constructs. clear IH. revert st Ht.
  induction cs as [|c cs IHc]; intros st Ht; [done|].
  cbn. by apply IHc, tidy_add_construct.
Qed.

Lemma tidy_add_remaining imgs st l :
  tidy imgs st -> (forall p, p ∈ l -> p ∈ imgs) ->
  tidy imgs (add_remaining st l)
  /\ (forall k, k ∈ seen_keys st -> k ∈ seen_keys (add_remaining st l))
  /\ (forall p, p ∈ l -> key_of p ∈ seen_keys (add_remaining st l)).
Proof.
  unfold add_remaining. revert st.
  induction l as [|q l IH]; intros st Ht Hl.
  - split; [done|]. split; [done|]. intros p Hp. by apply elem_of_nil in Hp.
  - cbn [foldl].
    set (st1 := if decide (key_of q ∈ seen_keys st) then st else _).
    assert (Ht1 : tidy imgs st1).
    { unfold st1. destruct (decide _); [done|].
      apply tidy_emit; [done|done|apply Hl; by left|done]. }
    assert (Hq : key_of q ∈ seen_keys st1).
    { unfold st1. destruct (decide _); [done|]. cbn.
      by apply elem_of_union_l, elem_of_singleton. }
    assert (Hmono : forall k, k ∈ seen_keys st -> k ∈ seen_keys st1).
    { unfold st1. destruct (decide _); [done|]. cbn.
      intros k Hk. by apply elem_of_union_r. }
    destruct (IH st1 Ht1) as (H1 & H2 & H3); [intros p Hp; apply Hl; by right|].
    split; [done|]. split; [by auto|].
    intros p [->|Hp]%elem_of_cons; [by apply H2|by apply H3].
Qed.

Lemma tidy_empty imgs : tidy imgs empty_state.
Proof.
  split; cbn.
  - intros p Hp. by apply elem_of_nil in Hp.
  - apply NoDup_nil_2.
  - intros k. rewrite elem_of_empty, elem_of_nil. tauto.
Qed.

(** One image per key comes out, and all of them when the keys differ. *)
Lemma order_images_keys imgs sources :
  (forall p, p ∈ order_images imgs sources -> p ∈ imgs)
  /\ NoDup (key_of <$> order_images imgs sources)
  /\ (forall p, p ∈ imgs -> key_of p ∈ key_of <$> order_images imgs sources).
Proof.
  unfold order_images.
  pose proof (tidy_add_pages imgs empty_state sources (tidy_empty imgs)) as Ht.
  destruct (tidy_add_remaining imgs _ imgs Ht) as ([Hf Hk Hs] & _ & Hall); [done|].
  split; [done|]. split; [done|]. intros p Hp. by apply Hs, Hall.
Qed.

Lemma order_images_perm imgs sources :
  NoDup (key_of <$> imgs) -> order_images imgs sources ≡ₚ imgs.
Proof.
  intros Hn. destruct (order_images_keys imgs sources) as (Hf & Hk & Hall).
  apply NoDup_Permutation.
  - by eapply NoDup_fmap_1.
  - by eapply NoDup_fmap_1.
  - intros p. split; [apply Hf|]. intros Hp.
    pose proof (Hall p Hp) as Hq0.
    apply list_elem_of_fmap in Hq0 as (q & Hq & Hin).
    pose proof (Hf q Hin) as Hqi.
    assert (q = p) as <-; [|done].
    apply list_elem_of_lookup in Hqi as [i Hi]. apply list_elem_of_lookup in Hp as [j Hj].
    assert (i = j) as ->.
    { eapply NoDup_lookup; [exact Hn| |]; rewrite list_lookup_fmap.
      - by rewrite Hi.
      - rewrite Hj. cbn. by rewrite Hq. }
    congruence.
Qed.

(** ** The allowed set of [main] *)

Lemma elem_of_build_allowed (pages : list (list str)) k :
  k ∈ build_allowed pages
  <-> exists pg c, pg ∈ pages /\ c ∈ pg
        /\ (k = _norm_name c \/ k = _norm_name (c ++ lit "_p3distinct")).
Proof.
  unfold build_allowed.
  set (step := fun (allowed : gset str) (c : str) =>
                 {[ _norm_name (c ++ lit "_p3distinct") ]} ∪ ({[ _norm_name c ]} ∪ allowed)).
  assert (Hpg : forall (pg : list str) (a : gset str),
            k ∈ foldl step a pg
            <-> k ∈ a \/ exists c, c ∈ pg
                  /\ (k = _norm_name c \/ k = _norm_name (c ++ lit "_p3distinct"))).
  { induction pg as [|c pg IH]; intros a; cbn [foldl].
    - split; [by left|]. intros [?|(c & Hc & _)]; [done|by apply elem_of_nil in Hc].
    - rewrite IH. unfold step.
      rewrite !elem_of_union, !elem_of_singleton. split.
      + intros [[->|[->|Ha]]|(c' & Hc' & H')].
        * right. exists c. split; [by left|by right].
        * right. exists c. split; [by left|by left].
        * by left.
        * right. exists c'. split; [by right|done].
      + intros [Ha|(c' & [->|Hc']%elem_of_cons & H')].
        * left. by right; right.
        * left. destruct H' as [->| ->]; [right; by left|by left].
        * right. by exists c'. }
  assert (Hall : forall (pgs : list (list str)) (a : gset str),
            k ∈ foldl (fun allowed pg => foldl step allowed pg) a pgs
            <-> k ∈ a \/ exists pg c, pg ∈ pgs /\ c ∈ pg
                  /\ (k = _norm_name c \/ k = _norm_name (c ++ lit "_p3distinct"))).
  { induction pgs as [|pg pgs IH]; intros a; cbn [foldl].
    - split; [by left|]. intros [?|(pg & c & Hpg' & _)]; [done|by apply elem_of_nil in Hpg'].
    - rewrite IH, Hpg. split.
      + intros [[Ha|(c & Hc & H')]|(pg' & c & Hp' & Hc & H')].
        * by left.
        * right. exists pg, c. split; [by left|done].
        * right. exists pg', c. split; [by right|done].
      + intros [Ha|(pg' & c & [->|Hp']%elem_of_cons & Hc & H')].
        * left. by left.
        * left. right. by exists c.
        * right. by exists pg', c. }
  rewrite Hall. rewrite elem_of_empty. split; [intros [[]|?]; done|by right].
Qed.

Lemma filter_allowed_sublist allowed imgs : filter_allowed allowed imgs `sublist_of` imgs.
Proof.
  unfold filter_allowed. destruct (decide _); [done|]. apply sublist_filter.
Qed.

Lemma elem_of_filter_allowed allowed imgs p :
  p ∈ filter_allowed allowed imgs
  <-> p ∈ imgs /\ (allowed = ∅ \/ key_of p ∈ allowed).
Proof.
  unfold filter_allowed. destruct (decide (allowed = ∅)) as [->|Hne].
  - split; [intros ?; split; [done|by left]|by intros [? _]].
  - rewrite list_elem_of_filter. split.
    + intros [? ?]. split; [done|by right].
    + intros [? [?|?]]; done.
Qed.

Lemma main_order_keys imgs page1 page2 page3 page4 p :
  p ∈ main_order imgs page1 page2 page3 page4 ->
  p ∈ imgs
  /\ (page1 ++ page2 ++ page3 ++ page4 <> [] ->
      exists c, c ∈ page1 ++ page2 ++ page3 ++ page4
        /\ (key_of p = _norm_name c \/ key_of p = _norm_name (c ++ lit "_p3distinct"))).
Proof.
  unfold main_order. intros Hp.
  apply (proj1 (order_images_keys _ _)) in Hp.
  apply elem_of_filter_allowed in Hp as [Hin Hal]. split; [done|].
  intros Hne.
  assert (Hk : key_of p ∈ build_allowed [page1; page2; page3; page4]).
  { destruct Hal as [He|?]; [|done]. exfalso.
    destruct (page1 ++ page2 ++ page3 ++ page4) as [|c l] eqn:Hl; [done|].
    assert (Hc : c ∈ page1 ++ page2 ++ page3 ++ page4) by (rewrite Hl; by left).
    assert (_norm_name c ∈ build_allowed [page1; page2; page3; page4]) as Hin'.
    { apply elem_of_build_allowed.
      rewrite !elem_of_app in Hc.
      destruct Hc as [Hc|[Hc|[Hc|Hc]]];
        [exists page1|exists page2|exists page3|exists page4];
        exists c; (split; [|split; [done|by left]]).
      - by left.
      - right; by left.
      - right; right; by left.
      - right; right; right; by left. }
    rewrite He in Hin'. by apply elem_of_empty in Hin'. }
  apply elem_of_build_allowed in Hk as (pg & c & Hpg & Hc & Hkey).
  exists c. split; [|done]. rewrite !elem_of_app.
  rewrite !elem_of_cons in Hpg.
  destruct Hpg as [->|[->|[->|[->|Hnil]]]]; auto.
  by apply elem_of_nil in Hnil.
Qed.

Lemma main_order_perm imgs page1 page2 page3 page4 :
  NoDup (key_of <$> imgs) ->
  main_order imgs page1 page2 page3 page4
  ≡ₚ filter_allowed (build_allowed [page1; page2; page3; page4]) imgs.
Proof.
  intros Hn. unfold main_order. apply order_images_perm.
  eapply sublist_NoDup; [exact Hn|]. apply fmap_sublist, filter_allowed_sublist.
Qed.

End WithTables.
End OrderFacts.

Module PeaksFacts.
Import Peaks.

Lemma extend_spec (mask : list bool) fuel j :
  (j < length mask)%nat -> (length mask - j <= fuel)%nat ->
  exists j', extend fuel mask (length mask) j = Some j'
    /\ (j <= j' < length mask)%nat
    /\ (forall k, (j < k <= j')%nat -> mask !! k = Some true)
    /\ mask !! (j' + 1)%nat <> Some true.
Proof.
  revert j. induction fuel as [|fuel IH]; intros j Hj Hf; [lia|]. cbn [extend].
  destruct (Nat.ltb_spec (j + 1) (length mask)) as [Hlt|Hge].
  - destruct (lookup_lt_is_Some_2 mask (j + 1)%nat Hlt) as [[|] Hb]; rewrite Hb.
    + destruct (IH (j + 1)%nat) as (j' & He & Hr & Ht & Hn); [lia|lia|].
      exists j'. split; [done|]. split; [lia|]. split; [|done].
      intros k Hk. destruct (decide (k = j + 1)%nat) as [->|]; [done|].
      apply Ht. lia.
    + exists j. split; [done|]. split; [lia|]. split; [intros; lia|].
      by rewrite Hb.
  - exists j. split; [done|]. split; [lia|]. split; [intros; lia|].
    rewrite lookup_ge_None_2 by lia. done.
Qed.

Lemma separated_weaken lo lo' segs :
  (lo' <= lo)%nat -> separated lo segs -> separated lo' segs.
Proof. destruct segs as [|[a b] r]; cbn; [done|]. intros ? (? & ? & ?). repeat split; [lia|done..]. Qed.

Lemma segments_from_spec (mask : list bool) fuel i :
  (length mask - i < fuel)%nat ->
  (mask !! i = Some true -> i = 0%nat \/ mask !! (i - 1)%nat = Some false) ->
  exists segs, segments_from fuel mask (length mask) i = Some segs
    /\ Forall (is_run mask) segs
    /\ separated i segs
    /\ (forall k, (i <= k)%nat -> mask !! k = Some true ->
          exists a b, (a, b) ∈ segs /\ (a <= k <= b)%nat).
Proof.
  revert i. induction fuel as [|fuel IH]; intros i Hf Hi; [lia|]. cbn [segments_from].
  destruct (Nat.ltb_spec i (length mask)) as [Hlt|Hge].
  - destruct (lookup_lt_is_Some_2 mask i Hlt) as [[|] Hb]; rewrite Hb.
    + destruct (extend_spec mask (length mask) i Hlt) as (j & -> & Hr & Ht & Hn); [lia|].
      destruct (IH (j + 1)%nat) as (segs & -> & Hruns & Hsep & Hcov); [lia| |].
      { intros Htrue. done. }
      exists ((i, j) :: segs). split; [done|]. split; [|split].
      * constructor; [|done]. split; [lia|]. split; [|split; [by apply Hi|done]].
        intros k Hk. destruct (decide (k = i)) as [->|]; [done|]. apply Ht. lia.
      * cbn. split; [lia|]. split; [lia|].
        destruct segs as [|[a b] r]; [done|]. cbn in *.
        destruct Hsep as (Ha & Hab & Hsep). split; [|done].
        destruct (decide (a = j + 1)%nat) as [->|]; [|lia].
        apply Forall_cons in Hruns as [(_ & Hall & _) _].
        destruct Hn. apply Hall. lia.
      * intros k Hk Htrue. destruct (decide (k <= j)%nat).
        -- exists i, j. split; [by left|lia].
        -- destruct (Hcov k) as (a & b & Hin & Hab); [lia|done|].
           exists a, b. split; [by right|done].
    + destruct (IH (i + 1)%nat) as (segs & -> & Hruns & Hsep & Hcov); [lia| |].
      { intros _. right. by replace (i + 1 - 1)%nat with i by lia. }
      exists segs. split; [done|]. split; [done|]. split.
      * eapply separated_weaken; [|done]. lia.
      * intros k Hk Htrue. destruct (decide (k = i)) as [->|]; [congruence|].
        apply Hcov; [lia|done].
  - exists []. split; [done|]. split; [constructor|]. split; [done|].
    intros k Hk Htrue. apply lookup_lt_Some in Htrue. lia.
Qed.

Lemma segments_spec (mask : list bool) :
  exists segs, segments mask = Some segs
    /\ Forall (is_run mask) segs
    /\ separated 0 segs
    /\ (forall k, mask !! k = Some true ->
          exists a b, (a, b) ∈ segs /\ (a <= k <= b)%nat).
Proof.
  destruct (segments_from_spec mask (S (length mask)) 0) as (segs & H1 & H2 & H3 & H4);
    [lia|by left|].
  exists segs. split; [done|]. split; [done|]. split; [done|].
  intros k. apply H4. lia.
Qed.

End PeaksFacts.

Module LayoutFacts.
Import Str Py Deck Notions PyFacts DeckFacts ExactFacts.

(** ** [grid_positions] *)

Lemma length_flat_map_const {A B} (f : A -> list B) (m : nat) (l : list A) :
  (forall x, length (f x) = m) -> length (flat_map f l) = (length l * m)%nat.
Proof.
  intros Hf. induction l as [|x l IH]; cbn; [done|].
  by rewrite length_app, Hf, IH.
Qed.

Lemma lookup_flat_map_const {A B} (f : A -> list B) (m : nat) (l : list A) i j a :
  (forall x, length (f x) = m) -> l !! i = Some a -> (j < m)%nat ->
  flat_map f l !! (i * m + j)%nat = f a !! j.
Proof.
  intros Hf. revert i. induction l as [|x l IH]; intros i Hi Hj; [done|].
  cbn [flat_map]. destruct i as [|i]; cbn in Hi.
  - injection Hi as ->. cbn. apply lookup_app_l. by rewrite Hf.
  - rewrite lookup_app_r by (rewrite Hf; cbn; lia).
    rewrite Hf. replace (S i * m + j - m)%nat with (i * m + j)%nat by (cbn; lia).
    by apply IH.
Qed.

Lemma length_indices n : length (indices n) = Z.to_nat n.
Proof. unfold indices. by rewrite length_map, length_seq. Qed.

Lemma lookup_indices n (i : nat) :
  (i < Z.to_nat n)%nat -> indices n !! i = Some (Z.of_nat i).
Proof.
  intros Hi. unfold indices.
  change (map Z.of_nat) with (fmap (M:=list) Z.of_nat).
  rewrite list_lookup_fmap, lookup_seq_lt by done. done.
Qed.

Section WithFloat.
Context {F : Type} {FL : PyFloat F}.

Lemma grid_positions_length rows cols img_w img_h hspace vspace page_w page_h margin :
  length (grid_positions rows cols img_w img_h hspace vspace page_w page_h margin)
  = (Z.to_nat rows * Z.to_nat cols)%nat.
Proof.
  unfold grid_positions.
  rewrite (length_flat_map_const _ (Z.to_nat cols)).
  - by rewrite length_indices.
  - intros r. by rewrite length_map, length_indices.
Qed.

Lemma grid_positions_lookup rows cols img_w img_h hspace vspace page_w page_h margin
  (r c : nat) :
  (r < Z.to_nat rows)%nat -> (c < Z.to_nat cols)%nat ->
  exists left top,
    grid_positions rows cols img_w img_h hspace vspace page_w page_h margin
      !! (r * Z.to_nat cols + c)%nat
    = Some (fadd left (fmul (of_int (Z.of_nat c)) (fadd img_w hspace)),
            fadd top (fmul (of_int (Z.of_nat r)) (fadd img_h vspace)))
    /\ grid_positions rows cols img_w img_h hspace vspace page_w page_h margin
         !! 0%nat = Some (fadd left (fmul (of_int 0) (fadd img_w hspace)),
                          fadd top (fmul (of_int 0) (fadd img_h vspace))).
Proof.
  intros Hr Hc. unfold grid_positions. eexists _, _. split.
  - erewrite (lookup_flat_map_const _ (Z.to_nat cols));
      [|intros x; by rewrite length_map, length_indices|by apply lookup_indices|done].
    change (map ?f) with (fmap (M:=list) f).
    rewrite list_lookup_fmap, lookup_indices by done. reflexivity.
  - erewrite (lookup_flat_map_const _ (Z.to_nat cols) _ 0 0);
      [|intros x; by rewrite length_map, length_indices|apply lookup_indices; lia|lia].
    change (map ?f) with (fmap (M:=list) f).
    rewrite list_lookup_fmap, lookup_indices by lia. reflexivity.
Qed.

(** ** [add_grid_slides] *)

Lemma grid_slide_pictures (f : Z -> item -> result shape) (chunk : list item) shapes :
  (forall i it s, f i it = Ok s -> pictures [s] = [path it]) ->
  for_enumerate f 0 chunk = Ok shapes ->
  pictures shapes = map path chunk /\ length shapes = length chunk.
Proof.
  intros Hf H. split.
  - rewrite <- flat_map_singleton. unfold pictures.
    eapply for_enumerate_flat_map; [|exact H].
    intros i a b Hb. specialize (Hf i a b Hb). unfold pictures in Hf. cbn in Hf.
    by rewrite app_nil_r in Hf.
  - transitivity (length (map (fun _ => tt) shapes)); [by rewrite length_map|].
    rewrite (for_enumerate_map f (fun _ => tt) (fun _ => tt) 0 chunk shapes); [|done|done].
    by rewrite length_map.
Qed.

Lemma add_grid_slides_Ok prs items cols rows start_idx prs' :
  0 < cols * rows -> 0 <= start_idx ->
  add_grid_slides prs items cols rows start_idx = Ok prs' ->
  exists new,
    slides prs' = slides prs ++ new
    /\ concat (map pictures new) = map path (drop (Z.to_nat start_idx) items)
    /\ Forall (fun sl => Z.of_nat (length sl) <= cols * rows) new
    /\ Z.of_nat (length new)
       = Z.max 0 (ceil_div (Z.of_nat (length items) - start_idx) (cols * rows)).
Proof.
  intros Hper Hs. unfold add_grid_slides, range. intros H. inv_bind H.
  destruct (Z.eqb_spec (cols * rows) 0) as [?|_]; [lia|].
  destruct (Z.ltb_spec 0 (cols * rows)) as [_|?]; [|lia].
  injection E2 as <-.
  set (per := cols * rows) in *.
  set (starts := range_up _ start_idx (Z.of_nat (length items)) per) in *.
  eapply (for_each_slides _
            (fun chunk sl => pictures sl = map path chunk
                             /\ length sl = length chunk)) in H.
  - destruct H as (new & Hnew & H2 & _ & _).
    apply Forall2_fmap_l in H2.
    exists new. split; [done|]. split; [|split].
    + transitivity (map path (concat (map (fun i => slice i (i + per) items) starts))).
      * clear -H2. induction H2 as [|i sl ist sls [Hi _] _ IH]; cbn; [done|].
        by rewrite map_app, Hi, IH.
      * unfold starts. by rewrite range_up_chunks by lia.
    + pose proof (range_up_chunk_sizes items
                    (Z.to_nat (Z.of_nat (length items) - start_idx)) start_idx per
                    Hs Hper) as Hsz.
      fold starts in Hsz. clear -H2 Hsz Hper.
      induction H2 as [|i sl ist sls [_ Hi] _ IH]; [constructor|].
      apply Forall_cons in Hsz as [Hs Hsz]. constructor; [|by apply IH].
      rewrite Hi. lia.
    + rewrite <- (Forall2_length _ _ _ H2). unfold starts.
      by rewrite range_up_length by lia.
  - intros prs0 chunk prs1 Hstep. cbv beta in Hstep. inv_bind Hstep.
    injection Hstep as <-. eexists. split; [done|].
    eapply grid_slide_pictures; [|eassumption].
    intros j it s Hs'. cbv beta in Hs'. inv_bind Hs'. by injection Hs' as <-.
Qed.

(** In exact arithmetic the loop of [add_grid_slides] returns. *)
Lemma add_grid_slides_exact_total prs items cols rows start_idx :
  0 < cols * rows ->
  Forall (fun it => native_width it <> 0 /\ native_height it <> 0) items ->
  exists prs',
    add_grid_slides (FL:=exact) prs items cols rows start_idx = Ok prs'.
Proof.
  intros Hper Hit. unfold add_grid_slides, range.
  assert (Inches (FL:=exact) (of_dec 0.05) = Ok 45720) as -> by reflexivity.
  assert (Inches (FL:=exact) (of_dec 1.92) = Ok 1755648) as -> by reflexivity.
  assert (Inches (FL:=exact) (of_dec 1.6) = Ok 1463040) as -> by reflexivity.
  destruct (Z.eqb_spec (cols * rows) 0) as [?|_]; [lia|].
  destruct (Z.ltb_spec 0 (cols * rows)) as [_|?]; [|lia]. cbn [bind].
  apply for_each_total. intros prs0 chunk Hchunk.
  assert (Inches (FL:=exact) (of_dec 0.5) = Ok 457200) as -> by reflexivity.
  cbn [bind]. unfold int_truediv.
  destruct (Z.eqb_spec (1755648 * cols + 0 * (cols - 1)) 0) as [?|_]; [nia|].
  destruct (Z.eqb_spec (1463040 * rows + 45720 * (rows - 1)) 0) as [?|_]; [lia|].
  exact_step.
  match goal with
  | |- context [for_enumerate ?f ?i ?l] =>
      destruct (for_enumerate_total f i l) as [bs ->]; [|cbn [bind]; eauto]
  end.
  intros i it Hin.
  apply list_elem_of_fmap in Hchunk as (j & -> & _).
  apply elem_of_slice in Hin. rewrite Forall_forall in Hit.
  destruct (Hit it Hin) as [Hw Hh].
  destruct (Z.eqb_spec cols 0); [nia|]. cbn [bind].
  match goal with
  | |- context [fit_cover ?a ?b ?c ?d] =>
      destruct (fit_exact_total a b c d Hw Hh) as [_ [wh ->]]
  end.
  cbn [bind to_int exact]. eauto.
Qed.

End WithFloat.

End LayoutFacts.

Module StemsFacts.
Import Str Notions Names Stems StrFacts NamesFacts.

Lemma in_chars_stem_underscore : in_chars (lit "._ ") cp_underscore = true.
Proof. reflexivity. Qed.

Lemma not_adjacent_short a (s : str) :
  (forall i, s !! i = Some a -> s !! S i <> Some a) -> ~ adjacent a a s.
Proof.
  intros Hs (l & r & ->). apply (Hs (length l)).
  - by rewrite lookup_app_r, Nat.sub_diag by lia.
  - rewrite lookup_app_r by lia. by replace (S (length l) - length l)%nat with 1%nat by lia.
Qed.

Section Stem.
Context {D : Unicodedata}.

(** A stem is never empty, holds safe characters only, has no two
    underscores in a row, and neither starts nor ends with a dot, an
    underscore or a space. *)
Lemma safe_stem_shape (name : str) :
  safe_stem name <> []
  /\ Forall (fun c => is_safe_char c = true) (safe_stem name)
  /\ ~ adjacent cp_underscore cp_underscore (safe_stem name)
  /\ ends_ok (in_chars (lit "._ ")) (safe_stem name).
Proof.
  unfold safe_stem. change (lit "_") with [cp_underscore].
  set (norm := filter _ (nfkd name)).
  set (c1 := sub_runs _ _ false norm).
  set (c2 := sub_runs _ _ false c1).
  destruct (decide (strip_by (in_chars (lit "._ ")) c2 = [])) as [He|Hne].
  - split; [done|]. split; [by repeat constructor|]. split; [|by split].
    apply not_adjacent_short. intros [|[|[|[|i]]]]; cbn; done.
  - split; [done|]. split; [|split].
    + apply Forall_strip_by, sub_runs_Forall_keep; [done|].
      apply sub_runs_Forall; [done|]. intros c Hc. by apply negb_false_iff in Hc.
    + intros H%adjacent_strip_by. revert H.
      apply sub_runs_no_double. intros c. apply N.eqb_eq.
    + apply strip_by_ends_ok.
Qed.

Context {laws : StemLaws D}.

Lemma safe_stem_fixed (s : str) :
  s <> [] -> Forall (fun c => is_safe_char c = true) s ->
  ~ adjacent cp_underscore cp_underscore s ->
  ends_ok (in_chars (lit "._ ")) s ->
  safe_stem s = s.
Proof.
  intros Hne Hs Hn He. unfold safe_stem. change (lit "_") with [cp_underscore].
  rewrite (nfkd_safe s Hs).
  rewrite (filter_Forall_id (fun ch => combining ch = 0)).
  2:{ eapply Forall_impl; [exact Hs|]. intros c Hc. by apply combining_safe. }
  rewrite (sub_runs_id (fun c => negb (is_safe_char c))).
  2:{ eapply Forall_impl; [exact Hs|]. intros c Hc. cbn beta. by rewrite Hc. }
  rewrite (proj1 (sub_runs_single_id _ cp_underscore s
                    ltac:(intros c; apply N.eqb_eq) Hn)).
  rewrite (strip_by_fixed _ _ He). by destruct (decide (s = [])).
Qed.

Lemma safe_stem_idem (name : str) : safe_stem (safe_stem name) = safe_stem name.
Proof.
  destruct (safe_stem_shape name) as (H1 & H2 & H3 & H4).
  by apply safe_stem_fixed.
Qed.

End Stem.
End StemsFacts.

Module ThtFacts.
Import Str Py Deck Notions Tht PyFacts DeckFacts ExactFacts.

(** ** The sort by title *)

Lemma insert_by_title_perm x l : insert_by_title x l ≡ₚ x :: l.
Proof.
  induction l as [|y r IH]; cbn; [done|].
  destruct (str_le (title x) (title y)); [done|].
  rewrite IH. apply Permutation_swap.
Qed.

Lemma sort_by_title_perm l : sort_by_title l ≡ₚ l.
Proof.
  induction l as [|x l IH]; cbn; [done|].
  by rewrite insert_by_title_perm, IH.
Qed.

Lemma sort_by_title_nil l : sort_by_title l = [] <-> l = [].
Proof.
  split; [|by intros ->]. intros H.
  apply Permutation_nil_r. rewrite <- H. symmetry. apply sort_by_title_perm.
Qed.

Lemma str_le_total a b : str_le a b = true \/ str_le b a = true.
Proof.
  revert b. induction a as [|x a IH]; intros [|y b]; cbn; auto.
  destruct (N.ltb_spec x y), (N.ltb_spec y x), (N.eqb_spec x y), (N.eqb_spec y x);
    cbn; auto; try lia; try apply IH.
Qed.

Lemma str_le_trans a b c : str_le a b = true -> str_le b c = true -> str_le a c = true.
Proof.
  revert b c. induction a as [|x a IH]; intros [|y b] [|z c]; cbn; try done.
  destruct (N.ltb_spec x y), (N.ltb_spec y z), (N.ltb_spec x z),
    (N.eqb_spec x y), (N.eqb_spec y z), (N.eqb_spec x z);
    cbn; try done; try lia; try apply IH; eauto.
Qed.

(** The sort gives the titles in non-decreasing order. *)
Lemma insert_by_title_sorted x l :
  titles_sorted l -> titles_sorted (insert_by_title x l).
Proof.
  induction l as [|y r IH]; cbn; [done|]. intros [Hy Hr].
  destruct (str_le (title x) (title y)) eqn:Hxy; cbn.
  - split; [|done]. constructor; [done|].
    eapply Forall_impl; [exact Hy|]. intros z Hz. cbn beta. by eapply str_le_trans.
  - split; [|by apply IH].
    rewrite insert_by_title_perm. constructor; [|done].
    destruct (str_le_total (title x) (title y)); [congruence|done].
Qed.

Lemma sort_by_title_sorted l : titles_sorted (sort_by_title l).
Proof.
  induction l as [|x l IH]; cbn; [done|]. by apply insert_by_title_sorted.
Qed.

(** ** The three groups of [main] *)

Lemma filter_ext_elem {A} (P Q : A -> Prop) `{!forall x, Decision (P x)}
  `{!forall x, Decision (Q x)} (l : list A) :
  (forall x, x ∈ l -> P x <-> Q x) -> filter P l = filter Q l.
Proof.
  induction l as [|x l IH]; intros Hl; [done|].
  rewrite !filter_cons.
  assert (Hx : P x <-> Q x) by (apply Hl; by left).
  rewrite IH by (intros y Hy; apply Hl; by right).
  destruct (decide (P x)), (decide (Q x)); tauto.
Qed.

Lemma same_entry_title a b : same_entry a b = true -> title a = title b.
Proof.
  unfold same_entry. intros [Ht _]%andb_true_iff. by apply bool_decide_eq_true in Ht.
Qed.

Lemma same_entry_refl a : same_entry a a = true.
Proof. unfold same_entry. by rewrite !bool_decide_eq_true_2. Qed.

Lemma main_groups_perm (others : list item) :
  let '(three_letter, remaining, last_items) := main_groups others in
  three_letter ++ remaining ++ last_items ≡ₚ others.
Proof.
  unfold main_groups.
  set (main_items := filter (fun it => title it ∉ last_titles) others).
  set (three := filter (fun it => three_letters (title it) = true) main_items).
  rewrite (filter_ext_elem _ (fun it => ~ three_letters (title it) = true) main_items).
  - pose proof (filter_app_complement (fun it => three_letters (title it) = true)
                  main_items) as H1.
    pose proof (filter_app_complement (fun it => title it ∈ last_titles) others) as H2.
    rewrite app_assoc. etrans; [apply Permutation_app_tail; exact H1|].
    etrans; [apply Permutation_app_comm|exact H2].
  - intros it Hit. split.
    + intros He Ht. apply not_true_iff_false in He. apply He.
      apply existsb_exists. exists it. split; [|apply same_entry_refl].
      apply list_elem_of_In. unfold three. by apply list_elem_of_filter.
    + intros Hn. apply not_true_iff_false. intros (it' & Hin & Hs)%existsb_exists.
      apply list_elem_of_In in Hin. unfold three in Hin.
      apply list_elem_of_filter in Hin as [Ht _].
      apply Hn. by rewrite (same_entry_title _ _ Hs).
Qed.

Section WithFloat.
Context {F : Type} {FL : PyFloat F}.

Lemma add_batch_Ok prs items prs' :
  add_batch prs items = Ok prs' ->
  exists new,
    slides prs' = slides prs ++ new
    /\ concat (map pictures new) = map path items
    /\ Forall (fun sl => Z.of_nat (length sl) <= 144) new
    /\ Z.of_nat (length new) = ceil_div (Z.of_nat (length items)) 144.
Proof.
  destruct items as [|it items]; cbn [add_batch].
  - intros [= <-]. exists []. by rewrite app_nil_r.
  - intros H. apply paginated_Ok in H as (new & H1 & H2 & H3 & H4); [|lia].
    by exists new.
Qed.

Lemma main_slides_Ok prs others prs' :
  main_slides prs others = Ok prs' ->
  let '(three_letter, remaining, last_items) := main_groups others in
  exists new,
    slides prs' = slides prs ++ new
    /\ concat (map pictures new)
       = map path (sort_by_title three_letter ++ remaining ++ last_items)
    /\ concat (map pictures new) ≡ₚ map path others
    /\ Forall (fun sl => Z.of_nat (length sl) <= 144) new
    /\ Z.of_nat (length new)
       = ceil_div (Z.of_nat (length three_letter)) 144
         + ceil_div (Z.of_nat (length remaining)) 144
         + ceil_div (Z.of_nat (length last_items)) 144.
Proof.
  unfold main_slides. pose proof (main_groups_perm others) as Hperm.
  destruct (main_groups others) as [[three remaining] last].
  intros H. inv_bind H.
  apply add_batch_Ok in E as (n1 & S1 & P1 & F1 & L1).
  apply add_batch_Ok in E0 as (n2 & S2 & P2 & F2 & L2).
  apply add_batch_Ok in H as (n3 & S3 & P3 & F3 & L3).
  exists (n1 ++ n2 ++ n3).
  assert (Hpic : concat (map pictures (n1 ++ n2 ++ n3))
                 = map path (sort_by_title three ++ remaining ++ last)).
  { rewrite (map_app pictures), concat_app, (map_app pictures), concat_app.
    rewrite P1, P2, P3. by rewrite !map_app. }
  split; [|split; [exact Hpic|split; [|split]]].
  - rewrite S3, S2, S1. by rewrite <- !app_assoc.
  - rewrite Hpic. apply Permutation_map. rewrite <- Hperm.
    apply Permutation_app_tail, sort_by_title_perm.
  - apply Forall_app. split; [done|]. by apply Forall_app.
  - rewrite !length_app, !Nat2Z.inj_add, L1, L2, L3.
    rewrite (Permutation_length (sort_by_title_perm three)). lia.
Qed.

End WithFloat.

Lemma add_batch_exact_total prs items :
  Forall (fun it => native_width it <> 0 /\ native_height it <> 0) items ->
  exists prs', add_batch (FL:=exact) prs items = Ok prs'.
Proof.
  intros Hit. destruct items as [|it items]; cbn [add_batch]; [eauto|].
  by apply paginated_exact_total.
Qed.

Lemma main_slides_exact_total prs others :
  Forall (fun it => native_width it <> 0 /\ native_height it <> 0) others ->
  exists prs', main_slides (FL:=exact) prs others = Ok prs'.
Proof.
  intros Hit. unfold main_slides. pose proof (main_groups_perm others) as Hperm.
  destruct (main_groups others) as [[three remaining] last].
  rewrite <- Hperm, !Forall_app in Hit. destruct Hit as (H1 & H2 & H3).
  destruct (add_batch_exact_total prs (sort_by_title three)) as [p1 ->].
  { by rewrite sort_by_title_perm. }
  cbn [bind]. destruct (add_batch_exact_total p1 remaining H2) as [p2 ->].
  cbn [bind]. by apply add_batch_exact_total.
Qed.

(** ** [add_image_slide] *)

Lemma add_image_slide_exact prs it :
  0 < native_width it -> 0 < native_height it ->
  exists left w h,
    add_image_slide (FL:=exact) prs it
    = Ok (add_slide prs [Picture (path it) left 457200 w h])
    /\ w <= 8229600 /\ h <= 5029200
    /\ (native_width it <= 8229600 -> native_height it <= 5029200 ->
        w = native_width it /\ h = native_height it)
    /\ left = Z.quot (slide_width prs - w) 2.
Proof.
  intros Hw Hh. unfold add_image_slide.
  assert (Inches (FL:=exact) (of_dec 0.5) = Ok 457200) as -> by reflexivity.
  assert (Inches (FL:=exact) (of_int 9) = Ok 8229600) as -> by reflexivity.
  assert (Inches (FL:=exact) (of_dec 5.5) = Ok 5029200) as -> by reflexivity.
  cbn [bind].
  destruct (Z.ltb_spec 8229600 (native_width it)) as [H1|H1];
    [|destruct (Z.ltb_spec 5029200 (native_height it)) as [H2|H2]]; cbn [orb].
  1,2: change (do scale_w <- int_truediv 8229600 (native_width it);
               do scale_h <- int_truediv 5029200 (native_height it);
               do new_w <- to_int (fmul (of_int (native_width it)) (py_min scale_w scale_h));
               do new_h <- to_int (fmul (of_int (native_height it)) (py_min scale_w scale_h));
               Ok (new_w, new_h))
         with (fit_contain (FL:=exact) 8229600 5029200 (native_width it) (native_height it));
    destruct (fit_exact_total 8229600 5029200 (native_width it) (native_height it))
      as [[[w h] Hfit] _]; [lia|lia|];
    rewrite Hfit; cbn [bind fst snd to_int exact];
    destruct (fit_contain_exact _ _ _ _ _ _ Hw Hh Hfit) as [Hcw Hch];
    exists (Qtrunc (inject_Z (slide_width prs - w) / inject_Z 2)), w, h;
    (split; [done|]); (split; [done|]); (split; [done|]);
    (split; [intros; lia|by apply Qtrunc_div]).
  cbn [bind fst snd to_int exact].
  exists (Qtrunc (inject_Z (slide_width prs - native_width it) / inject_Z 2)),
    (native_width it), (native_height it).
  split; [done|]. split; [done|]. split; [done|]. split; [done|by apply Qtrunc_div].
Qed.

End ThtFacts.

Module WithinFacts.
Import Str Py Deck Notions Tht PyFacts DeckFacts ExactFacts.

Lemma for_enumerate_Forall {A B} (f : Z -> A -> result B) (P : B -> Prop)
  start (l : list A) bs :
  (forall i a b, start <= i < start + Z.of_nat (length l) -> a ∈ l ->
                 f i a = Ok b -> P b) ->
  for_enumerate f start l = Ok bs -> Forall P bs.
Proof.
  revert start bs. induction l as [|a l IH]; intros start bs Hf; cbn [for_enumerate].
  - by intros [= <-].
  - intros H. inv_bind H. injection H as <-. constructor.
    + eapply Hf; [|by left|done]. cbn [length]. lia.
    + eapply IH; [|done]. intros i x b Hi Hx. apply Hf; [cbn [length]; lia|by right].
Qed.

Lemma Qtrunc_nonneg (x : Q) : (0 <= x)%Q -> 0 <= Qtrunc x.
Proof. intros Hx. by apply (Qtrunc_lower x 0). Qed.

Lemma half_bounds (l d : Z) :
  0 <= d ->
  (inject_Z l <= inject_Z l + inject_Z d / inject_Z 2)%Q
  /\ (inject_Z l + inject_Z d / inject_Z 2 <= inject_Z (l + d))%Q.
Proof.
  intros Hd. unfold Qle, Qplus, Qdiv, Qmult, Qinv, inject_Z. cbn. lia.
Qed.

Lemma centered_exact (left cell w : Z) :
  w <= cell ->
  exists p, centered (FL:=exact) left cell w = Ok p /\ left <= p /\ p + w <= left + cell.
Proof.
  intros Hw. unfold centered. cbn [to_int exact fadd fdiv of_int]. eexists. split; [done|].
  destruct (half_bounds left (cell - w)) as [H1 H2]; [lia|]. split.
  - by apply Qtrunc_lower.
  - apply Qtrunc_upper in H2. lia.
Qed.

Lemma grid_origin_exact (slide grid margin : Z) :
  0 <= margin -> grid <= slide - 2 * margin ->
  exists o, grid_origin (FL:=exact) slide grid = Ok o
    /\ margin <= o /\ o + grid <= slide - margin.
Proof.
  intros Hm Hg. unfold grid_origin. cbn [to_int exact fdiv of_int].
  rewrite Qtrunc_div by done. eexists. split; [done|].
  pose proof (Z.quot_rem' (slide - grid) 2).
  pose proof (Z.rem_bound_pos (slide - grid) 2 ltac:(lia) ltac:(lia)).
  lia.
Qed.

Lemma fit_contain_exact_nonneg cw ch pw ph w h :
  0 <= cw -> 0 <= ch -> 0 < pw -> 0 < ph ->
  fit_contain (FL:=exact) cw ch pw ph = Ok (w, h) -> 0 <= w /\ 0 <= h.
Proof.
  intros Hcw Hch Hpw Hph. unfold fit_contain, int_truediv.
  destruct (Z.eqb_spec pw 0); [lia|]. destruct (Z.eqb_spec ph 0); [lia|].
  cbn [bind to_int exact of_int fmul fdiv]. intros [= <- <-].
  assert (Hs : (0 <= py_min (FL:=exact) (inject_Z cw / inject_Z pw)
                             (inject_Z ch / inject_Z ph))%Q).
  { unfold py_min. destruct (flt _ _).
    - apply Qle_shift_div_l; [by apply inject_pos|].
      rewrite Qmult_0_l. unfold Qle. cbn. lia.
    - apply Qle_shift_div_l; [by apply inject_pos|].
      rewrite Qmult_0_l. unfold Qle. cbn. lia. }
  split; apply Qtrunc_nonneg; apply Qmult_le_0_compat; try done;
    apply Qlt_le_weak; by apply inject_pos.
Qed.

Lemma fill_slide_within prs items cols rows margin_in hspace_in vspace_in fill_order
  margin hspace vspace prs' :
  Inches (FL:=exact) margin_in = Ok margin ->
  Inches (FL:=exact) hspace_in = Ok hspace ->
  Inches (FL:=exact) vspace_in = Ok vspace ->
  0 < cols -> 0 < rows -> 0 <= margin -> 0 <= hspace -> 0 <= vspace ->
  hspace * (cols - 1) <= slide_width prs - 2 * margin ->
  vspace * (rows - 1) <= slide_height prs - 2 * margin ->
  Forall (fun it => 0 < native_width it /\ 0 < native_height it) items ->
  add_fill_grid_slide_no_captions (FL:=exact) prs items cols rows margin_in
    hspace_in vspace_in fill_order = Ok prs' ->
  exists shapes, prs' = add_slide prs shapes /\ Forall (within prs margin) shapes.
Proof.
  intros Em Eh Ev Hc Hr Hm Hh Hv Haw Hah Hit.
  unfold add_fill_grid_slide_no_captions. rewrite Em, Eh, Ev. cbn [bind].
  unfold int_truediv.
  destruct (Z.eqb_spec cols 0); [lia|]. destruct (Z.eqb_spec rows 0); [lia|].
  cbn [bind to_int exact of_int fdiv]. rewrite !Qtrunc_div by done.
  set (avail_w := slide_width prs - 2 * margin - hspace * (cols - 1)) in *.
  set (avail_h := slide_height prs - 2 * margin - vspace * (rows - 1)) in *.
  set (cell_w := Z.quot avail_w cols).
  set (cell_h := Z.min _ (Z.quot avail_h rows)).
  assert (Haw0 : 0 <= avail_w) by (unfold avail_w; lia).
  assert (Hah0 : 0 <= avail_h) by (unfold avail_h; lia).
  assert (Hcw : 0 <= cell_w /\ cell_w * cols <= avail_w).
  { unfold cell_w. rewrite Z.quot_div_nonneg by lia.
    pose proof (Z.mul_div_le avail_w cols Hc).
    pose proof (Z.div_pos avail_w cols Haw0 Hc). lia. }
  assert (Hch : 0 <= cell_h /\ cell_h * rows <= avail_h).
  { assert (Ht : forall q, (0 < q)%Q -> 0 <= Qtrunc (inject_Z cell_w / q)).
    { intros q Hq. apply Qtrunc_nonneg. apply Qle_shift_div_l; [done|].
      rewrite Qmult_0_l. unfold Qle. cbn. lia. }
    assert (Hq : 0 <= Z.quot avail_h rows /\ Z.quot avail_h rows * rows <= avail_h).
    { rewrite Z.quot_div_nonneg by lia.
      pose proof (Z.mul_div_le avail_h rows Hr).
      pose proof (Z.div_pos avail_h rows Hah0 Hr). lia. }
    unfold cell_h.
    match goal with
    | |- context [Qtrunc (inject_Z cell_w / ?q)] => pose proof (Ht q eq_refl)
    end.
    split; [lia|]. nia. }
  clearbody cell_w cell_h.
  destruct (grid_origin_exact (slide_width prs) (cell_w * cols + hspace * (cols - 1))
              margin) as (ol & -> & Hol1 & Hol2); [done|unfold avail_w in *; lia|].
  destruct (grid_origin_exact (slide_height prs) (cell_h * rows + vspace * (rows - 1))
              margin) as (ot & -> & Hot1 & Hot2); [done|unfold avail_h in *; lia|].
  cbn [bind]. intros H. inv_bind H. injection H as <-.
  eexists. split; [done|].
  eapply for_enumerate_Forall; [|exact E].
  intros i it s Hi Hin Hs. cbv beta in Hs.
  assert (Hlen : Z.of_nat (length (slice_to (cols * rows) items)) <= cols * rows).
  { rewrite slice_to_length by nia. lia. }
  apply elem_of_slice in Hin. rewrite Forall_forall in Hit.
  destruct (Hit it Hin) as [Hpw Hph].
  assert (Hrc : exists r c, 0 <= r < rows /\ 0 <= c < cols
            /\ (do new <- fit_contain (FL:=exact) cell_w cell_h (native_width it)
                            (native_height it);
                do pic_left <- centered (FL:=exact) (ol + c * (cell_w + hspace))
                                 cell_w new.1;
                do pic_top <- centered (FL:=exact) (ot + r * (cell_h + vspace))
                                cell_h new.2;
                Ok (Picture (path it) pic_left pic_top new.1 new.2)) = Ok s).
  { revert Hs. unfold floordiv, pymod.
    destruct (Z.eqb_spec rows 0); [lia|]. destruct (Z.eqb_spec cols 0); [lia|].
    destruct (bool_decide _); cbn [bind fst snd]; intros Hs.
    - exists (i mod rows), (i / rows). split; [by apply Z.mod_pos_bound|].
      split; [|exact Hs]. split; [apply Z.div_pos; lia|].
      apply Z.div_lt_upper_bound; lia.
    - exists (i / cols), (i mod cols).
      split; [|split; [by apply Z.mod_pos_bound|exact Hs]].
      split; [apply Z.div_pos; lia|]. apply Z.div_lt_upper_bound; lia. }
  clear Hs. destruct Hrc as (r & c & Hr' & Hc' & Hs).
  destruct (fit_contain (FL:=exact) cell_w cell_h (native_width it) (native_height it))
    as [[w h]|] eqn:Hfit; [|done].
  destruct (fit_contain_exact _ _ _ _ _ _ Hpw Hph Hfit) as [Hw1 Hh1].
  destruct (fit_contain_exact_nonneg _ _ _ _ _ _ (proj1 Hcw) (proj1 Hch) Hpw Hph Hfit)
    as [Hw0 Hh0].
  cbn [bind fst snd] in Hs.
  destruct (centered_exact (ol + c * (cell_w + hspace)) cell_w w Hw1)
    as (pl & Epl & Hpl1 & Hpl2).
  destruct (centered_exact (ot + r * (cell_h + vspace)) cell_h h Hh1)
    as (pt & Ept & Hpt1 & Hpt2).
  rewrite Epl, Ept in Hs. cbn [bind] in Hs. injection Hs as <-.
  cbn [within]. unfold avail_w, avail_h in *. repeat split; nia.
Qed.

Lemma within_sizes prs prs0 margin s :
  slide_width prs0 = slide_width prs -> slide_height prs0 = slide_height prs ->
  within prs0 margin s -> within prs margin s.
Proof. intros Hw Hh. destruct s; cbn; [|done]. by rewrite Hw, Hh. Qed.

Lemma paginated_within prs items cols rows margin_in hspace_in vspace_in fill_order
  margin hspace vspace prs' :
  Inches (FL:=exact) margin_in = Ok margin ->
  Inches (FL:=exact) hspace_in = Ok hspace ->
  Inches (FL:=exact) vspace_in = Ok vspace ->
  0 < cols -> 0 < rows -> 0 <= margin -> 0 <= hspace -> 0 <= vspace ->
  hspace * (cols - 1) <= slide_width prs - 2 * margin ->
  vspace * (rows - 1) <= slide_height prs - 2 * margin ->
  Forall (fun it => 0 < native_width it /\ 0 < native_height it) items ->
  add_fill_grid_slides_no_captions_paginated (FL:=exact) prs items cols rows
    margin_in hspace_in vspace_in fill_order = Ok prs' ->
  exists new,
    slides prs' = slides prs ++ new /\ Forall (Forall (within prs margin)) new.
Proof.
  intros Em Eh Ev Hc Hr Hm Hh Hv Haw Hah Hit.
  unfold add_fill_grid_slides_no_captions_paginated.
  destruct (range 0 (Z.of_nat (length items)) (cols * rows)) as [starts|]; [|done].
  cbn [bind].
  assert (Hgen : forall prs0,
            slide_width prs0 = slide_width prs ->
            slide_height prs0 = slide_height prs ->
            for_each (fun prs1 i =>
                        add_fill_grid_slide_no_captions (FL:=exact) prs1
                          (slice i (i + cols * rows) items) cols rows margin_in
                          hspace_in vspace_in fill_order) prs0 starts = Ok prs' ->
            exists new, slides prs' = slides prs0 ++ new
                        /\ Forall (Forall (within prs margin)) new);
    [|by apply Hgen].
  induction starts as [|i starts IH]; intros prs0 Hw0 Hh0; cbn [for_each].
  - intros [= <-]. exists []. by rewrite app_nil_r.
  - intros H. inv_bind H.
    eapply (fill_slide_within prs0) in E as (shapes & -> & Hsh);
      [|done..|rewrite Hw0; done|rewrite Hh0; done|].
    2:{ rewrite Forall_forall in *. intros it Hin%elem_of_slice. by apply Hit. }
    destruct (IH (add_slide prs0 shapes) Hw0 Hh0 H) as (new & Hnew & Hall).
    exists (shapes :: new). cbn in Hnew. rewrite Hnew, <- app_assoc.
    split; [done|]. constructor; [|done].
    eapply Forall_impl; [exact Hsh|]. intros s. by apply within_sizes.
Qed.

End WithinFacts.

Module CellsFacts.
Import Str Py Deck Notions Tht Cells PyFacts DeckFacts ExactFacts WithinFacts.

Section WithFloat.
Context {F : Type} {FL : PyFloat F}.

Lemma cell_of_index (per_row row col : Z) :
  0 <= col < per_row ->
  (row * per_row + col) / per_row = row /\ (row * per_row + col) mod per_row = col.
Proof.
  intros Hc. split.
  - rewrite Z.div_add_l by lia. rewrite Z.div_small by lia. lia.
  - rewrite Z.add_comm, Z.mod_add by lia. by apply Z.mod_small.
Qed.

Lemma row_major_snoc g per_row per_col sl row col img s :
  0 <= col < per_row -> 0 <= row < per_col ->
  Z.of_nat (length sl) = row * per_row + col ->
  row_major g per_row per_col sl ->
  picture_at g row col img = Ok s ->
  row_major g per_row per_col (sl ++ [s]).
Proof.
  intros Hc Hr Hlen [_ Hsl] Hs. split.
  - rewrite length_app. cbn. nia.
  - intros j s' Hj. apply lookup_app_Some in Hj as [Hj|[Hge Hj]]; [by eapply Hsl|].
    apply list_lookup_singleton_Some in Hj as [Hj <-].
    assert (Z.of_nat j = row * per_row + col) as -> by lia.
    destruct (cell_of_index per_row row col Hc) as [-> ->]. by exists img.
Qed.

Lemma row_major_nil g per_row per_col :
  0 < per_row -> 0 < per_col -> row_major g per_row per_col [].
Proof. intros. split; [cbn; nia|]. intros j s Hj. by destruct j. Qed.

Lemma place_image_filled g per_row per_col n done st img st' :
  0 < per_row -> 0 < per_col ->
  Z.of_nat (length done) < n ->
  placed per_row per_col n done st ->
  filled g per_row per_col st ->
  place_image g per_row per_col n st (Z.of_nat (length done)) img = Ok st' ->
  filled g per_row per_col st'.
Proof.
  intros Hrow Hcol Hidx [Hp Hf Hc Hcb Hrb Hroom Hfresh] (Hfin & Hcur & Hlen) H.
  assert (Hr : r st < per_col).
  { destruct (Z.eq_dec (r st) per_col) as [e|ne]; [apply Hroom in e; lia|lia]. }
  assert (Hnew : forall left top width height,
            Inches (fadd (margin_h g) (fmul (of_int (c st)) (fadd (fit_w g) (hspace_in g))))
            = Ok left ->
            Inches (fadd (margin_v g) (fmul (of_int (r st)) (fadd (fit_h g) (vspace_in g))))
            = Ok top ->
            Inches (fit_w g) = Ok width -> Inches (fit_h g) = Ok height ->
            row_major g per_row per_col
              (current st ++ [Picture img left top width height])).
  { intros left top width height E1 E2 E3 E4.
    apply (row_major_snoc _ _ _ _ (r st) (c st) img); [lia|lia|done|done|].
    unfold picture_at. by rewrite E1, E2, E3, E4. }
  unfold place_image in H. inv_bind H; injection H as <-; unfold filled;
    cbn [finished current r c]; (split; [|split]).
  all: try (by eapply Hnew).
  all: try (by apply row_major_nil).
  all: try exact Hfin.
  all: try (rewrite length_app; cbn [length]; apply Z.leb_le in C; lia).
  all: try (rewrite length_app; cbn [length]; apply Z.leb_gt in C; lia).
  all: try (cbn [length]; lia).
  apply Forall_app. split; [done|]. constructor; [by eapply Hnew|constructor].
Qed.

Lemma place_images_filled g per_row per_col n imgs done st st' :
  0 < per_row -> 0 < per_col ->
  Z.of_nat (length done) + Z.of_nat (length imgs) = n ->
  placed per_row per_col n done st ->
  filled g per_row per_col st ->
  place_images g per_row per_col n st (Z.of_nat (length done)) imgs = Ok st' ->
  filled g per_row per_col st'.
Proof.
  intros Hrow Hcol. revert done st.
  induction imgs as [|img imgs IH]; intros done st Hn Hpl Hfil; cbn.
  - by intros [= <-].
  - intros H. inv_bind H. cbn in Hn.
    pose proof E as E'.
    eapply place_image_filled in E'; [|done|done|lia|done..].
    eapply place_image_placed in E; [|done|done|lia|done].
    replace (Z.of_nat (length done) + 1) with (Z.of_nat (length (done ++ [img]))) in H
      by (rewrite length_app; cbn; lia).
    eapply IH in H; [done|rewrite length_app; cbn; lia|done..].
Qed.

Lemma build_pptx_filled imgs per_row per_col hspace_fixed vspace_fixed slide_w_in
  slide_h_in sls :
  0 < per_row -> 0 < per_col ->
  build_pptx imgs per_row per_col hspace_fixed vspace_fixed slide_w_in slide_h_in
  = Ok sls ->
  exists g,
    build_grid per_row per_col hspace_fixed vspace_fixed slide_w_in slide_h_in = Ok g
    /\ Forall (row_major g per_row per_col) sls.
Proof.
  intros Hrow Hcol H. unfold build_pptx in H. inv_bind H. injection H as <-.
  exists v. split; [done|].
  change 0 with (Z.of_nat (length (A:=list N) [])) in E0.
  eapply (place_images_filled _ _ _ _ _ []) in E0 as (Hfin & Hcur & _);
    [|done|done|cbn; lia| |].
  - apply Forall_app. split; [done|]. by constructor.
  - split; cbn; try done; try lia. intros _. by left.
  - split; [by constructor|]. split; [by apply row_major_nil|]. cbn. lia.
Qed.

End WithFloat.

Lemma Qtrunc_le_self (x : Q) : (0 <= x)%Q -> (inject_Z (Qtrunc x) <= x)%Q.
Proof.
  destruct x as [n d]. unfold Qle, Qtrunc. cbn. rewrite Z.mul_1_r. intros Hn.
  pose proof (Pos2Z.is_pos d) as Hd.
  pose proof (Z.quot_rem' n (Z.pos d)) as Hqr.
  pose proof (Z.rem_bound_pos n (Z.pos d) Hn Hd). nia.
Qed.

Lemma span_within (x w S : Q) :
  (1 # 4 <= x)%Q -> (0 <= w)%Q -> (x + w <= S - (1 # 4))%Q ->
  0 <= Qtrunc (w * inject_Z 914400)
  /\ 228600 <= Qtrunc (x * inject_Z 914400)
  /\ Qtrunc (x * inject_Z 914400) + Qtrunc (w * inject_Z 914400)
     <= Qtrunc (S * inject_Z 914400) - 228600.
Proof.
  intros Hx Hw Hs. change (inject_Z 914400) with (914400 # 1)%Q.
  split; [|split].
  - apply Qtrunc_nonneg. lra.
  - apply Qtrunc_lower. change (inject_Z 228600) with (228600 # 1)%Q. lra.
  - assert (H1 : (inject_Z (Qtrunc (x * (914400 # 1))) <= x * (914400 # 1))%Q)
      by (apply Qtrunc_le_self; lra).
    assert (H2 : (inject_Z (Qtrunc (w * (914400 # 1))) <= w * (914400 # 1))%Q)
      by (apply Qtrunc_le_self; lra).
    enough (Qtrunc (x * (914400 # 1)) + Qtrunc (w * (914400 # 1)) + 228600
            <= Qtrunc (S * (914400 # 1))) by lia.
    apply Qtrunc_lower. rewrite !inject_Z_plus.
    change (inject_Z 228600) with (228600 # 1)%Q. lra.
Qed.

Lemma axis_within (n k : Z) (S sp fit total grid margin : Q) :
  0 <= k < n ->
  (0 <= sp)%Q -> (0 <= fit)%Q ->
  (total == inject_Z (n - 1) * sp)%Q ->
  (grid == inject_Z n * fit + total)%Q ->
  (grid <= S - (1 # 2))%Q ->
  (margin == (S - grid) / inject_Z 2)%Q ->
  (1 # 4 <= margin + inject_Z k * (fit + sp))%Q
  /\ (margin + inject_Z k * (fit + sp) + fit <= S - (1 # 4))%Q.
Proof.
  intros Hk Hsp Hfit Ht Hg Hle Hm.
  assert (Hm' : (margin == (S - grid) * (1 # 2))%Q).
  { rewrite Hm. change (inject_Z 2) with (2 # 1)%Q. field. }
  assert (Hk0 : (0 <= inject_Z k)%Q) by (change 0%Q with (inject_Z 0); rewrite <- Zle_Qle; lia).
  assert (Hk1 : (0 <= inject_Z (n - 1) - inject_Z k)%Q).
  { unfold Qminus. rewrite <- inject_Z_opp, <- inject_Z_plus.
    change 0%Q with (inject_Z 0). rewrite <- Zle_Qle. lia. }
  assert (Hn : (inject_Z (n - 1) == inject_Z n - 1)%Q).
  { unfold Z.sub. rewrite inject_Z_plus. reflexivity. }
  assert (P1 : (0 <= inject_Z k * (fit + sp))%Q) by (apply Qmult_le_0_compat; lra).
  assert (P2 : (0 <= (inject_Z (n - 1) - inject_Z k) * (fit + sp))%Q)
    by (apply Qmult_le_0_compat; lra).
  rewrite Ht in Hg. rewrite Hn in *. clear Hn Hm Ht.
  set (N := inject_Z n) in *. set (K := inject_Z k) in *.
  split; nra.
Qed.

Lemma py_max_exact_nonneg (x : Q) : (0 <= x)%Q -> (py_max (FL:=exact) (of_dec (PyFloat:=exact) 0.0) x == x)%Q.
Proof.
  intros Hx. unfold py_max. cbn. destruct (Qle_bool x 0.0) eqn:Hle; cbn; [|reflexivity].
  apply Qle_bool_iff in Hle. lra.
Qed.

Lemma py_min_exact_nonneg (a b : Q) :
  (0 <= a)%Q -> (0 <= b)%Q -> (0 <= py_min (FL:=exact) a b)%Q.
Proof. intros Ha Hb. unfold py_min. by destruct (flt b a). Qed.

Lemma times_slot (n : Z) (x a : Q) :
  0 < n -> (x <= a / inject_Z n)%Q -> (inject_Z n * x <= a)%Q.
Proof.
  intros Hn Hx. apply inject_pos in Hn.
  assert (E : (a == inject_Z n * (a / inject_Z n))%Q).
  { rewrite Qmult_div_r; [reflexivity|]. intros E. rewrite E in Hn. by apply Qlt_irrefl in Hn. }
  rewrite E. apply Qmult_le_l; [exact Hn|exact Hx].
Qed.

Lemma build_grid_exact per_row per_col hspace_fixed vspace_fixed
  (slide_w_in slide_h_in : Q) g :
  1 <= per_row -> 1 <= per_col ->
  build_grid (FL:=exact) per_row per_col hspace_fixed vspace_fixed slide_w_in slide_h_in
  = Ok g ->
  (inject_Z (per_row - 1) * hspace_in g + (1 # 2) <= slide_w_in)%Q ->
  (inject_Z (per_col - 1) * vspace_in g + (1 # 2) <= slide_h_in)%Q ->
  (exists total grid_w,
      (0 <= hspace_in g)%Q /\ (0 <= fit_w g)%Q
      /\ (total == inject_Z (per_row - 1) * hspace_in g)%Q
      /\ (grid_w == inject_Z per_row * fit_w g + total)%Q
      /\ (grid_w <= slide_w_in - (1 # 2))%Q
      /\ (margin_h g == (slide_w_in - grid_w) / inject_Z 2)%Q)
  /\ (exists total grid_h,
      (0 <= vspace_in g)%Q /\ (0 <= fit_h g)%Q
      /\ (total == inject_Z (per_col - 1) * vspace_in g)%Q
      /\ (grid_h == inject_Z per_col * fit_h g + total)%Q
      /\ (grid_h <= slide_h_in - (1 # 2))%Q
      /\ (margin_v g == (slide_h_in - grid_h) / inject_Z 2)%Q).
Proof.
  intros Hrow Hcol H Hw Hh. unfold build_grid, float_div_int in H.
  destruct (Z.eqb_spec per_row 0) as [|_]; [lia|].
  destruct (Z.eqb_spec per_col 0) as [|_]; [lia|].
  cbn [bind] in H. injection H as <-. cbn [hspace_in vspace_in fit_w fit_h margin_h margin_v] in *.
  set (hs := match hspace_fixed with Some h => _ | None => _ end) in *.
  set (vs := match vspace_fixed with Some v => _ | None => _ end) in *.
  set (th := if 1 <? per_row then _ else _) in *.
  set (tv := if 1 <? per_col then _ else _) in *.
  set (tr := (1.8 / 1.5)%Q).
  assert (Htr : (tr == 6 # 5)%Q) by reflexivity.
  assert (Hhs : (0 <= hs)%Q).
  { subst hs. destruct hspace_fixed; [|done]. destruct (1 <? per_row); [|done].
    apply (Qle_trans _ 0.0); [done|]. apply (py_max_exact_l 0.0). }
  assert (Hvs : (0 <= vs)%Q).
  { subst vs. destruct vspace_fixed; [|done]. destruct (1 <? per_col); [|done].
    apply (Qle_trans _ 0.0); [done|]. apply (py_max_exact_l 0.0). }
  assert (Hth : (th == inject_Z (per_row - 1) * hs)%Q).
  { subst th. destruct (Z.ltb_spec 1 per_row); [reflexivity|].
    replace (per_row - 1) with 0 by lia. change (inject_Z 0) with 0%Q.
    rewrite Qmult_0_l. reflexivity. }
  assert (Htv : (tv == inject_Z (per_col - 1) * vs)%Q).
  { subst tv. destruct (Z.ltb_spec 1 per_col); [reflexivity|].
    replace (per_col - 1) with 0 by lia. change (inject_Z 0) with 0%Q.
    rewrite Qmult_0_l. reflexivity. }
  set (aw := (slide_w_in - inject_Z 2 * 0.25 - th)%Q).
  set (ah := (slide_h_in - inject_Z 2 * 0.25 - tv)%Q).
  assert (Haw : (aw == slide_w_in - (1 # 2) - th)%Q) by (subst aw; cbn; ring).
  assert (Hah : (ah == slide_h_in - (1 # 2) - tv)%Q) by (subst ah; cbn; ring).
  set (sw := (aw / inject_Z per_row)%Q). set (sh := (ah / inject_Z per_col)%Q).
  set (fw := py_min sw (sh * tr)%Q).
  set (fh := (fw / tr)%Q).
  assert (Hpr : (0 < inject_Z per_row)%Q) by (apply inject_pos; lia).
  assert (Hpc : (0 < inject_Z per_col)%Q) by (apply inject_pos; lia).
  assert (Hsw : (0 <= sw)%Q).
  { subst sw. apply Qle_shift_div_l; [done|]. lra. }
  assert (Hsh : (0 <= sh)%Q).
  { subst sh. apply Qle_shift_div_l; [done|]. lra. }
  assert (Hfw : (0 <= fw)%Q).
  { subst fw. apply py_min_exact_nonneg; [done|]. apply Qmult_le_0_compat; [done|].
    rewrite Htr. lra. }
  assert (Hfw1 : (inject_Z per_row * fw <= aw)%Q).
  { apply times_slot; [lia|]. apply py_min_exact_l. }
  assert (Hfh : (0 <= fh)%Q).
  { subst fh. apply Qle_shift_div_l; [rewrite Htr; lra|]. lra. }
  assert (Hfh1 : (inject_Z per_col * fh <= ah)%Q).
  { apply times_slot; [lia|]. subst fh. apply Qle_shift_div_r; [rewrite Htr; lra|].
    apply (py_min_exact_r sw (sh * tr)%Q). }
  assert (H2 : (0 < inject_Z 2)%Q) by done.
  split.
  - exists th, (inject_Z per_row * fw + th)%Q.
    split; [done|]. split; [done|]. split; [done|]. split; [reflexivity|].
    assert (Hg : (inject_Z per_row * fw + th <= slide_w_in - (1 # 2))%Q) by lra.
    split; [done|]. apply py_max_exact_nonneg.
    apply Qle_shift_div_l; [done|]. lra.
  - exists tv, (inject_Z per_col * fh + tv)%Q.
    split; [done|]. split; [done|]. split; [done|]. split; [reflexivity|].
    assert (Hg : (inject_Z per_col * fh + tv <= slide_h_in - (1 # 2))%Q) by lra.
    split; [done|]. apply py_max_exact_nonneg.
    apply Qle_shift_div_l; [done|]. lra.
Qed.

Lemma picture_at_within per_row per_col hspace_fixed vspace_fixed
  (slide_w_in slide_h_in : Q) g row_idx col_idx img s :
  1 <= per_row -> 1 <= per_col ->
  build_grid (FL:=exact) per_row per_col hspace_fixed vspace_fixed slide_w_in slide_h_in
  = Ok g ->
  (inject_Z (per_row - 1) * hspace_in g + (1 # 2) <= slide_w_in)%Q ->
  (inject_Z (per_col - 1) * vspace_in g + (1 # 2) <= slide_h_in)%Q ->
  0 <= row_idx < per_col -> 0 <= col_idx < per_row ->
  picture_at (FL:=exact) g row_idx col_idx img = Ok s ->
  within (deck (Qtrunc (slide_w_in * inject_Z 914400))
               (Qtrunc (slide_h_in * inject_Z 914400))) 228600 s.
Proof.
  intros Hrow Hcol Hg Hw Hh Hr Hc H.
  destruct (build_grid_exact _ _ _ _ _ _ _ Hrow Hcol Hg Hw Hh)
    as [(th & gw & Hhs & Hfw & Hth & Hgw & Hgw' & Hmh)
        (tv & gh & Hvs & Hfh & Htv & Hgh & Hgh' & Hmv)].
  destruct (axis_within per_row col_idx slide_w_in (hspace_in g) (fit_w g) th gw
              (margin_h g) Hc Hhs Hfw Hth Hgw Hgw' Hmh) as [Hx1 Hx2].
  destruct (axis_within per_col row_idx slide_h_in (vspace_in g) (fit_h g) tv gh
              (margin_v g) Hr Hvs Hfh Htv Hgh Hgh' Hmv) as [Hy1 Hy2].
  destruct (span_within _ _ _ Hx1 Hfw Hx2) as (Hw0 & Hl1 & Hl2).
  destruct (span_within _ _ _ Hy1 Hfh Hy2) as (Hh0 & Ht1 & Ht2).
  unfold picture_at, Inches in H. cbn [to_int exact bind] in H. injection H as <-.
  cbn [within slide_width slide_height deck].
  split; [exact Hw0|]. split; [exact Hh0|]. split; [exact Hl1|]. split; [exact Hl2|].
  split; [exact Ht1|exact Ht2].
Qed.

Lemma build_pptx_within imgs per_row per_col hspace_fixed vspace_fixed
  (slide_w_in slide_h_in : Q) g sls :
  1 <= per_row -> 1 <= per_col ->
  build_grid (FL:=exact) per_row per_col hspace_fixed vspace_fixed slide_w_in slide_h_in
  = Ok g ->
  (inject_Z (per_row - 1) * hspace_in g + (1 # 2) <= slide_w_in)%Q ->
  (inject_Z (per_col - 1) * vspace_in g + (1 # 2) <= slide_h_in)%Q ->
  build_pptx (FL:=exact) imgs per_row per_col hspace_fixed vspace_fixed slide_w_in
    slide_h_in = Ok sls ->
  Forall (Forall (within (deck (Qtrunc (slide_w_in * inject_Z 914400))
                               (Qtrunc (slide_h_in * inject_Z 914400))) 228600)) sls.
Proof.
  intros Hrow Hcol Hg Hw Hh H.
  apply build_pptx_filled in H as (g' & Hg' & Hsl); [|lia|lia].
  rewrite Hg in Hg'. injection Hg' as <-.
  eapply Forall_impl; [exact Hsl|]. intros sl [Hlen Hrm].
  apply Forall_lookup. intros j s Hj. destruct (Hrm j s Hj) as [img Hs].
  apply lookup_lt_Some in Hj.
  eapply picture_at_within; [exact Hrow|exact Hcol|exact Hg|exact Hw|exact Hh| | |exact Hs].
  - split; [apply Z.div_pos; lia|]. apply Z.div_lt_upper_bound; [lia|]. lia.
  - apply Z.mod_pos_bound. lia.
Qed.

End CellsFacts.

Module MaldiFacts.
Import Str Py Deck Notions Tht Maldi PyFacts ThtFacts.

(** ** Paths *)

Lemma rsplit_at_None c s : c ∉ s -> rsplit_at c s = None.
Proof.
  induction s as [|x s IH]; intros H; cbn; [done|].
  rewrite IH by (intros Hs; apply H; by right).
  destruct (N.eqb_spec x c) as [->|]; [|done]. exfalso. apply H. by left.
Qed.

Lemma rsplit_at_app c a b : c ∉ b -> rsplit_at c (a ++ c :: b) = Some (a, b).
Proof.
  intros Hb. induction a as [|x a IH]; cbn.
  - rewrite rsplit_at_None by done. by rewrite N.eqb_refl.
  - by rewrite IH.
Qed.

Lemma join_plain f : plain f -> join IMAGES_DIR f = IMAGES_DIR ++ cp_slash :: f.
Proof.
  intros Hf. unfold join. destruct f as [|x f]; [reflexivity|].
  cbn [startswith]. destruct (N.eqb_spec cp_slash x) as [<-|_].
  - exfalso. apply Hf. by left.
  - reflexivity.
Qed.

Lemma basename_path f : plain f -> basename (join IMAGES_DIR f) = f.
Proof. intros Hf. rewrite join_plain by done. unfold basename. by rewrite rsplit_at_app. Qed.

Lemma join_inj f f' : plain f -> plain f' ->
  join IMAGES_DIR f = join IMAGES_DIR f' -> f = f'.
Proof. intros Hf Hf' H. rewrite !join_plain in H by done. by simplify_list_eq. Qed.

(** ** [sorted] *)

Lemma insert_name_perm x l : insert_name x l ≡ₚ x :: l.
Proof.
  induction l as [|y r IH]; cbn; [done|].
  destruct (str_le x y); [done|]. rewrite IH. apply Permutation_swap.
Qed.

Lemma sorted_perm l : sorted l ≡ₚ l.
Proof.
  induction l as [|x l IH]; cbn; [done|]. by rewrite insert_name_perm, IH.
Qed.

Lemma insert_name_sorted x l : names_sorted l -> names_sorted (insert_name x l).
Proof.
  induction l as [|y r IH]; cbn; [done|]. intros [Hy Hr].
  destruct (str_le x y) eqn:Hxy; cbn.
  - split; [|done]. constructor; [done|].
    eapply Forall_impl; [exact Hy|]. intros z Hz. cbn beta. by eapply str_le_trans.
  - split; [|by apply IH]. rewrite insert_name_perm. constructor; [|done].
    by destruct (str_le_total x y) as [H|H]; [congruence|].
Qed.

Lemma sorted_sorted l : names_sorted (sorted l).
Proof. induction l as [|x l IH]; cbn; [done|]. by apply insert_name_sorted. Qed.

Lemma names_sorted_filter (P : str -> Prop) `{!forall x, Decision (P x)} l :
  names_sorted l -> names_sorted (filter P l).
Proof.
  induction l as [|x l IH]; [done|]. intros [Hx Hl]. rewrite filter_cons.
  destruct (decide (P x)); [|by apply IH]. split; [|by apply IH].
  apply Forall_forall. intros y Hy. apply list_elem_of_filter in Hy as [_ Hy].
  rewrite Forall_forall in Hx. by apply Hx.
Qed.

Lemma names_sorted_last l x y :
  names_sorted l -> last l = Some x -> y ∈ l -> str_le y x = true.
Proof.
  induction l as [|z l IH]; [done|]. intros [Hz Hl] Hlast Hy.
  destruct l as [|z' l'].
  - cbn in Hlast. injection Hlast as <-. apply list_elem_of_singleton in Hy as ->.
    destruct (str_le_total z z); done.
  - change (last (z :: z' :: l')) with (last (z' :: l')) in Hlast.
    apply elem_of_cons in Hy as [->|Hy]; [|by apply IH].
    rewrite Forall_forall in Hz. apply Hz. by eapply last_Some_elem_of.
Qed.

(** ** The three lists of [main] *)

Lemma classify_fold (fs : list str) (st : groups) :
  images_main (foldl classify st fs)
  = images_main st
    ++ map (join IMAGES_DIR)
         (filter (fun f => (stem_of f ∉ FORCE_LAST) /\ (stem_of f ∉ NEW_CONSTRUCTS)) fs)
  /\ images_new (foldl classify st fs)
     = images_new st
       ++ map (join IMAGES_DIR)
            (filter (fun f => (stem_of f ∉ FORCE_LAST) /\ stem_of f ∈ NEW_CONSTRUCTS) fs)
  /\ images_force_last (foldl classify st fs)
     = images_force_last st
       ++ map (join IMAGES_DIR) (filter (fun f => stem_of f ∈ FORCE_LAST) fs).
Proof.
  revert st. induction fs as [|f fs IH]; intros st.
  - cbn. by rewrite !app_nil_r.
  - cbn [foldl]. destruct (IH (classify st f)) as (-> & -> & ->).
    rewrite !filter_cons. unfold classify, stem_of.
    destruct (splitext f) as [stem ext]. cbn [fst].
    destruct (decide (stem ∈ (list_to_set FORCE_LAST : gset str))) as [Hl|Hl];
      rewrite elem_of_list_to_set in Hl.
    + cbn [images_main images_new images_force_last].
      rewrite !decide_False by tauto. rewrite decide_True by done.
      split; [done|]. split; [done|]. by rewrite <- app_assoc.
    + destruct (decide (stem ∈ (list_to_set NEW_CONSTRUCTS : gset str))) as [Hn|Hn];
        rewrite elem_of_list_to_set in Hn;
        cbn [images_main images_new images_force_last].
      * rewrite (decide_False (P := _ /\ stem ∉ _)) by tauto.
        rewrite (decide_True (P := _ /\ stem ∈ _)) by tauto.
        rewrite decide_False by done.
        split; [done|]. split; [|done]. by rewrite <- app_assoc.
      * rewrite (decide_True (P := _ /\ stem ∉ _)) by tauto.
        rewrite (decide_False (P := _ /\ stem ∈ _)) by tauto.
        rewrite decide_False by done.
        split; [|done]. by rewrite <- app_assoc.
Qed.

(** ** The dicts from stem to path *)

Lemma stem_to_path_lookup (fs : list str) (s : str) :
  Forall plain fs ->
  stem_to_path (map (join IMAGES_DIR) fs) !! s
  = join IMAGES_DIR <$> last (filter (fun f => stem_of f = s) fs).
Proof.
  unfold stem_to_path. induction fs as [|f fs IH] using rev_ind; intros Hfs; [done|].
  apply Forall_app in Hfs as [Hfs Hf]. apply Forall_inv in Hf.
  rewrite map_app, foldl_app. cbn [map foldl]. rewrite (basename_path f Hf).
  rewrite filter_app, filter_cons, filter_nil. fold (stem_of f).
  destruct (decide (stem_of f = s)) as [<-|Hne].
  - rewrite lookup_insert_eq. by rewrite last_snoc.
  - rewrite lookup_insert_ne by done. rewrite app_nil_r. by apply IH.
Qed.

Lemma omap_pointwise {A B} (f g : A -> option B) (l : list A) :
  (forall x, f x = g x) -> omap f l = omap g l.
Proof.
  intros Hfg. induction l as [|x l IH]; [done|]. cbn. rewrite Hfg.
  destruct (g x); cbn; by rewrite IH.
Qed.

Lemma omap_fmap_option {A B C} (g : A -> option B) (h : B -> C) (l : list A) :
  omap (fun x => h <$> g x) l = map h (omap g l).
Proof.
  induction l as [|x l IH]; [done|]. cbn. destruct (g x); cbn; by rewrite IH.
Qed.

Lemma ordered_chosen (declared fs : list str) :
  Forall plain fs ->
  ordered declared (map (join IMAGES_DIR) fs) = map (join IMAGES_DIR) (chosen declared fs).
Proof.
  intros Hfs. unfold ordered, chosen. rewrite <- omap_fmap_option.
  apply omap_pointwise. intros s. by apply stem_to_path_lookup.
Qed.

Lemma chosen_stems (declared fs : list str) :
  map stem_of (chosen declared fs) = filter (fun s => s ∈ map stem_of fs) declared.
Proof.
  unfold chosen. induction declared as [|s declared IH]; [done|].
  cbn [omap list_omap]. fold (@omap list _ str str). rewrite filter_cons.
  destruct (last (filter (fun f => stem_of f = s) fs)) as [f|] eqn:Hlast.
  - apply last_Some_elem_of, list_elem_of_filter in Hlast as [Hs Hf].
    rewrite decide_True by (apply list_elem_of_fmap; eauto).
    cbn [map]. by rewrite IH, Hs.
  - apply last_None in Hlast.
    rewrite decide_False; [done|]. intros (f & Hs & Hf)%list_elem_of_fmap.
    assert (Hin : f ∈ filter (fun f => stem_of f = s) fs)
      by (by apply list_elem_of_filter).
    rewrite Hlast in Hin. by apply elem_of_nil in Hin.
Qed.

Lemma chosen_greatest (declared fs : list str) (n f : str) :
  names_sorted fs -> n ∈ chosen declared fs -> f ∈ fs -> stem_of f = stem_of n ->
  n ∈ fs /\ str_le f n = true.
Proof.
  intros Hs Hn Hf Hst. unfold chosen in Hn.
  apply list_elem_of_omap in Hn as (s & _ & Hlast).
  pose proof (last_Some_elem_of _ _ Hlast) as Hin.
  apply list_elem_of_filter in Hin as [Hns Hin]. split; [done|].
  eapply names_sorted_last; [|exact Hlast|].
  - by apply names_sorted_filter.
  - apply list_elem_of_filter. split; [congruence|done].
Qed.

(** ** The slides *)

Lemma and_then_Returns {A B} (m : outcome A) (k : A -> outcome B) (b : B) :
  and_then m k = Returns b -> exists a, m = Returns a /\ k a = Returns b.
Proof. destruct m as [a|e]; cbn; [eauto|done]. Qed.

Lemma lift_Returns {A} (m : result A) (a : A) : lift m = Returns a -> m = Ok a.
Proof. destruct m; cbn; congruence. Qed.

Lemma lift_not_IndexError {A} (m : result A) : lift m <> Raises IndexError.
Proof. by destruct m. Qed.

Lemma range_up_bounds fuel i stop step :
  0 < step -> Forall (fun j => i <= j < stop) (range_up fuel i stop step).
Proof.
  intros Hs. revert i. induction fuel as [|fuel IH]; intros i; cbn; [constructor|].
  destruct (Z.ltb_spec i stop); [|constructor].
  constructor; [lia|]. eapply Forall_impl; [apply IH|]. intros j Hj. cbn beta in *. lia.
Qed.

Section WithFloat.
Context {F : Type} {FL : PyFloat F}.

Lemma add_pictures_Returns (positions : list (F * F)) j imgs ps :
  add_pictures positions j imgs = Returns ps ->
  map image_file ps = imgs
  /\ forall (k : nat) (p : picture),
       ps !! k = Some p ->
       exists x_in y_in,
         positions !! (j + k)%nat = Some (x_in, y_in)
         /\ Inches x_in = Ok (pic_left p)
         /\ Inches y_in = Ok (pic_top p)
         /\ Inches IMG_W_IN = Ok (pic_width p).
Proof.
  revert j ps. induction imgs as [|img imgs IH]; intros j ps; cbn [add_pictures].
  - intros [= <-]. split; [done|]. intros k p Hk. by destruct k.
  - destruct (positions !! j) as [[x_in y_in]|] eqn:Hj; [|done]. intros H.
    apply and_then_Returns in H as (x & Hx%lift_Returns & H).
    apply and_then_Returns in H as (y & Hy%lift_Returns & H).
    apply and_then_Returns in H as (w & Hw%lift_Returns & H).
    apply and_then_Returns in H as (rest & Hrest & H).
    injection H as <-. destruct (IH _ _ Hrest) as [Hfiles Hat].
    split; [cbn; by rewrite Hfiles|].
    intros [|k] p Hk.
    + injection Hk as <-. exists x_in, y_in. rewrite Nat.add_0_r. by cbn.
    + cbn in Hk. destruct (Hat k p Hk) as (x' & y' & Hp & H1).
      exists x', y'. split; [|done]. by rewrite <- Hp, Nat.add_succ_r.
Qed.

Lemma add_pictures_no_IndexError (positions : list (F * F)) j imgs :
  (j + length imgs <= length positions)%nat ->
  add_pictures positions j imgs <> Raises IndexError.
Proof.
  revert j. induction imgs as [|img imgs IH]; intros j Hlen; cbn [add_pictures];
    [done|].
  cbn [length] in Hlen.
  destruct (positions !! j) as [[x_in y_in]|] eqn:Hj.
  - destruct (Inches x_in); cbn; [|done]. destruct (Inches y_in); cbn; [|done].
    destruct (Inches IMG_W_IN); cbn; [|done].
    specialize (IH (S j) ltac:(lia)).
    by destruct (add_pictures positions (S j) imgs) as [ps|[]].
  - apply lookup_ge_None in Hj. lia.
Qed.

Lemma add_slides_at_Returns (positions : list (F * F)) n images slides starts slides' :
  add_slides_at positions n images slides starts = Returns slides' ->
  exists new,
    slides' = slides ++ new
    /\ Forall2 (fun i sl => map image_file sl = slice i (i + n) images
                            /\ at_positions positions sl) starts new.
Proof.
  revert slides. induction starts as [|i starts IH]; intros slides; cbn [add_slides_at].
  - intros [= <-]. exists []. by rewrite app_nil_r.
  - intros H. apply and_then_Returns in H as (ps & Hps & H).
    destruct (IH _ H) as (new & -> & Hnew).
    exists (ps :: new). split; [by rewrite <- app_assoc|].
    constructor; [|done]. apply add_pictures_Returns in Hps as [Hfiles Hat].
    split; [done|]. intros k p Hk. by apply Hat.
Qed.

Lemma add_slides_at_no_IndexError (positions : list (F * F)) n images slides starts :
  0 < n <= Z.of_nat (length positions) ->
  Forall (fun i => 0 <= i) starts ->
  add_slides_at positions n images slides starts <> Raises IndexError.
Proof.
  intros Hn. revert slides.
  induction starts as [|i starts IH]; intros slides Hst; cbn [add_slides_at]; [done|].
  apply Forall_cons in Hst as [Hi Hst].
  pose proof (add_pictures_no_IndexError positions 0 (slice i (i + n) images)) as Hno.
  destruct (add_pictures positions 0 (slice i (i + n) images)) as [ps|e]; cbn.
  - by apply IH.
  - intros [= ->]. apply Hno; [|done].
    rewrite slice_chunk, length_take by lia. lia.
Qed.

Lemma add_slides_Returns (positions : list (F * F)) slides images slides' :
  add_slides positions 16 slides images = Returns slides' ->
  exists new,
    slides' = slides ++ new
    /\ files new = images
    /\ Forall (fun sl => (0 < length sl <= 16)%nat /\ at_positions positions sl) new
    /\ Z.of_nat (length new) = ceil_div (Z.of_nat (length images)) 16.
Proof.
  unfold add_slides, range. cbn [Z.eqb Z.ltb Z.compare lift and_then].
  rewrite Z.sub_0_r, Nat2Z.id. intros H.
  apply add_slides_at_Returns in H as (new & -> & Hnew).
  exists new. split; [done|].
  pose proof (range_up_bounds (length images) 0 (Z.of_nat (length images)) 16
                ltac:(lia)) as Hb.
  pose proof (range_up_length (length images) 0 (Z.of_nat (length images)) 16
                ltac:(lia) ltac:(lia)) as Hlen.
  pose proof (range_up_chunks images (length images) 0 16 ltac:(lia) ltac:(lia)
                ltac:(lia)) as Hcat.
  set (starts := range_up (length images) 0 (Z.of_nat (length images)) 16) in *.
  split; [|split].
  - rewrite <- (drop_0 images). change 0%nat with (Z.to_nat 0). rewrite <- Hcat.
    unfold files. f_equal. clear -Hnew.
    induction Hnew as [|i sl starts new [Hsl _] _ IH]; [done|]. cbn. by rewrite Hsl, IH.
  - clear Hlen Hcat. induction Hnew as [|i sl starts new [Hsl Hat] _ IH];
      [constructor|].
    apply Forall_cons in Hb as [Hi Hb]. constructor; [|by apply IH].
    split; [|done].
    rewrite <- (length_map image_file), Hsl, slice_chunk, length_take, length_drop by lia.
    lia.
  - rewrite <- (Forall2_length _ _ _ Hnew), Hlen, Z.sub_0_r.
    pose proof (ceil_div_spec (Z.of_nat (length images)) 16 ltac:(lia)). lia.
Qed.

Lemma add_slides_no_IndexError (positions : list (F * F)) slides images :
  (16 <= length positions)%nat ->
  add_slides positions 16 slides images <> Raises IndexError.
Proof.
  intros Hlen. unfold add_slides, range. cbn [Z.eqb Z.ltb Z.compare lift and_then].
  apply add_slides_at_no_IndexError; [lia|].
  eapply Forall_impl; [by apply range_up_bounds|]. intros j Hj. cbn beta in Hj. lia.
Qed.

Lemma main_positions_length (page_w_in page_h_in : F) :
  length (main_positions page_w_in page_h_in) = 16%nat.
Proof.
  unfold main_positions. cbv zeta.
  pose proof (LayoutFacts.grid_positions_length ROWS COLS IMG_W_IN
                (fmul IMG_W_IN (fdiv (of_dec 5.0) (of_dec 6.0))) HSPACE_IN VSPACE_IN
                page_w_in page_h_in (of_dec 0.5)) as H.
  revert H. unfold ROWS, COLS. lia.
Qed.

End WithFloat.

(** ** [main] *)

Lemma not_new_and_last (s : str) : s ∈ NEW_CONSTRUCTS -> s ∉ FORCE_LAST.
Proof.
  intros Hn Hl. apply list_elem_of_singleton in Hl as ->.
  revert Hn. unfold NEW_CONSTRUCTS. rewrite !elem_of_cons, elem_of_nil.
  intros [H|[H|[H|[H|[H|[]]]]]]; revert H; vm_compute; discriminate.
Qed.

Lemma filter_none {A} (P : A -> Prop) `{!forall x, Decision (P x)} (l : list A) :
  (forall x, x ∈ l -> ~ P x) -> filter P l = [].
Proof.
  induction l as [|x l IH]; intros Hl; [done|]. rewrite filter_cons.
  rewrite decide_False by (apply Hl; by left). apply IH. intros y Hy. apply Hl. by right.
Qed.

Section WithTables.
Context {F : Type} {FL : PyFloat F} {U : Unicode}.

Lemma add_pictures_no_exit (positions : list (F * F)) j imgs msg :
  add_pictures positions j imgs <> Raises (SystemExit msg).
Proof.
  revert j. induction imgs as [|img imgs IH]; intros j; cbn [add_pictures]; [done|].
  destruct (positions !! j) as [[x_in y_in]|]; [|done].
  destruct (Inches x_in); cbn; [|done]. destruct (Inches y_in); cbn; [|done].
  destruct (Inches IMG_W_IN); cbn; [|done].
  specialize (IH (S j)).
  by destruct (add_pictures positions (S j) imgs) as [ps|[]].
Qed.

Lemma add_slides_no_exit (positions : list (F * F)) n slides images msg :
  add_slides positions n slides images <> Raises (SystemExit msg).
Proof.
  unfold add_slides. destruct (range 0 (Z.of_nat (length images)) n) as [starts|e];
    cbn [lift and_then]; [|done].
  revert slides. induction starts as [|i starts IH]; intros slides;
    cbn [add_slides_at]; [done|].
  pose proof (add_pictures_no_exit positions 0 (slice i (i + n) images) msg) as Hno.
  destruct (add_pictures positions 0 (slice i (i + n) images)) as [ps|e]; cbn.
  - apply IH.
  - congruence.
Qed.

(** The sorted image files and their three groups. *)
Lemma main_groups_of (names : list str) :
  let all_files := filter (fun f => is_image f = true) names in
  let st := foldl classify
              {| images_new := []; images_main := []; images_force_last := [] |}
              (sorted all_files) in
  images_main st
  = map (join IMAGES_DIR)
      (filter (fun f => (stem_of f ∉ FORCE_LAST) /\ (stem_of f ∉ NEW_CONSTRUCTS))
         (sorted all_files))
  /\ images_new st
     = map (join IMAGES_DIR)
         (filter (fun f => (stem_of f ∉ FORCE_LAST) /\ stem_of f ∈ NEW_CONSTRUCTS)
            (sorted all_files))
  /\ images_force_last st
     = map (join IMAGES_DIR)
         (filter (fun f => stem_of f ∈ FORCE_LAST) (sorted all_files)).
Proof. cbv zeta. apply classify_fold. Qed.

Lemma main_exit_iff (page_w_in page_h_in : F) (names : list str) :
  main page_w_in page_h_in (Some names) = Raises (SystemExit no_images)
  <-> Forall (fun f => is_image f = true -> stem_of f ∈ FORCE_LAST) names.
Proof.
  unfold main. cbv zeta.
  destruct (main_groups_of names) as (Hm & Hn & _). cbv zeta in Hm, Hn.
  set (all_files := filter (fun f => is_image f = true) names) in *.
  set (st := foldl classify _ (sorted all_files)) in *.
  assert (Hin : forall f, f ∈ sorted all_files <-> f ∈ names /\ is_image f = true).
  { intros f. rewrite sorted_perm. unfold all_files. rewrite list_elem_of_filter. tauto. }
  split.
  - intros H. destruct (decide (images_main st = [] /\ images_new st = [])) as [[H1 H2]|_].
    + rewrite Hm in H1. rewrite Hn in H2.
      apply fmap_nil_inv in H1. apply fmap_nil_inv in H2.
      apply Forall_forall. intros f Hf Himg.
      assert (Hs : f ∈ sorted all_files) by (by apply Hin).
      destruct (decide (stem_of f ∈ FORCE_LAST)) as [|Hnl]; [done|]. exfalso.
      destruct (decide (stem_of f ∈ NEW_CONSTRUCTS)) as [Hnew|Hnew].
      * assert (Hx : f ∈ filter (fun f => (stem_of f ∉ FORCE_LAST)
                                           /\ stem_of f ∈ NEW_CONSTRUCTS)
                            (sorted all_files))
          by (by apply list_elem_of_filter).
        rewrite H2 in Hx. by apply elem_of_nil in Hx.
      * assert (Hx : f ∈ filter (fun f => (stem_of f ∉ FORCE_LAST)
                                           /\ (stem_of f ∉ NEW_CONSTRUCTS))
                            (sorted all_files))
          by (by apply list_elem_of_filter).
        rewrite H1 in Hx. by apply elem_of_nil in Hx.
    + exfalso. revert H.
      destruct (add_slides _ _ [] (images_main st)) as [s1|e] eqn:E1; cbn [and_then].
      2: { intros [= ->]. by eapply add_slides_no_exit. }
      destruct (add_slides _ _ s1 _) as [s2|e] eqn:E2; cbn [and_then].
      2: { intros [= ->]. by eapply add_slides_no_exit. }
      apply add_slides_no_exit.
  - intros Hall. rewrite Forall_forall in Hall.
    rewrite decide_True; [done|]. rewrite Hm, Hn. split.
    + rewrite filter_none; [done|].
      intros f Hf [Hnl _]. apply Hin in Hf as [Hf Himg]. auto.
    + rewrite filter_none; [done|].
      intros f Hf [Hnl _]. apply Hin in Hf as [Hf Himg]. auto.
Qed.

Lemma main_no_IndexError (page_w_in page_h_in : F) (listing : option (list str)) :
  main page_w_in page_h_in listing <> Raises IndexError.
Proof.
  unfold main. cbv zeta. destruct listing as [names|]; [|done].
  destruct (decide _) as [_|_]; [done|].
  change (ROWS * COLS) with 16.
  pose proof (main_positions_length page_w_in page_h_in) as Hlen.
  assert (Hpos : (16 <= length (main_positions page_w_in page_h_in))%nat) by lia.
  match goal with |- and_then (add_slides ?p 16 [] ?l) _ <> _ =>
    pose proof (add_slides_no_IndexError p [] l Hpos) as H1;
    destruct (add_slides p 16 [] l) as [s1|e] eqn:E1; cbn [and_then]; [|congruence]
  end.
  match goal with |- and_then (add_slides ?p 16 s1 ?l) _ <> _ =>
    pose proof (add_slides_no_IndexError p s1 l Hpos) as H2;
    destruct (add_slides p 16 s1 l) as [s2|e] eqn:E2; cbn [and_then]; [|congruence]
  end.
  by apply add_slides_no_IndexError.
Qed.

Lemma main_Returns (page_w_in page_h_in : F) (names : list str)
  (slides : list (list picture)) :
  Forall plain names ->
  main page_w_in page_h_in (Some names) = Returns slides ->
  exists mains news lasts S1 S2 S3,
    slides = S1 ++ S2 ++ S3
    /\ (files S1 = map (join IMAGES_DIR) mains
        /\ files S2 = map (join IMAGES_DIR) news
        /\ files S3 = map (join IMAGES_DIR) lasts)
    /\ (mains ≡ₚ filter is_main names /\ names_sorted mains)
    /\ (map stem_of news
        = filter (fun s => s ∈ map stem_of (filter (fun f => is_image f = true) names))
            NEW_CONSTRUCTS
        /\ map stem_of lasts
           = filter (fun s => s ∈ map stem_of (filter (fun f => is_image f = true) names))
               FORCE_LAST)
    /\ (forall n f, n ∈ news ++ lasts -> f ∈ names -> is_image f = true ->
          stem_of f = stem_of n ->
          (n ∈ names /\ is_image n = true) /\ str_le f n = true)
    /\ Forall (fun sl => (0 < length sl <= 16)%nat
                         /\ at_positions (main_positions page_w_in page_h_in) sl) slides
    /\ (Z.of_nat (length S1) = ceil_div (Z.of_nat (length mains)) 16
        /\ Z.of_nat (length S2) = ceil_div (Z.of_nat (length news)) 16
        /\ Z.of_nat (length S3) = ceil_div (Z.of_nat (length lasts)) 16).
Proof.
  intros Hplain. unfold main. cbv zeta.
  destruct (main_groups_of names) as (Hm & Hn & Hl). cbv zeta in Hm, Hn, Hl.
  set (all_files := filter (fun f => is_image f = true) names) in *.
  set (st := foldl classify _ (sorted all_files)) in *.
  assert (Hin : forall f, f ∈ sorted all_files <-> f ∈ names /\ is_image f = true).
  { intros f. rewrite sorted_perm. unfold all_files. rewrite list_elem_of_filter. tauto. }
  assert (Hpl : forall (P : str -> Prop) `{!forall x, Decision (P x)},
             Forall plain (filter P (sorted all_files))).
  { intros P ?. apply Forall_forall. intros f Hf.
    apply list_elem_of_filter in Hf as [_ Hf]. apply Hin in Hf as [Hf _].
    rewrite Forall_forall in Hplain. by apply Hplain. }
  destruct (decide _) as [_|_]; [done|]. change (ROWS * COLS) with 16.
  rewrite Hm, Hn, Hl, !ordered_chosen by apply Hpl.
  set (fs_main := filter _ (sorted all_files)).
  set (fs_new := filter (fun f => _ /\ stem_of f ∈ NEW_CONSTRUCTS) (sorted all_files)).
  set (fs_last := filter (fun f => stem_of f ∈ FORCE_LAST) (sorted all_files)).
  intros H.
  apply and_then_Returns in H as (s1 & H1 & H).
  apply and_then_Returns in H as (s2 & H2 & H3).
  apply add_slides_Returns in H1 as (S1 & -> & Hf1 & Hs1 & Hc1).
  apply add_slides_Returns in H2 as (S2 & -> & Hf2 & Hs2 & Hc2).
  apply add_slides_Returns in H3 as (S3 & -> & Hf3 & Hs3 & Hc3).
  rewrite !length_map in Hc1, Hc2, Hc3.
  exists fs_main, (chosen NEW_CONSTRUCTS fs_new), (chosen FORCE_LAST fs_last), S1, S2, S3.
  split; [by rewrite <- app_assoc|]. split; [done|]. split; [split|].
  { unfold fs_main. rewrite sorted_perm. unfold all_files.
    rewrite list_filter_filter. unfold is_main.
    erewrite (filter_ext_elem _ (fun f => is_image f = true
                /\ (stem_of f ∉ FORCE_LAST) /\ (stem_of f ∉ NEW_CONSTRUCTS)));
      [done|]. intros f _. cbn beta. tauto. }
  { apply names_sorted_filter, sorted_sorted. }
  split; [split|].
  { rewrite chosen_stems. apply filter_ext_elem. intros s Hs.
    rewrite !list_elem_of_fmap. split.
    - intros (f & -> & Hf). exists f. split; [done|].
      apply list_elem_of_filter in Hf as [_ Hf]. by rewrite <- sorted_perm.
    - intros (f & -> & Hf). exists f. split; [done|].
      apply list_elem_of_filter. split; [|by rewrite sorted_perm].
      split; [by apply not_new_and_last|done]. }
  { rewrite chosen_stems. apply filter_ext_elem. intros s Hs.
    rewrite !list_elem_of_fmap. split.
    - intros (f & -> & Hf). exists f. split; [done|].
      apply list_elem_of_filter in Hf as [_ Hf]. by rewrite <- sorted_perm.
    - intros (f & -> & Hf). exists f. split; [done|].
      apply list_elem_of_filter. split; [done|by rewrite sorted_perm]. }
  split; [|split].
  - intros n f Hnl Hf Himg Hst.
    assert (Hfs : f ∈ sorted all_files) by (by apply Hin).
    apply elem_of_app in Hnl as [Hnn|Hnn].
    + assert (Hnf : n ∈ fs_new).
      { unfold chosen in Hnn. apply list_elem_of_omap in Hnn as (s & _ & Hlast).
        by apply last_Some_elem_of, list_elem_of_filter in Hlast as [_ ?]. }
      pose proof Hnf as Hnf'. apply list_elem_of_filter in Hnf' as [[Ha Hb] Hn'].
      destruct (chosen_greatest NEW_CONSTRUCTS fs_new n f) as [_ Hle];
        [apply names_sorted_filter, sorted_sorted|done| |done|].
      * apply list_elem_of_filter. rewrite Hst. done.
      * split; [by apply Hin|done].
    + assert (Hnf : n ∈ fs_last).
      { unfold chosen in Hnn. apply list_elem_of_omap in Hnn as (s & _ & Hlast).
        by apply last_Some_elem_of, list_elem_of_filter in Hlast as [_ ?]. }
      pose proof Hnf as Hnf'. apply list_elem_of_filter in Hnf' as [Ha Hn'].
      destruct (chosen_greatest FORCE_LAST fs_last n f) as [_ Hle];
        [apply names_sorted_filter, sorted_sorted|done| |done|].
      * apply list_elem_of_filter. rewrite Hst. done.
      * split; [by apply Hin|done].
  - rewrite !Forall_app. cbn in *. done.
  - done.
Qed.

Lemma main_layout (page_w_in page_h_in : F) (listing : option (list str))
  (slides : list (list picture)) :
  main page_w_in page_h_in listing = Returns slides ->
  Forall (fun sl => (0 < length sl <= 16)%nat
                    /\ at_positions (main_positions page_w_in page_h_in) sl) slides.
Proof.
  unfold main. cbv zeta. destruct listing as [names|]; [|done].
  destruct (decide _) as [_|_]; [done|]. change (ROWS * COLS) with 16. intros H.
  apply and_then_Returns in H as (s1 & H1 & H).
  apply and_then_Returns in H as (s2 & H2 & H3).
  apply add_slides_Returns in H1 as (S1 & -> & _ & Hs1 & _).
  apply add_slides_Returns in H2 as (S2 & -> & _ & Hs2 & _).
  apply add_slides_Returns in H3 as (S3 & -> & _ & Hs3 & _).
  rewrite !Forall_app. cbn. done.
Qed.

End WithTables.

End MaldiFacts.

(* ===================================================================== *)
(** * Part IX: further properties *)
(* ===================================================================== *)

Import Str Matcher Py Deck Notions Names Peaks Stems Tht.
Import StrFacts MatcherFacts PyFacts DeckFacts ExactFacts.
Import NamesFacts OrderFacts PeaksFacts LayoutFacts StemsFacts ThtFacts WithinFacts.

Lemma ascii_word_laws : WordLaws ascii_tables.
Proof. split. intros c _ Hc. done. Qed.

Lemma ascii_case_laws : CaseLaws ascii_tables.
Proof. split; done. Qed.

Lemma ascii_stem_laws : StemLaws ascii_data.
Proof. split; done. Qed.

(** ** Keys of HPLC/make_hplc_pptx.py *)

(** [_norm_name] is idempotent: the key of a key is the key itself. *)
Theorem norm_name_idempotent (U : Unicode) (laws : WordLaws U) (x : str) :
  _norm_name (_norm_name x) = _norm_name x.
Proof. apply norm_name_idem. Qed.

(** The name of a page-3 column with blanks and a group. *)
Lemma norm_name_idempotent_witness :
  WordLaws ascii_tables
  /\ @_norm_name ascii_tables (@_norm_name ascii_tables (lit " m-(V/A/K) 80 "))
     = lit "m-_V_A_K_80".
Proof.
  split; [exact ascii_word_laws|].
  rewrite (norm_name_idempotent ascii_tables ascii_word_laws). vm_compute. reflexivity.
Defined.

(** A key holds word characters and hyphens only, never two underscores
    in a row, and no underscore at either end. *)
Theorem norm_name_shape (U : Unicode) (x : str) :
  Forall (fun c => is_word c = true \/ c = cp_minus) (_norm_name x)
  /\ ~ adjacent cp_underscore cp_underscore (_norm_name x)
  /\ head (_norm_name x) <> Some cp_underscore
  /\ last (_norm_name x) <> Some cp_underscore.
Proof.
  destruct (norm_name_pieces x) as (Hf & Hn & Hh & Hl).
  split; [|done]. eapply Forall_impl; [exact Hf|]. intros c [Hc| ->].
  - unfold is_token in Hc. apply orb_true_iff in Hc as [Hc|Hc].
    + left. by apply andb_true_iff in Hc as [? _].
    + right. by apply N.eqb_eq.
  - by left.
Qed.

(** [_norm_name] in one pass: the maximal runs of letters, digits and
    hyphens of the name, joined by single underscores. *)
Theorem norm_name_one_pass (U : Unicode) (laws : WordLaws U) (x : str) :
  _norm_name x = join_tokens Start x.
Proof. apply norm_name_join. Qed.

(** A name with blanks, a dot, a group and underscores at the ends. *)
Lemma norm_name_one_pass_witness :
  WordLaws ascii_tables
  /\ @_norm_name ascii_tables (lit "__N15 linker.(V30)_ ")
     = @join_tokens ascii_tables Start (lit "__N15 linker.(V30)_ ")
  /\ @join_tokens ascii_tables Start (lit "__N15 linker.(V30)_ ")
     = lit "N15_linker_V30".
Proof.
  split; [exact ascii_word_laws|]. split; [|vm_compute; reflexivity].
  apply (norm_name_one_pass ascii_tables ascii_word_laws).
Defined.



(** ** The order of the images *)

(** The ordering of [main] neither invents nor repeats: every image of the
    output is one of the folder, no two images of the output share a key,
    every key of the folder has an image in the output, and when the keys
    of the folder differ the output is a permutation of the folder. *)
Theorem order_images_one_per_key (U : Unicode) (imgs : list Path)
  (sources : list (list str * option str)) :
  (forall p, p ∈ order_images imgs sources -> p ∈ imgs)
  /\ NoDup (key_of <$> order_images imgs sources)
  /\ (forall p, p ∈ imgs -> key_of p ∈ key_of <$> order_images imgs sources)
  /\ (NoDup (key_of <$> imgs) -> order_images imgs sources ≡ₚ imgs).
Proof.
  destruct (order_images_keys imgs sources) as (H1 & H2 & H3).
  split; [done|]. split; [done|]. split; [done|]. apply order_images_perm.
Qed.

(** Two files with one key: the page takes the one listed last. *)
Lemma order_images_one_per_key_witness :
  @order_images ascii_tables [png (lit "a b_chrom"); png (lit "a_b_chrom")]
    [([lit "a b"], None)] = [png (lit "a_b_chrom")]
  /\ NoDup (@key_of ascii_tables
              <$> @order_images ascii_tables
                    [png (lit "a b_chrom"); png (lit "a_b_chrom")]
                    [([lit "a b"], None)]).
Proof.
  split; [vm_compute; reflexivity|].
  apply (order_images_one_per_key ascii_tables).
Defined.

(** [main] of make_hplc_pptx.py keeps the images of the folder whose key is
    the [_norm_name] of a page construct, plain or tagged (all images when
    the pages name no construct), and when the keys of the folder differ it
    returns them all, each once. *)
Theorem main_order_allowed (U : Unicode) (imgs : list Path)
  (page1 page2 page3 page4 : list str) :
  (forall p, p ∈ main_order imgs page1 page2 page3 page4 ->
     p ∈ imgs
     /\ (page1 ++ page2 ++ page3 ++ page4 <> [] ->
         exists c, c ∈ page1 ++ page2 ++ page3 ++ page4
           /\ (key_of p = _norm_name c
               \/ key_of p = _norm_name (c ++ lit "_p3distinct"))))
  /\ (NoDup (key_of <$> imgs) ->
      main_order imgs page1 page2 page3 page4
      ≡ₚ filter_allowed (build_allowed [page1; page2; page3; page4]) imgs)
  /\ main_order imgs [] [] [] [] = order_images imgs [([], None); ([], None);
                                     ([], Some (lit "_p3distinct")); ([], None)].
Proof.
  split; [apply main_order_keys|]. split; [apply main_order_perm|].
  reflexivity.
Qed.

(** A stale picture is dropped, and page 3 takes the tagged picture. *)
Lemma main_order_allowed_witness :
  @main_order ascii_tables
    [png (lit "SSS_chrom"); png (lit "SSS_p3distinct_chrom"); png (lit "old_chrom")]
    [lit "SSS"] [] [lit "SSS"] []
  = [png (lit "SSS_chrom"); png (lit "SSS_p3distinct_chrom")]
  /\ png (lit "SSS_chrom")
     ∈ [png (lit "SSS_chrom"); png (lit "SSS_p3distinct_chrom"); png (lit "old_chrom")].
Proof.
  split; [vm_compute; reflexivity|].
  refine (proj1 (proj1 (main_order_allowed ascii_tables
                          [png (lit "SSS_chrom"); png (lit "SSS_p3distinct_chrom");
                           png (lit "old_chrom")]
                          [lit "SSS"] [] [lit "SSS"] []) (png (lit "SSS_chrom")) _)).
  assert (He : @main_order ascii_tables
                 [png (lit "SSS_chrom"); png (lit "SSS_p3distinct_chrom");
                  png (lit "old_chrom")] [lit "SSS"] [] [lit "SSS"] []
               = [png (lit "SSS_chrom"); png (lit "SSS_p3distinct_chrom")])
    by (vm_compute; reflexivity).
  rewrite He. apply list_elem_of_here.
Defined.

(** ** Keys of MALDI/plot_maldi_constructs.py *)





(** ** Peaks of a chromatogram *)

(** The loop of [_peak_metrics] always ends, with the maximal runs of true
    entries of the mask and nothing else: every segment is such a run, the
    segments come in increasing order with a false entry between two of
    them, and every true entry lies in a segment. *)
Theorem peak_segments (mask : list bool) :
  exists segs,
    segments mask = Some segs
    /\ Forall (is_run mask) segs
    /\ separated 0 segs
    /\ (forall k, mask !! k = Some true ->
          exists a b, (a, b) ∈ segs /\ (a <= k <= b)%nat).
Proof. apply segments_spec. Qed.

(** ** Positions of MALDI/make_maldi_ppt.py *)

(** [grid_positions] returns one position per cell, row by row: for [rows]
    and [cols] not negative it has [rows * cols] entries, and the entry at
    index [r * cols + c] is the first entry moved right by [c] cells and
    down by [r] cells, so the index [j] of [main] is never out of range. *)
Theorem grid_positions_row_major (F : Type) (FL : PyFloat F) (rows cols : Z)
  (img_w img_h hspace vspace page_w page_h margin : F) :
  Z.of_nat (length (grid_positions rows cols img_w img_h hspace vspace
                      page_w page_h margin))
  = Z.max 0 rows * Z.max 0 cols
  /\ forall r c : nat,
       Z.of_nat r < rows -> Z.of_nat c < cols ->
       exists left top,
         grid_positions rows cols img_w img_h hspace vspace page_w page_h margin
           !! (r * Z.to_nat cols + c)%nat
         = Some (fadd left (fmul (of_int (Z.of_nat c)) (fadd img_w hspace)),
                 fadd top (fmul (of_int (Z.of_nat r)) (fadd img_h vspace)))
         /\ grid_positions rows cols img_w img_h hspace vspace page_w page_h margin
              !! 0%nat
            = Some (fadd left (fmul (of_int 0) (fadd img_w hspace)),
                    fadd top (fmul (of_int 0) (fadd img_h vspace))).
Proof.
  split.
  - rewrite grid_positions_length. lia.
  - intros r c Hr Hc. apply grid_positions_lookup; lia.
Qed.

(** The last cell of the grid of [main], in exact arithmetic. *)
Lemma grid_positions_row_major_witness :
  exists pos,
    grid_positions (FL:=exact) 4 4 1.96%Q (1.96 * (5 / 6))%Q 0.05%Q 0.2%Q 10%Q 7.5%Q
      0.5%Q !! 15%nat = Some pos.
Proof.
  destruct (proj2 (grid_positions_row_major Q exact 4 4 1.96%Q (1.96 * (5 / 6))%Q
                     0.05%Q 0.2%Q 10%Q 7.5%Q 0.5%Q) 3%nat 3%nat)
    as (left & top & H & _); [lia|lia|].
  eexists. exact H.
Defined.

(** ** Slides of THT/add_images_to_ppt.py *)



(** [main] puts every collected picture on exactly one slide: the
    three-letter titles sorted by title first, then the other pictures, then
    the five named last, each batch on slides of 8 by 18 of its own; in
    exact arithmetic the call returns. *)
Theorem main_places_all (others : list item) :
  (forall F (FL : PyFloat F) prs prs',
     main_slides prs others = Ok prs' ->
     let '(three_letter, remaining, last_items) := main_groups others in
     exists new,
       slides prs' = slides prs ++ new
       /\ concat (map pictures new)
          = map path (sort_by_title three_letter ++ remaining ++ last_items)
       /\ concat (map pictures new) ≡ₚ map path others
       /\ Forall (fun sl => Z.of_nat (length sl) <= 144) new
       /\ Z.of_nat (length new)
          = ceil_div (Z.of_nat (length three_letter)) 144
            + ceil_div (Z.of_nat (length remaining)) 144
            + ceil_div (Z.of_nat (length last_items)) 144)
  /\ (forall l, titles_sorted (sort_by_title l) /\ sort_by_title l ≡ₚ l)
  /\ (forall prs,
        Forall (fun it => native_width it <> 0 /\ native_height it <> 0) others ->
        exists prs', main_slides (FL:=exact) prs others = Ok prs').
Proof.
  split; [|split].
  - intros F FL prs prs'. apply main_slides_Ok.
  - intros l. split; [apply sort_by_title_sorted|apply sort_by_title_perm].
  - intros prs. apply main_slides_exact_total.
Qed.




(** ** Stems of MALDI/plot_maldi_constructs.py *)

(** [safe_stem] always returns a usable stem, whatever the Unicode tables:
    it is never empty, holds ASCII letters, digits, dots, underscores and
    hyphens only, has no two underscores in a row, and neither starts nor
    ends with a dot, an underscore or a space. *)
Theorem safe_stem_safe (D : Unicodedata) (name : str) :
  safe_stem name <> []
  /\ Forall (fun c => is_safe_char c = true) (safe_stem name)
  /\ ~ adjacent cp_underscore cp_underscore (safe_stem name)
  /\ ends_ok (in_chars (lit "._ ")) (safe_stem name).
Proof. apply safe_stem_shape. Qed.

(** [safe_stem] is idempotent. *)
Theorem safe_stem_idempotent (D : Unicodedata) (laws : StemLaws D) (name : str) :
  safe_stem (safe_stem name) = safe_stem name.
Proof. apply safe_stem_idem. Qed.

(** The construct N15_(V/A/K)80. *)
Lemma safe_stem_idempotent_witness :
  StemLaws ascii_data
  /\ @safe_stem ascii_data (@safe_stem ascii_data (lit "N15_(V/A/K)80"))
     = lit "N15_V_A_K_80".
Proof.
  split; [exact ascii_stem_laws|].
  rewrite (safe_stem_idempotent ascii_data ascii_stem_laws). vm_compute. reflexivity.
Defined.


(** Two three-letter pictures out of order, one other and one of the last. *)
Lemma main_places_all_witness :
  exists prs',
    main_slides (FL:=exact) (deck 5943600 10689336)
      [image (lit "GGS") 100 100; image (lit "GGA") 100 100;
       image (lit "V30") 100 100; image (lit "N15_V30") 100 100] = Ok prs'
    /\ flat_map pictures (slides prs')
       = [lit "GGA.png"; lit "GGS.png"; lit "N15_V30.png"; lit "V30.png"].
Proof.
  set (others := [image (lit "GGS") 100 100; image (lit "GGA") 100 100;
                  image (lit "V30") 100 100; image (lit "N15_V30") 100 100]).
  destruct (main_places_all others) as (Hok & _ & Htot).
  destruct (Htot (deck 5943600 10689336)) as [prs' Hprs].
  { unfold others. repeat constructor; cbn; lia. }
  exists prs'. split; [exact Hprs|].
  pose proof (Hok Q exact _ _ Hprs) as Hm.
  assert (Hg : main_groups others
               = ([image (lit "GGS") 100 100; image (lit "GGA") 100 100],
                  [image (lit "N15_V30") 100 100], [image (lit "V30") 100 100]))
    by (vm_compute; reflexivity).
  rewrite Hg in Hm. destruct Hm as (new & Hnew & Hpic & _).
  rewrite Hnew. cbn [slides deck app].
  rewrite flat_map_concat_map. exact Hpic.
Defined.

(** ** The cells of HPLC/make_hplc_pptx.py *)

Import Cells CellsFacts.





(** ** The deck of MALDI/make_maldi_ppt.py *)

Import Maldi MaldiFacts.

(** [main] stops with its message that no images were found exactly when
    every image file of the directory is one of the constructs forced to
    the end: such files alone do not make a deck. *)
Theorem maldi_main_no_images (F : Type) (FL : PyFloat F) (U : Unicode)
  (page_w_in page_h_in : F) (names : list str) :
  main page_w_in page_h_in (Some names) = Raises (SystemExit no_images)
  <-> Forall (fun f => is_image f = true -> stem_of f ∈ FORCE_LAST) names.
Proof. apply main_exit_iff. Qed.

(** A directory with the forced-last construct and a text file. *)
Lemma maldi_main_no_images_witness :
  main (F:=float) (U:=ascii_tables) (of_dec 10) (of_dec 7.5)
    (Some [lit "N15_dnmt_SAA.png"; lit "notes.txt"])
  = Raises (SystemExit (lit "No images found in 'plots-MALDI'")).
Proof.
  apply (proj2 (maldi_main_no_images float binary64 ascii_tables (of_dec 10)
                  (of_dec 7.5) [lit "N15_dnmt_SAA.png"; lit "notes.txt"])).
  constructor; [intros _; vm_compute; by left|].
  constructor; [|constructor]. vm_compute. discriminate.
Defined.

(** The pictures of the deck [main] saves, for file names without a slash.
    The slides come in three groups. The first holds the image files that
    are neither a new construct nor forced to the end, all of them, in the
    order of the file names; the second holds one file for each new
    construct that has one, in the declared order; the third does the same
    for the constructs forced to the end. Of several image files with the
    stem of such a construct the one with the greatest name is taken. Each
    group takes as many slides as its pictures need at 16 a slide. *)
Theorem maldi_main_order (F : Type) (FL : PyFloat F) (U : Unicode)
  (page_w_in page_h_in : F) (names : list str) (slides : list (list picture)) :
  Forall plain names ->
  main page_w_in page_h_in (Some names) = Returns slides ->
  exists mains news lasts S1 S2 S3,
    slides = S1 ++ S2 ++ S3
    /\ (files S1 = map (join IMAGES_DIR) mains
        /\ files S2 = map (join IMAGES_DIR) news
        /\ files S3 = map (join IMAGES_DIR) lasts)
    /\ (mains ≡ₚ filter is_main names /\ names_sorted mains)
    /\ (map stem_of news
        = filter (fun s => s ∈ map stem_of (filter (fun f => is_image f = true) names))
            NEW_CONSTRUCTS
        /\ map stem_of lasts
           = filter (fun s => s ∈ map stem_of (filter (fun f => is_image f = true) names))
               FORCE_LAST)
    /\ (forall n f, n ∈ news ++ lasts -> f ∈ names -> is_image f = true ->
          stem_of f = stem_of n ->
          (n ∈ names /\ is_image n = true) /\ str_le f n = true)
    /\ (Z.of_nat (length S1) = ceil_div (Z.of_nat (length mains)) 16
        /\ Z.of_nat (length S2) = ceil_div (Z.of_nat (length news)) 16
        /\ Z.of_nat (length S3) = ceil_div (Z.of_nat (length lasts)) 16).
Proof.
  intros Hplain H.
  destruct (main_Returns _ _ _ _ Hplain H)
    as (mains & news & lasts & S1 & S2 & S3 & H1 & H2 & H3 & H4 & H5 & _ & H7).
  exists mains, news, lasts, S1, S2, S3.
  split; [exact H1|]. split; [exact H2|]. split; [exact H3|]. split; [exact H4|].
  split; [exact H5|exact H7].
Qed.

(** [main] never fails on a position of the grid, and every slide of the
    deck it saves holds between 1 and 16 pictures, the one at index [j] at
    the position [j] of the grid and with the width of 1.96 inches. *)
Theorem maldi_main_layout (F : Type) (FL : PyFloat F) (U : Unicode)
  (page_w_in page_h_in : F) (listing : option (list str)) :
  main page_w_in page_h_in listing <> Raises IndexError
  /\ forall slides,
       main page_w_in page_h_in listing = Returns slides ->
       Forall (fun sl => (0 < length sl <= 16)%nat
                         /\ at_positions (main_positions page_w_in page_h_in) sl)
              slides.
Proof.
  split; [apply main_no_IndexError|]. intros slides. apply main_layout.
Qed.

(** A directory with two files of one new construct, two other images, the
    construct forced to the end and a text file. *)
Lemma maldi_main_order_witness :
  exists slides mains news lasts,
    main (F:=float) (U:=ascii_tables) (of_dec 10) (of_dec 7.5)
      (Some [lit "N15_V30.png"; lit "b.png"; lit "a.PNG"; lit "N15_V30.jpg";
             lit "N15_dnmt_SAA.png"; lit "readme.txt"]) = Returns slides
    /\ files slides = map (join IMAGES_DIR) (mains ++ news ++ lasts)
    /\ map stem_of news = [lit "N15_V30"]
    /\ map stem_of lasts = [lit "N15_dnmt_SAA"].
Proof.
  set (names := [lit "N15_V30.png"; lit "b.png"; lit "a.PNG"; lit "N15_V30.jpg";
                 lit "N15_dnmt_SAA.png"; lit "readme.txt"]).
  assert (Hplain : Forall plain names).
  { unfold plain. apply (bool_decide_unpack _). vm_compute. exact I. }
  destruct (main (F:=float) (U:=ascii_tables) (of_dec 10) (of_dec 7.5) (Some names))
    as [slides|e] eqn:E; [|exfalso; revert E; vm_compute; discriminate].
  destruct (maldi_main_order float binary64 ascii_tables (of_dec 10) (of_dec 7.5)
              names slides Hplain E)
    as (mains & news & lasts & S1 & S2 & S3 & Hs & (H1 & H2 & H3) & _ & (Hn & Hl) & _).
  exists slides, mains, news, lasts. split; [reflexivity|]. split; [|split].
  - rewrite Hs. unfold files in *. rewrite !map_app, !concat_app, H1, H2, H3.
    reflexivity.
  - rewrite Hn. vm_compute. reflexivity.
  - rewrite Hl. vm_compute. reflexivity.
Defined.

(** The same directory. *)
Lemma maldi_main_layout_witness :
  exists slides,
    main (F:=float) (U:=ascii_tables) (of_dec 10) (of_dec 7.5)
      (Some [lit "N15_V30.png"; lit "b.png"; lit "a.PNG"; lit "N15_V30.jpg";
             lit "N15_dnmt_SAA.png"; lit "readme.txt"]) = Returns slides
    /\ Forall (fun sl => (0 < length sl <= 16)%nat
                         /\ at_positions (main_positions (of_dec 10) (of_dec 7.5)) sl)
              slides.
Proof.
  set (names := [lit "N15_V30.png"; lit "b.png"; lit "a.PNG"; lit "N15_V30.jpg";
                 lit "N15_dnmt_SAA.png"; lit "readme.txt"]).
  destruct (main (F:=float) (U:=ascii_tables) (of_dec 10) (of_dec 7.5) (Some names))
    as [slides|e] eqn:E; [|exfalso; revert E; vm_compute; discriminate].
  exists slides. split; [reflexivity|].
  exact (proj2 (maldi_main_layout float binary64 ascii_tables (of_dec 10) (of_dec 7.5)
                  (Some names)) slides E).
Defined.
